(** * SNMP client discovery of the LANCOM LMC dashboard backend

    A shallow embedding of [src/server.js]: the walk executor
    [runSnmpWalk], the two MAC decoders, the table builders, the bridge
    resolver [snmpMacTable] with its WLAN fallback
    [snmpLancomWlanClients], and the connectivity test of the [/snmp]
    request handler.

    Conventions of the embedding.
    - A JavaScript string is a [string]; every [ascii] stands for one
      UTF-16 code unit below 256.
    - A JavaScript number that the code obtains from [parseInt] is an
      integer or NaN ([number]).  Integers are kept exact; the source
      agrees with that for magnitudes below 2^53, which covers every
      quantity an SNMP agent reports as INTEGER.
    - A plain object used as a dictionary is an association list in
      insertion order ([obj]), which is the order [Object.entries] and
      [Object.values] enumerate keys that are not array indices.
    - Regular expressions are values of [regex], run by a backtracking
      matcher with the priorities of the ECMAScript semantics. *)

From Stdlib Require Import Bool Arith ZArith NArith Lia List String Ascii.
From Stdlib Require Import Sorting.Sorted Sorting.Permutation.
Import ListNotations.

Local Open Scope list_scope.
Local Open Scope string_scope.

(* ================================================================== *)
(** ** Strings of the JavaScript runtime *)
(* ================================================================== *)

Module JsString.

Definition code (c : ascii) : N := N_of_ascii c.

Definition in_range (lo hi : N) (c : ascii) : bool :=
  ((lo <=? code c) && (code c <=? hi))%N.

(** [\d] *)
Definition is_digit (c : ascii) : bool := in_range 48 57 c.

(** [\s], and the characters [trim] removes: TAB LF VT FF CR SP NBSP. *)
Definition is_space (c : ascii) : bool :=
  in_range 9 13 c || (code c =? 32)%N || (code c =? 160)%N.

(** Line terminators: what [.] and a multiline [$] look at. *)
Definition is_line_terminator (c : ascii) : bool :=
  (code c =? 10)%N || (code c =? 13)%N.

Fixpoint rev_append (a b : string) : string :=
  match a with
  | EmptyString => b
  | String c a' => rev_append a' (String c b)
  end.

Definition rev (s : string) : string := rev_append s EmptyString.

Fixpoint filter (p : ascii -> bool) (s : string) : string :=
  match s with
  | EmptyString => EmptyString
  | String c t => if p c then String c (filter p t) else filter p t
  end.

Fixpoint map (f : ascii -> ascii) (s : string) : string :=
  match s with
  | EmptyString => EmptyString
  | String c t => String (f c) (map f t)
  end.

Fixpoint forallb (p : ascii -> bool) (s : string) : bool :=
  match s with
  | EmptyString => true
  | String c t => p c && forallb p t
  end.

Fixpoint mem (c : ascii) (s : string) : bool :=
  match s with
  | EmptyString => false
  | String d t => Ascii.eqb c d || mem c t
  end.

(** [s.trimStart()] *)
Fixpoint trimStart (s : string) : string :=
  match s with
  | EmptyString => EmptyString
  | String c t => if is_space c then trimStart t else s
  end.

(** [s.trim()] *)
Definition trim (s : string) : string :=
  rev (trimStart (rev (trimStart s))).

(** [s.slice(0, n)] for a non-negative [n] *)
Definition slice0 (n : nat) (s : string) : string := substring 0 n s.

(** [s.toLowerCase()] on code units below 256: A-Z, and the Latin-1
    capitals U+00C0..U+00DE without the multiplication sign. *)
Definition lower (c : ascii) : ascii :=
  if in_range 65 90 c
     || (in_range 192 222 c && negb (code c =? 215)%N)
  then ascii_of_N (code c + 32) else c.

Definition toLowerCase (s : string) : string := map lower s.

(** [s.split(sep)] for a separator of one character: the pieces
    between the separators, one more than there are separators. *)
Fixpoint split_acc (sep : ascii) (cur_rev : string) (s : string) : list string :=
  match s with
  | EmptyString => [rev cur_rev]
  | String c t =>
      if Ascii.eqb c sep
      then rev cur_rev :: split_acc sep EmptyString t
      else split_acc sep (String c cur_rev) t
  end.

Definition split (sep : ascii) (s : string) : list string :=
  split_acc sep EmptyString s.

(** [parts.join(sep)] *)
Fixpoint join (sep : string) (parts : list string) : string :=
  match parts with
  | [] => EmptyString
  | [p] => p
  | p :: rest => p ++ sep ++ join sep rest
  end.

(** [s.padStart(n, '0')] *)
Definition padStart0 (n : nat) (s : string) : string :=
  concat EmptyString (repeat "0" (n - length s)) ++ s.

(** Truthiness of a string: non-empty. *)
Definition truthy (s : string) : bool :=
  match s with EmptyString => false | _ => true end.

End JsString.

(* ================================================================== *)
(** ** Numbers: [parseInt], [toString] *)
(* ================================================================== *)

Module JsNumber.
Import JsString.

Inductive number : Type :=
| NaN
| Int (z : Z).

Definition truthy (n : number) : bool :=
  match n with NaN => false | Int z => negb (z =? 0)%Z end.

(** [a === b] on numbers: NaN differs from everything. *)
Definition strict_eq (a b : number) : bool :=
  match a, b with Int x, Int y => (x =? y)%Z | _, _ => false end.

(** The value of a digit in a radix up to 16, if it is one. *)
Definition digit_value (radix : Z) (c : ascii) : option Z :=
  let n := Z.of_N (code c) in
  let v := if in_range 48 57 c then Some (n - 48)%Z
           else if in_range 97 122 c then Some (n - 87)%Z
           else if in_range 65 90 c then Some (n - 55)%Z
           else None in
  match v with
  | Some d => if (d <? radix)%Z then Some d else None
  | None => None
  end.

(** The longest prefix of digits, as (has a digit, value). *)
Fixpoint digits_prefix (radix : Z) (acc : Z) (seen : bool) (s : string) : bool * Z :=
  match s with
  | EmptyString => (seen, acc)
  | String c t =>
      match digit_value radix c with
      | Some d => digits_prefix radix (acc * radix + d)%Z true t
      | None => (seen, acc)
      end
  end.

Definition parse_digits (radix : Z) (neg : bool) (s : string) : number :=
  match digits_prefix radix 0 false s with
  | (true, v) => Int (if neg then - v else v)%Z
  | (false, _) => NaN
  end.

(** [parseInt(s, radix)] with [radix] 10 or absent ([None]): leading
    white space, an optional sign, an optional [0x] when no radix is
    given, then the longest run of digits; NaN if there is none. *)
Definition parseInt (radix : option Z) (s : string) : number :=
  let s1 := trimStart s in
  let '(neg, s2) :=
    match s1 with
    | String "-" t => (true, t)
    | String "+" t => (false, t)
    | _ => (false, s1)
    end in
  match radix, s2 with
  | None, String "0" (String x t) =>
      if Ascii.eqb x "x" || Ascii.eqb x "X"
      then parse_digits 16 neg t
      else parse_digits 10 neg s2
  | None, _ => parse_digits 10 neg s2
  | Some r, _ => parse_digits r neg s2
  end.

Definition digit_char (d : Z) : ascii :=
  if (d <? 10)%Z then ascii_of_N (Z.to_N d + 48) else ascii_of_N (Z.to_N d + 87).

(** Digits of a non-negative integer, most significant first. *)
Fixpoint digits_fuel (fuel : nat) (radix : Z) (z : Z) (acc : string) : string :=
  match fuel with
  | O => acc
  | S f =>
      let acc' := String (digit_char (z mod radix)) acc in
      if (z / radix =? 0)%Z then acc' else digits_fuel f radix (z / radix)%Z acc'
  end.

Definition nat_digits (radix : Z) (z : Z) : string :=
  digits_fuel (S (Z.to_nat (Z.log2 z))) radix z EmptyString.

(** [n.toString(radix)], for radix 10 also [String(n)] and the
    conversion a template literal applies. *)
Definition toString (radix : Z) (n : number) : string :=
  match n with
  | NaN => "NaN"
  | Int z => if (z <? 0)%Z then String "-" (nat_digits radix (- z)) else nat_digits radix z
  end.

End JsNumber.

(* ================================================================== *)
(** ** Regular expressions *)
(* ================================================================== *)

Module Regex.
Import JsString.

Inductive regex : Type :=
| Eps                                  (* the empty pattern *)
| Chr (c : ascii)                      (* one literal character *)
| Cls (p : ascii -> bool)              (* a class, escape or [.] *)
| Seq (r1 r2 : regex)                  (* r1 r2 *)
| Opt (r : regex)                      (* r?   *)
| Star (greedy : bool) (r : regex)     (* r*  and r*?  *)
| Plus (greedy : bool) (r : regex)     (* r+  and r+?  *)
| Group (i : nat) (r : regex)          (* the i-th capturing ( ) *)
| Eol (multiline : bool).              (* $, with or without flag m *)

(** A run of literal characters. *)
Fixpoint lit (s : string) : regex :=
  match s with
  | EmptyString => Eps
  | String c t => Seq (Chr c) (lit t)
  end.

(** Concatenation of the parts of a pattern, left to right. *)
Definition cat (rs : list regex) : regex := fold_right Seq Eps rs.

Definition captures := list (nat * string).

Fixpoint capture (i : nat) (cs : captures) : option string :=
  match cs with
  | [] => None
  | (j, v) :: rest => if Nat.eqb i j then Some v else capture i rest
  end.

Definition answer : Type := captures * string.
Definition cont : Type := string -> captures -> option answer.
Definition matcher : Type := string -> captures -> cont -> option answer.

(** What was consumed between input [s] and its suffix [s']. *)
Definition consumed (s s' : string) : string :=
  substring 0 (length s - length s') s.

(** Iteration of a quantified atom.  An iteration that consumes
    nothing is not taken; a greedy quantifier first tries one more
    iteration, a lazy one first tries to go on with the pattern. *)
Fixpoint iterate (m : matcher) (greedy : bool) (fuel : nat)
         (s : string) (cs : captures) (k : cont) : option answer :=
  match fuel with
  | O => k s cs
  | S f =>
      let again (_ : unit) :=
        m s cs (fun s' cs' =>
                  if (length s' <? length s)%nat
                  then iterate m greedy f s' cs' k else None) in
      if greedy then
        match again tt with
        | Some a => Some a
        | None => k s cs
        end
      else
        match k s cs with
        | Some a => Some a
        | None => again tt
        end
  end.

Definition at_end (multiline : bool) (s : string) : bool :=
  match s with
  | EmptyString => true
  | String c _ => multiline && is_line_terminator c
  end.

(** The backtracking matcher, in continuation-passing style: [k] is
    the rest of the pattern, and the first alternative that lets the
    whole pattern succeed is the one taken. *)
Fixpoint rmatch (r : regex) : matcher :=
  fun s cs k =>
    match r with
    | Eps => k s cs
    | Chr c =>
        match s with
        | String d t => if Ascii.eqb c d then k t cs else None
        | EmptyString => None
        end
    | Cls p =>
        match s with
        | String d t => if p d then k t cs else None
        | EmptyString => None
        end
    | Seq r1 r2 => rmatch r1 s cs (fun s' cs' => rmatch r2 s' cs' k)
    | Opt r1 =>
        match rmatch r1 s cs k with
        | Some a => Some a
        | None => k s cs
        end
    | Star g r1 => iterate (rmatch r1) g (S (length s)) s cs k
    | Plus g r1 =>
        rmatch r1 s cs (fun s' cs' =>
                          iterate (rmatch r1) g (S (length s')) s' cs' k)
    | Group i r1 =>
        rmatch r1 s cs (fun s' cs' => k s' ((i, consumed s s') :: cs'))
    | Eol ml => if at_end ml s then k s cs else None
    end.

(** The result of a successful match: where it starts, the matched
    text [m[0]], the groups, and the input after the match. *)
Record match_result : Type := MatchResult
  { index : nat; whole : string; groups : captures; rest : string }.

(** [m[i]] for a group that took part in the match. *)
Definition group (i : nat) (m : match_result) : string :=
  match capture i (groups m) with Some v => v | None => EmptyString end.

(** Search from the left for the first position where [r] matches. *)
Fixpoint exec_from (r : regex) (i : nat) (s : string) : option match_result :=
  match rmatch r s [] (fun s' cs => Some (cs, s')) with
  | Some (cs, s') => Some (MatchResult i (consumed s s') cs s')
  | None =>
      match s with
      | EmptyString => None
      | String _ t => exec_from r (S i) t
      end
  end.

(** [s.match(r)] for a pattern without flag [g]. *)
Definition exec (r : regex) (s : string) : option match_result :=
  exec_from r 0 s.

(** [s.match(r)] for a pattern with flag [g]: all [m[0]], or null. *)
Fixpoint match_all_fuel (fuel : nat) (r : regex) (s : string) : list string :=
  match fuel with
  | O => []
  | S f =>
      match exec r s with
      | None => []
      | Some m =>
          whole m ::
          match whole m, rest m with
          | EmptyString, EmptyString => []
          | EmptyString, String _ t => match_all_fuel f r t
          | _, s' => match_all_fuel f r s'
          end
      end
  end.

Definition match_all (r : regex) (s : string) : option (list string) :=
  match match_all_fuel (S (length s)) r s with
  | [] => None
  | ms => Some ms
  end.

(** [s.replace(r, repl)] for a pattern with flag [g] and a
    replacement text without [$] patterns. *)
Fixpoint replace_all_fuel (fuel : nat) (r : regex) (repl : string) (s : string) : string :=
  match fuel with
  | O => s
  | S f =>
      match exec r s with
      | None => s
      | Some m =>
          substring 0 (index m) s ++ repl ++
          match whole m, rest m with
          | EmptyString, EmptyString => EmptyString
          | EmptyString, String c t => String c (replace_all_fuel f r repl t)
          | _, s' => replace_all_fuel f r repl s'
          end
      end
  end.

Definition replace_all (r : regex) (repl : string) (s : string) : string :=
  replace_all_fuel (S (length s)) r repl s.

(** The declarative reading of a pattern: [matches r s cs s' cs'] says
    that [r] can match a prefix of the input [s], leaving [s'], and
    that the captures [cs] have become [cs'] on the way.  It says what
    a match is; the order in which [rmatch] tries the alternatives
    decides which one [exec] reports. *)
Inductive matches : regex -> string -> captures -> string -> captures -> Prop :=
| M_Eps s cs :
    matches Eps s cs s cs
| M_Chr c t cs :
    matches (Chr c) (String c t) cs t cs
| M_Cls (p : ascii -> bool) d t cs :
    p d = true -> matches (Cls p) (String d t) cs t cs
| M_Seq r1 r2 s cs s1 cs1 s2 cs2 :
    matches r1 s cs s1 cs1 -> matches r2 s1 cs1 s2 cs2 ->
    matches (Seq r1 r2) s cs s2 cs2
| M_OptSome r s cs s1 cs1 :
    matches r s cs s1 cs1 -> matches (Opt r) s cs s1 cs1
| M_OptNone r s cs :
    matches (Opt r) s cs s cs
| M_StarStop g r s cs :
    matches (Star g r) s cs s cs
| M_StarMore g r s cs s1 cs1 s2 cs2 :
    matches r s cs s1 cs1 -> length s1 < length s ->
    matches (Star g r) s1 cs1 s2 cs2 ->
    matches (Star g r) s cs s2 cs2
| M_Plus g r s cs s1 cs1 s2 cs2 :
    matches r s cs s1 cs1 -> matches (Star g r) s1 cs1 s2 cs2 ->
    matches (Plus g r) s cs s2 cs2
| M_Group i r s cs s1 cs1 :
    matches r s cs s1 cs1 ->
    matches (Group i r) s cs s1 ((i, consumed s s1) :: cs1)
| M_Eol ml s cs :
    at_end ml s = true -> matches (Eol ml) s cs s cs.

(** The groups a match of the pattern is bound to set: those outside
    of [?] and [*]. *)
Fixpoint binds (r : regex) : list nat :=
  match r with
  | Seq r1 r2 => (binds r1 ++ binds r2)%list
  | Plus _ r1 => binds r1
  | Group i r1 => i :: binds r1
  | Eps | Chr _ | Cls _ | Opt _ | Star _ _ | Eol _ => []
  end.

End Regex.

(* ================================================================== *)
(** ** Promises and the walk executor *)
(* ================================================================== *)

Module Walk.

(** The state of a promise.  An [async] function returns one. *)
Inductive promise (A : Type) : Type :=
| Pending
| Fulfilled (v : A)
| Rejected (reason : string).
Arguments Pending {A}.
Arguments Fulfilled {A} v.
Arguments Rejected {A} reason.

(** [resolve(v)]: only the first settlement of a promise counts. *)
Definition resolve {A} (v : A) (p : promise A) : promise A :=
  match p with Pending => Fulfilled v | _ => p end.

(** What the event loop delivers to the handlers [runSnmpWalk]
    registers on the spawned process, and to its timer. *)
Inductive event : Type :=
| StdoutData (d : string)        (* proc.stdout 'data' *)
| TimerFired                     (* the 12000 ms timer elapses *)
| ProcClose (code : option Z)    (* proc 'close', exit code or signal *)
| ProcError.                     (* proc 'error', e.g. spawn failed *)

(** The hard wall-clock budget of one walk, in milliseconds. *)
Definition wall_clock_ms : Z := 12000.

(** The variables the closures of one [runSnmpWalk] call share. *)
Record walk_state : Type := WalkState
  { out : string;              (* let out = '' *)
    timer : bool;              (* the timer is still scheduled *)
    kills : nat;               (* how often proc.kill() was called *)
    result : promise string }. (* the promise handed to the caller *)

Definition start : walk_state :=
  {| out := ""; timer := true; kills := 0; result := Pending |}.

Definition handle (st : walk_state) (ev : event) : walk_state :=
  match ev with
  | StdoutData d =>
      (* d => (out += d) *)
      {| out := out st ++ d; timer := timer st;
         kills := kills st; result := result st |}
  | TimerFired =>
      (* () => { try { proc.kill(); } catch {} }, if not cleared *)
      if timer st
      then {| out := out st; timer := false;
              kills := S (kills st); result := result st |}
      else st
  | ProcClose _ =>
      (* () => { clearTimeout(timer); resolve(out); } *)
      {| out := out st; timer := false;
         kills := kills st; result := resolve (out st) (result st) |}
  | ProcError =>
      (* () => { clearTimeout(timer); resolve(''); } *)
      {| out := out st; timer := false;
         kills := kills st; result := resolve "" (result st) |}
  end.

Definition run_from (st : walk_state) (evs : list event) : walk_state :=
  fold_left handle evs st.

Definition run (evs : list event) : walk_state := run_from start evs.

(** An event other than [close] and [error]. *)
Definition keeps_running (ev : event) : bool :=
  match ev with
  | ProcClose _ | ProcError => false
  | StdoutData _ | TimerFired => true
  end.

(** Everything a process wrote, in order. *)
Fixpoint stdout_of (evs : list event) : string :=
  match evs with
  | [] => ""
  | StdoutData d :: rest => d ++ stdout_of rest
  | _ :: rest => stdout_of rest
  end.

(** The process [runSnmpWalk] spawns. *)
Record spawn_call : Type := SpawnCall { cmd : string; args : list string }.

Definition walk_command (host community version oid : string) : spawn_call :=
  {| cmd := if String.eqb version "1" then "snmpwalk" else "snmpbulkwalk";
     args := ["-v"; version; "-c"; community; "-On"; "-t"; "5"; "-r"; "1";
              host; oid] |}.

(** What the executor of the promise meets at [spawn(cmd, args)].
    Either it throws before a handler is registered, and no process
    runs: [spawn] itself throws (for an argument that holds a NUL
    character, and for an error of the system that Node does not turn
    into an [error] event, such as E2BIG for an argument list that is
    too long), or what it returns has no [stdout], so that
    [proc.stdout.on] throws.  Or [spawn] returns a process, whose
    events the handlers then see. *)
Inductive spawned : Type :=
| Throws (reason : string)       (* e.message of what is thrown *)
| Process (evs : list event).

(** The device and the operating system: what every call of [spawn]
    does, by the number of processes started before it and the
    command line.  The traces of different processes do not interact:
    each call has its own [out], timer and promise. *)
Definition world : Type := nat -> spawn_call -> spawned.

(** Asynchronous computations: the log of the processes spawned so
    far is threaded through, the outcome is a promise state. *)
Definition M (A : Type) : Type := list spawn_call -> promise A * list spawn_call.

Definition ret {A} (a : A) : M A := fun log => (Fulfilled a, log).

(** [const x = await m; k x] inside an [async] function. *)
Definition bind {A B} (m : M A) (k : A -> M B) : M B :=
  fun log =>
    match m log with
    | (Fulfilled a, log') => k a log'
    | (Pending, log') => (Pending, log')
    | (Rejected e, log') => (Rejected e, log')
    end.

(** [Promise.all([a, b])]: both are started, in this order, before
    either is awaited. *)
Definition both {A B} (a : M A) (b : M B) : M (A * B) :=
  fun log =>
    let '(pa, log1) := a log in
    let '(pb, log2) := b log1 in
    (match pa, pb with
     | Rejected e, _ => Rejected e
     | _, Rejected e => Rejected e
     | Fulfilled x, Fulfilled y => Fulfilled (x, y)
     | _, _ => Pending
     end, log2).

(** [function runSnmpWalk(host, community, version, oid)]: an
    exception in the executor of [new Promise] rejects the promise,
    and then there is no process. *)
Definition runSnmpWalk (w : world) (host community version oid : string) : M string :=
  fun log =>
    let call := walk_command host community version oid in
    match w (List.length log) call with
    | Throws reason => (Rejected reason, log)
    | Process evs => (result (run evs), (log ++ [call])%list)
    end.

End Walk.

Declare Scope async_scope.
Delimit Scope async_scope with async.
Notation "x <- m ;; k" := (Walk.bind m (fun x => k))
  (at level 61, m at next level, right associativity) : async_scope.
Notation "' p <- m ;; k" := (Walk.bind m (fun x => match x with p => k end))
  (at level 61, p pattern, m at next level, right associativity) : async_scope.

(* ================================================================== *)
(** ** Plain objects used as dictionaries *)
(* ================================================================== *)

Module Obj.

(** Own properties in insertion order.  The keys the code enumerates
    (of [macToBp] and [clients]) are MAC texts, which contain colons
    and so are no array indices; the keys it looks up are MAC texts
    and decimal numerals, none of which names a property of
    [Object.prototype]. *)
Definition obj (V : Type) : Type := list (string * V).

(** [o[k]], [None] standing for [undefined]. *)
Fixpoint get {V} (o : obj V) (k : string) : option V :=
  match o with
  | [] => None
  | (k', v) :: rest => if String.eqb k k' then Some v else get rest k
  end.

(** [o[k] = v]: an existing property keeps its place. *)
Fixpoint set {V} (o : obj V) (k : string) (v : V) : obj V :=
  match o with
  | [] => [(k, v)]
  | (k', v') :: rest =>
      if String.eqb k k' then (k', v) :: rest else (k', v') :: set rest k v
  end.

Definition keys {V} (o : obj V) : list string := List.map fst o.
Definition values {V} (o : obj V) : list V := List.map snd o.
Definition entries {V} (o : obj V) : list (string * V) := o.

End Obj.

(* ================================================================== *)
(** ** The SNMP helpers of [server.js] *)
(* ================================================================== *)

Module Snmp.
Import JsString JsNumber Regex Walk Obj.

Definition newline : ascii := "010"%char.

(** [.] of a pattern without flag [s]. *)
Definition any_char (c : ascii) : bool := negb (is_line_terminator c).

(** [[\d.]] *)
Definition digit_or_dot (c : ascii) : bool := is_digit c || Ascii.eqb c ".".

(** [[\dA-Fa-f ]] *)
Definition hex_or_blank (c : ascii) : bool :=
  is_digit c || in_range 65 70 c || in_range 97 102 c || Ascii.eqb c " ".

(** The double quote.  In the patterns quoted below it is written
    [\x22], and a blank separates a star from a closing parenthesis. *)
Definition dquote : ascii := "034"%char.

(** [[^\x22\n]] *)
Definition not_quote_nl (c : ascii) : bool :=
  negb (Ascii.eqb c dquote || Ascii.eqb c newline).

(** [[:\s]] *)
Definition colon_or_space (c : ascii) : bool := Ascii.eqb c ":" || is_space c.

Definition spaces : regex := Star true (Cls is_space).       (* \s* *)
Definition digits : regex := Plus true (Cls is_digit).       (* \d+ *)

(** [function macFromDecOid(suffix)] *)
Definition macFromDecOid (suffix : string) : option string :=
  let parts := split "." suffix in
  if negb (List.length parts =? 6)%nat then None
  else Some (join ":"
               (List.map (fun n => padStart0 2 (toString 16 (parseInt (Some 10%Z) n)))
                         parts)).

(** [function macFromHexStr(str)].  [hex.match(/.{2}/g)] is null only
    for a text without two adjacent characters other than line
    terminators; [join] on null would throw, which the length test
    before it rules out (see [hex_pairs_found]). *)
Definition macFromHexStr (str : string) : option string :=
  let hex := toLowerCase (replace_all (Cls colon_or_space) "" str) in
  if negb (length hex =? 12)%nat then None
  else match match_all (Seq (Cls any_char) (Cls any_char)) hex with
       | Some pairs => Some (join ":" pairs)
       | None => None
       end.

(** [if (mac)] for the result of a MAC decoder. *)
Definition mac_truthy (mac : option string) : option string :=
  match mac with
  | Some m => if JsString.truthy m then Some m else None
  | None => None
  end.

(** [/4\.22\.1\.2\.\d+\.([\d.]+)\s*=\s*(?:Hex-STRING:\s* )?([\dA-Fa-f ]+)\s*$/] *)
Definition arp_re : regex :=
  cat [lit "4.22.1.2."; digits; Chr "."; Group 1 (Plus true (Cls digit_or_dot));
       spaces; Chr "="; spaces; Opt (cat [lit "Hex-STRING:"; spaces]);
       Group 2 (Plus true (Cls hex_or_blank)); spaces; Eol false].

(** [/2356\.13\.1\.3\.32\.1\.3\.([\d.]+)\s*=\s*(?:STRING:\s* )?\x22?([^\x22\n]+?)\x22?\s*$/] *)
Definition ssid_re : regex :=
  cat [lit "2356.13.1.3.32.1.3."; Group 1 (Plus true (Cls digit_or_dot));
       spaces; Chr "="; spaces; Opt (cat [lit "STRING:"; spaces]);
       Opt (Chr dquote); Group 2 (Plus false (Cls not_quote_nl)); Opt (Chr dquote);
       spaces; Eol false].

(** [/2356\.13\.1\.3\.4\.1\.1\.(\d+)\.([\d.]+)\s*=\s*(.* )/] *)
Definition client_re : regex :=
  cat [lit "2356.13.1.3.4.1.1."; Group 1 digits; Chr ".";
       Group 2 (Plus true (Cls digit_or_dot)); spaces; Chr "="; spaces;
       Group 3 (Star true (Cls any_char))].

(** [/(\d+)/] *)
Definition number_re : regex := Group 1 digits.

(** [/17\.4\.3\.1\.2\.([\d.]+)\s*=\s*INTEGER:\s*(\d+)/] *)
Definition fdb_re : regex :=
  cat [lit "17.4.3.1.2."; Group 1 (Plus true (Cls digit_or_dot));
       spaces; Chr "="; spaces; lit "INTEGER:"; spaces; Group 2 digits].

(** [/17\.7\.1\.2\.2\.1\.2\.\d+\.([\d.]+)\s*=\s*INTEGER:\s*(\d+)/] *)
Definition qfdb_re : regex :=
  cat [lit "17.7.1.2.2.1.2."; digits; Chr ".";
       Group 1 (Plus true (Cls digit_or_dot));
       spaces; Chr "="; spaces; lit "INTEGER:"; spaces; Group 2 digits].

(** [/17\.1\.4\.1\.2\.(\d+)\s*=\s*INTEGER:\s*(\d+)/] *)
Definition bp_re : regex :=
  cat [lit "17.1.4.1.2."; Group 1 digits;
       spaces; Chr "="; spaces; lit "INTEGER:"; spaces; Group 2 digits].

(** [/31\.1\.1\.1\.1\.(\d+)\s*=\s*(?:STRING:\s* )?\x22?([^\x22\n]+?)\x22?\s*$/] *)
Definition ifname_re : regex :=
  cat [lit "31.1.1.1.1."; Group 1 digits;
       spaces; Chr "="; spaces; Opt (cat [lit "STRING:"; spaces]);
       Opt (Chr dquote); Group 2 (Plus false (Cls not_quote_nl)); Opt (Chr dquote);
       spaces; Eol false].

(** [/STRING:\s*\x22?([^\n\x22]+)\x22?\s*$/m] *)
Definition sysdescr_re : regex :=
  cat [lit "STRING:"; spaces; Opt (Chr dquote);
       Group 1 (Plus true (Cls not_quote_nl)); Opt (Chr dquote);
       spaces; Eol true].

(** [text.split('\n').forEach(line => ...)] updating one object. *)
Definition for_each_line {S} (text : string) (body : S -> string -> S) (init : S) : S :=
  fold_left body (split newline text) init.

(** ARP: MAC -> IP.  The same loop stands in both resolvers. *)
Definition arp_line (macToIp : obj string) (line : string) : obj string :=
  match exec arp_re line with
  | Some m =>
      if (List.length (split "." (group 1 m)) =? 4)%nat then
        match mac_truthy (macFromHexStr (trim (group 2 m))) with
        | Some mac => set macToIp mac (group 1 m)
        | None => macToIp
        end
      else macToIp
  | None => macToIp
  end.

Definition build_macToIp (arpOut : string) : obj string :=
  for_each_line arpOut arp_line [].

(** SSID: MAC -> SSID string. *)
Definition ssid_line (macToSsid : obj string) (line : string) : obj string :=
  match exec ssid_re line with
  | Some m =>
      match mac_truthy (macFromDecOid (group 1 m)) with
      | Some mac => set macToSsid mac (trim (group 2 m))
      | None => macToSsid
      end
  | None => macToSsid
  end.

Definition build_macToSsid (ssidOut : string) : obj string :=
  for_each_line ssidOut ssid_line [].

(** [{ mac, channel: null, band: null }] *)
Record client : Type := Client
  { c_mac : string; channel : option number; band : option number }.

(** Client table: unique MACs with channel and band. *)
Definition client_line (clients : obj client) (line : string) : obj client :=
  match exec client_re line with
  | None => clients
  | Some m =>
      let col := parseInt None (group 1 m) in
      match mac_truthy (macFromDecOid (group 2 m)) with
      | None => clients
      | Some mac =>
          let clients1 :=
            match get clients mac with
            | Some _ => clients
            | None => set clients mac {| c_mac := mac; channel := None; band := None |}
            end in
          let val := trim (group 3 m) in
          match exec number_re val, get clients1 mac with
          | Some n, Some c =>
              let c1 := if strict_eq col (Int 2)
                        then {| c_mac := c_mac c;
                                channel := Some (parseInt None (group 1 n));
                                band := band c |}
                        else c in
              let c2 := if strict_eq col (Int 3)
                        then {| c_mac := c_mac c1; channel := channel c1;
                                band := Some (parseInt None (group 1 n)) |}
                        else c1 in
              set clients1 mac c2
          | _, _ => clients1
          end
      end
  end.

Definition build_clients (clientOut : string) : obj client :=
  for_each_line clientOut client_line [].

(** The final, output-facing entry. *)
Record entry : Type := Entry
  { mac : string; bridgePort : number; portName : string; ip : option string }.

(** [x || null] for a looked-up text. *)
Definition or_null (x : option string) : option string :=
  match x with
  | Some s => if JsString.truthy s then Some s else None
  | None => None
  end.

(** [x || ''] for a looked-up text. *)
Definition or_empty (x : option string) : string :=
  match x with Some s => s | None => "" end.

(** [c => { ... return { mac: c.mac, bridgePort: 0, portName, ip } }] *)
Definition wlan_entry (macToSsid macToIp : obj string) (c : client) : entry :=
  let ssid := or_empty (get macToSsid (c_mac c)) in
  let portName0 := if JsString.truthy ssid then "WLAN: " ++ ssid else "WLAN" in
  let portName1 :=
    match band c with
    | Some b =>
        if JsNumber.truthy b
        then portName0 ++ (if strict_eq b (Int 1) then " (2.4G)"
                           else if strict_eq b (Int 2) then " (5G)" else "")
        else portName0
    | None => portName0
    end in
  let portName2 :=
    match channel c with
    | Some ch =>
        if JsNumber.truthy ch then portName1 ++ " CH" ++ toString 10 ch else portName1
    | None => portName1
    end in
  {| mac := c_mac c; bridgePort := Int 0; portName := portName2;
     ip := or_null (get macToIp (c_mac c)) |}.

(** Classic Bridge MIB: OID suffix = MAC -> port. *)
Definition fdb_line (macToBp : obj number) (line : string) : obj number :=
  match exec fdb_re line with
  | Some m =>
      match mac_truthy (macFromDecOid (group 1 m)) with
      | Some mac => set macToBp mac (parseInt None (group 2 m))
      | None => macToBp
      end
  | None => macToBp
  end.

(** [!macToBp[mac]] *)
Definition falsy_port (p : option number) : bool :=
  match p with Some n => negb (JsNumber.truthy n) | None => true end.

(** Q-Bridge MIB: OID suffix = VLAN then MAC -> port. *)
Definition qfdb_line (macToBp : obj number) (line : string) : obj number :=
  match exec qfdb_re line with
  | Some m =>
      match mac_truthy (macFromDecOid (group 1 m)) with
      | Some mac =>
          if falsy_port (get macToBp mac)
          then set macToBp mac (parseInt None (group 2 m))
          else macToBp
      | None => macToBp
      end
  | None => macToBp
  end.

(** MAC -> bridge port: classic Bridge MIB first, Q-Bridge MIB when
    that left the object without keys. *)
Definition build_macToBp (fdbOut qfdbOut : string) : obj number :=
  let macToBp := for_each_line fdbOut fdb_line [] in
  if (List.length (keys macToBp) =? 0)%nat
  then for_each_line qfdbOut qfdb_line macToBp
  else macToBp.

(** bridge port -> ifIndex *)
Definition bp_line (bpToIf : obj number) (line : string) : obj number :=
  match exec bp_re line with
  | Some m => set bpToIf (group 1 m) (parseInt None (group 2 m))
  | None => bpToIf
  end.

Definition build_bpToIf (bpOut : string) : obj number :=
  for_each_line bpOut bp_line [].

(** ifIndex -> interface name *)
Definition ifname_line (ifNames : obj string) (line : string) : obj string :=
  match exec ifname_re line with
  | Some m => set ifNames (group 1 m) (trim (group 2 m))
  | None => ifNames
  end.

Definition build_ifNames (ifNameOut : string) : obj string :=
  for_each_line ifNameOut ifname_line [].

(** [`Port ${bp}`] *)
Definition port_label (bp : number) : string := "Port " ++ toString 10 bp.

(** [([mac, bp]) => { ... return { mac, bridgePort: bp, portName, ip } }] *)
Definition bridge_entry (bpToIf : obj number) (ifNames macToIp : obj string)
           (kv : string * number) : entry :=
  let '(mac, bp) := kv in
  let ifIdx := get bpToIf (toString 10 bp) in
  let portName :=
    match ifIdx with
    | Some i =>
        if JsNumber.truthy i then
          match get ifNames (toString 10 i) with
          | Some name => if JsString.truthy name then name else port_label bp
          | None => port_label bp
          end
        else port_label bp
    | None => port_label bp
    end in
  {| mac := mac; bridgePort := bp; portName := portName;
     ip := or_null (get macToIp mac) |}.

(** [ClientTableResult] *)
Record table_result : Type := TableResult
  { entries : list entry;
    count : nat;
    countWithIp : nat;
    hasMacTable : bool;
    source : string }.

(** [e => e.ip] *)
Definition has_ip (e : entry) : bool :=
  match ip e with Some s => JsString.truthy s | None => false end.

(** The object literal both resolvers return. *)
Definition make_result (entries : list entry) (source : string) : table_result :=
  {| entries := entries;
     count := List.length entries;
     countWithIp := List.length (List.filter has_ip entries);
     hasMacTable := (0 <? List.length entries)%nat;
     source := source |}.

(** [{ ok, sysDescr }] of the connectivity test. *)
Record test_result : Type := TestResult { ok : bool; sysDescr : string }.

(** The two statements after the walk in the [type === 'test'] branch
    of the request handler. *)
Definition test_result_of (out : string) : test_result :=
  let m := exec sysdescr_re out in
  {| ok := match m with Some _ => true | None => false end;
     sysDescr := match m with
                 | Some m => trim (group 1 m)
                 | None =>
                     let head := slice0 200 (trim out) in
                     if JsString.truthy head then head else "Keine Antwort"
                 end |}.

Section Resolver.

(** The outside world of one request. *)
Variable w : world.

(** [a.localeCompare(b, undefined, { numeric: true })], a facility of
    the runtime's collation library; only its sign is used. *)
Variable localeCompare : string -> string -> comparison.

(** [entries.sort((a, b) => a.portName.localeCompare(b.portName, ...))]:
    the sort of the runtime is stable, and for a consistent comparison
    every stable sort returns the same array. *)
Fixpoint sort_insert (e : entry) (sorted : list entry) : list entry :=
  match sorted with
  | [] => [e]
  | h :: t =>
      match localeCompare (portName e) (portName h) with
      | Gt => h :: sort_insert e t
      | _ => e :: sorted
      end
  end.

Definition sort_by_portName (es : list entry) : list entry :=
  fold_right sort_insert [] es.

Definition wlan_entries (clientOut ssidOut arpOut : string) : list entry :=
  let macToIp := build_macToIp arpOut in
  let macToSsid := build_macToSsid ssidOut in
  let clients := build_clients clientOut in
  sort_by_portName (List.map (wlan_entry macToSsid macToIp) (values clients)).

(** What [snmpLancomWlanClients] returns for the texts of its walks. *)
Definition wlan_result (clientOut ssidOut arpOut : string) : table_result :=
  make_result (wlan_entries clientOut ssidOut arpOut) "wlan-clients".

Definition bridge_entries (fdbOut qfdbOut bpOut ifNameOut arpOut : string) : list entry :=
  let macToBp := build_macToBp fdbOut qfdbOut in
  let bpToIf := build_bpToIf bpOut in
  let ifNames := build_ifNames ifNameOut in
  let macToIp := build_macToIp arpOut in
  sort_by_portName
    (List.map (bridge_entry bpToIf ifNames macToIp) (Obj.entries macToBp)).

Local Open Scope async_scope.

(** [async function snmpLancomWlanClients(host, community, version)] *)
Definition snmpLancomWlanClients (host community version : string) : M table_result :=
  '(clientOut, (ssidOut, arpOut)) <-
     both (runSnmpWalk w host community version "1.3.6.1.4.1.2356.13.1.3.4.1.1")
    (both (runSnmpWalk w host community version "1.3.6.1.4.1.2356.13.1.3.32.1.3")
          (runSnmpWalk w host community version "1.3.6.1.2.1.4.22.1.2")) ;;
  ret (wlan_result clientOut ssidOut arpOut).

(** [async function snmpMacTable(host, community, version)] *)
Definition snmpMacTable (host community version : string) : M table_result :=
  '(fdbOut, (qfdbOut, (bpOut, (ifNameOut, arpOut)))) <-
     both (runSnmpWalk w host community version "1.3.6.1.2.1.17.4.3.1.2")
    (both (runSnmpWalk w host community version "1.3.6.1.2.1.17.7.1.2.2.1.2")
    (both (runSnmpWalk w host community version "1.3.6.1.2.1.17.1.4.1.2")
    (both (runSnmpWalk w host community version "1.3.6.1.2.1.31.1.1.1.1")
          (runSnmpWalk w host community version "1.3.6.1.2.1.4.22.1.2")))) ;;
  let entries := bridge_entries fdbOut qfdbOut bpOut ifNameOut arpOut in
  if (List.length entries =? 0)%nat
  then snmpLancomWlanClients host community version
  else ret (make_result entries "bridge").

(** The [type === 'test'] branch of the [/snmp] handler. *)
Definition snmpTest (host community version : string) : M test_result :=
  out <- runSnmpWalk w host community version "1.3.6.1.2.1.1.1.0" ;;
  ret (test_result_of out).

End Resolver.

End Snmp.

(* ================================================================== *)
(** ** The HTTP endpoints of [server.js] *)
(* ================================================================== *)

Module Http.
Import JsString JsNumber Regex Walk Obj Snmp.

(** A property of the parsed request body, as far as the handlers look
    at it: absent; a string; another JSON value, of which only the
    truthiness and the text that [ToString] makes of it matter; or a
    value that has no text.  The last is an object with an own
    property [toString], which JSON cannot make a function, or an
    array that holds one: it is truthy, and its conversion to a
    string or to a property key throws a TypeError. *)
Inductive value : Type :=
| Undefined
| Str (s : string)
| Other (truthy : bool) (text : string)
| Textless.

(** [!!v] *)
Definition value_truthy (v : value) : bool :=
  match v with
  | Undefined => false
  | Str s => JsString.truthy s
  | Other t _ => t
  | Textless => true
  end.

(** [String(v)], which is also what [regex.test(v)], string
    concatenation, a property key and an argument of [spawn] make of
    [v]; [None] where the conversion throws. *)
Definition value_text (v : value) : option string :=
  match v with
  | Undefined => Some "undefined"
  | Str s => Some s
  | Other _ text => Some text
  | Textless => None
  end.

(** [const { name = fallback } = input]: the default stands in for an
    absent property only. *)
Definition with_default (v : value) (fallback : string) : value :=
  match v with Undefined => Str fallback | _ => v end.

(** [v === 'text'] *)
Definition is_text (v : value) (text : string) : bool :=
  match v with Str s => String.eqb s text | _ => false end.

(** What [JSON.parse(body)] gives: it throws, or the body is [null],
    or it is another value, whose properties [input.name] are given
    by [props] (all absent for a number, string, boolean or array). *)
Inductive parsed : Type :=
| InvalidJson
| JsonNull
| JsonValue (props : string -> value).

(** What is handed to [JSON.stringify] or written as it is. *)
Inductive content : Type :=
| NoContent
| ErrorMessage (error : string)          (* { error: ... } *)
| Table (r : table_result)
| Test (t : test_result)
| Raw (text : string).                   (* the body of the upstream reply *)

(** [res.writeHead(status, ...); res.end(body)] *)
Record reply : Type := Reply { status : nat; body : content }.

(** [throw] inside an [async] function: its promise rejects. *)
Definition throw {A} (reason : string) : M A := fun log => (Rejected reason, log).

(** [try { await m } catch (e) { handler(e) }] *)
Definition try_catch {A} (m : M A) (handler : string -> M A) : M A :=
  fun log =>
    match m log with
    | (Rejected e, log') => handler e log'
    | other => other
    end.

(** U+00FC, the letter u with diaeresis. *)
Definition ue : ascii := "252"%char.

(** [[a-zA-Z0-9.\-]] *)
Definition host_char (c : ascii) : bool :=
  in_range 97 122 c || in_range 65 90 c || is_digit c
  || Ascii.eqb c "." || Ascii.eqb c "-".

(** [\w] *)
Definition word_char (c : ascii) : bool :=
  in_range 97 122 c || in_range 65 90 c || is_digit c || Ascii.eqb c "_".

(** [[\w\-@.!#%&*+=]] *)
Definition community_char (c : ascii) : bool :=
  word_char c || JsString.mem c "-@.!#%&*+=".

(** [/^[a-zA-Z0-9.\-]+$/] and [/^[\w\-@.!#%&*+=]+$/], without their
    leading [^]: see [test_at_start]. *)
Definition host_re : regex := cat [Plus true (Cls host_char); Eol false].
Definition community_re : regex := cat [Plus true (Cls community_char); Eol false].

(** [/^.../.test(s)]: a pattern that begins with [^] and has no flag
    [m] can match at index 0 only, so the rest of the pattern is run
    there and nowhere else. *)
Definition test_at_start (r : regex) (s : string) : bool :=
  match rmatch r s [] (fun s' cs => Some (cs, s')) with
  | Some _ => true
  | None => false
  end.

(** [!v || !/^.../.test(v)]: the value fails the check, or the
    conversion inside [test] throws, or the value passes with its
    text. *)
Inductive checked : Type :=
| Fails
| Raises
| Passes (text : string).

Definition check (r : regex) (v : value) : checked :=
  if value_truthy v then
    match value_text v with
    | Some text => if test_at_start r text then Passes text else Fails
    | None => Raises
    end
  else Fails.

Definition bad_request (message : string) : reply :=
  {| status := 400; body := ErrorMessage message |}.

(** The service table.  [SERVICES[name]] also finds what the object
    inherits from [Object.prototype]. *)
Definition SERVICES : obj string :=
  [("devices", "https://cloud.lancom.de/cloud-service-devices");
   ("monitoring", "https://cloud.lancom.de/cloud-service-monitoring");
   ("monitor-frontend", "https://cloud.lancom.de/cloud-service-monitor-frontend");
   ("useragent", "https://cloud.lancom.de/cloud-service-useragent");
   ("auth", "https://cloud.lancom.de/cloud-service-auth");
   ("config", "https://cloud.lancom.de/cloud-service-config");
   ("notification", "https://cloud.lancom.de/cloud-service-notification");
   ("devicetunnel", "https://cloud.lancom.de/cloud-service-devicetunnel");
   ("siem", "https://cloud.lancom.de/cloud-service-siem");
   ("logging", "https://cloud.lancom.de/cloud-service-logging")].

(** The properties of [Object.prototype]. *)
Definition inherited_names : list string :=
  ["constructor"; "__defineGetter__"; "__defineSetter__"; "hasOwnProperty";
   "__lookupGetter__"; "__lookupSetter__"; "isPrototypeOf";
   "propertyIsEnumerable"; "toString"; "valueOf"; "__proto__"; "toLocaleString"].

(** [SERVICES[name]]: an own property is a URL; an inherited one is a
    function (for [constructor] the function [Object]), or for
    [__proto__] the prototype object, all of them truthy. *)
Definition service_lookup (name : string) : value :=
  match get SERVICES name with
  | Some url => Str url
  | None =>
      if List.existsb (String.eqb name) inherited_names then
        Other true (if String.eqb name "__proto__" then "[object Object]"
                    else if String.eqb name "constructor"
                         then "function Object() { [native code] }"
                    else "function " ++ name ++ "() { [native code] }")
      else Undefined
  end.

(** The arguments of one call of [proxyRequest]. *)
Record proxy_call : Type := ProxyCall
  { target : string;          (* targetUrl *)
    http_method : string;     (* method.toUpperCase() *)
    api_key : value;          (* api_key, as the body gives it *)
    payload : value }.        (* reqBody ?? null *)

(** [reqBody ?? null] *)
Definition or_json_null (v : value) : value :=
  match v with Undefined => Other false "null" | _ => v end.

(** Where the server sends a request. *)
Inductive route : Type := Preflight | ApiProxy | SnmpQuery | StaticFile.

(** The tests at the head of the request listener, in their order. *)
Definition route_of (method pathname : string) : route :=
  if String.eqb method "OPTIONS" then Preflight
  else if String.eqb pathname "/api" && String.eqb method "POST" then ApiProxy
  else if String.eqb pathname "/snmp" && String.eqb method "POST" then SnmpQuery
  else StaticFile.

Section Server.

Variable w : world.
Variable localeCompare : string -> string -> comparison.

(** [s.toUpperCase()], a service of the runtime; it can leave the
    code units below 256. *)
Variable toUpperCase : string -> string.

(** [proxyRequest]: the promise of the upstream exchange, resolved
    with status and body or rejected with the message of the error.
    Building the request (URL parsing, the text of the key,
    [JSON.stringify], [https]) is not modelled; a failure there
    rejects the promise. *)
Variable proxyRequest : proxy_call -> promise (nat * string).

(** The static file branch: [fs] and [path] are not modelled. *)
Variable static_file : string -> reply.

Local Open Scope async_scope.

(** The listener of [end] in the [/snmp] branch.  The checks stand
    before the [try] block: what throws there rejects the promise of
    the listener, and nothing is answered. *)
Definition snmp_endpoint (input : parsed) : M reply :=
  match input with
  | InvalidJson => ret (bad_request "Invalid JSON")
  | JsonNull => throw "TypeError"
  | JsonValue props =>
      let community := with_default (props "community") "public" in
      let version := with_default (props "version") "2c" in
      let type := with_default (props "type") "mac-table" in
      match check host_re (props "host") with
      | Raises => throw "TypeError"
      | Fails => ret (bad_request ("Ung" ++ String ue "ltige Host-Adresse"))
      | Passes host =>
          match check community_re community with
          | Raises => throw "TypeError"
          | Fails => ret (bad_request ("Ung" ++ String ue "ltiger Community-String"))
          | Passes community =>
              match version with
              | Str version =>
                  (* ['1', '2c'].includes(version) compares with === *)
                  if negb (String.eqb version "1" || String.eqb version "2c")
                  then ret (bad_request "Version muss 1 oder 2c sein")
                  else
                    try_catch
                      (if is_text type "mac-table" then
                         result <- snmpMacTable w localeCompare host community version ;;
                         ret {| status := 200; body := Table result |}
                       else if is_text type "test" then
                         result <- snmpTest w host community version ;;
                         ret {| status := 200; body := Test result |}
                       else ret (bad_request "Unbekannter Typ"))
                      (fun message =>
                         ret {| status := 502; body := ErrorMessage message |})
              | _ => ret (bad_request "Version muss 1 oder 2c sein")
              end
          end
      end
  end.

(** The listener of [end] in the [/api] branch: the promise of the
    callback and the calls of [proxyRequest] it made.  The check and
    the building of [targetUrl] stand before the [try] block. *)
Definition api_endpoint (input : parsed) : promise reply * list proxy_call :=
  match input with
  | InvalidJson => (Fulfilled (bad_request "Invalid JSON"), [])
  | JsonNull => (Rejected "TypeError", [])
  | JsonValue props =>
      let key := props "api_key" in
      let service := props "service" in
      let apiPath := props "path" in
      let method := with_default (props "method") "GET" in
      let reqBody := props "body" in
      let missing := (Fulfilled (bad_request "Missing api_key, service or path"), []) in
      if negb (value_truthy key) || negb (value_truthy service)
         || negb (value_truthy apiPath)
      then missing
      else
        match value_text service with
        | None => (Rejected "TypeError", [])      (* SERVICES[service] throws *)
        | Some name =>
            if negb (value_truthy (service_lookup name)) then missing
            else
              match value_text (service_lookup name), value_text apiPath with
              | Some base, Some path =>
                  let targetUrl := base ++ path in
                  match method with
                  | Str m =>
                      let call := {| target := targetUrl;
                                     http_method := toUpperCase m;
                                     api_key := key;
                                     payload := or_json_null reqBody |} in
                      (match proxyRequest call with
                       | Fulfilled (code, text) =>
                           (* [res.writeHead] throws a RangeError for a
                              status outside 100..999, inside the [try]
                              block *)
                           if (100 <=? code)%nat && (code <=? 999)%nat
                           then Fulfilled {| status := code; body := Raw text |}
                           else Fulfilled
                                  {| status := 502;
                                     body := ErrorMessage
                                               ("Upstream error: Invalid status code: "
                                                ++ toString 10 (Int (Z.of_nat code))) |}
                       | Rejected message =>
                           Fulfilled {| status := 502;
                                        body := ErrorMessage
                                                  ("Upstream error: " ++ message) |}
                       | Pending => Pending
                       end, [call])
                  | _ =>
                      (* method.toUpperCase is no function: the
                         TypeError is caught, and thrown again by the
                         template literal of the catch block *)
                      (Rejected "TypeError", [])
                  end
              | _, _ =>
                  (* SERVICES[service] + apiPath throws *)
                  (Rejected "TypeError", [])
              end
        end
  end.

(** The request listener: preflight, the two endpoints, static files. *)
Definition server (method pathname : string) (input : parsed) : M reply :=
  match route_of method pathname with
  | Preflight => ret {| status := 204; body := NoContent |}
  | ApiProxy => fun log => (fst (api_endpoint input), log)
  | SnmpQuery => snmp_endpoint input
  | StaticFile => ret (static_file pathname)
  end.

End Server.

End Http.

(* ================================================================== *)
(** ** A numeric-aware comparison of texts *)
(* ================================================================== *)

Module Collation.
Import JsString.

(** Modelled from the spec: [localeCompare] with [numeric: true] is a
    service of the runtime, not code of this repository.  The spec asks
    of it that it is a string comparison sensitive to numeric value, so
    that "Port 2" sorts before "Port 10".  This comparison orders texts
    by code unit, except that a run of decimal digits counts as one
    item with its numeric value. *)
Definition item : Type := (N * N)%type.

Definition flush (run : option N) : list item :=
  match run with Some n => [(1%N, n)] | None => [] end.

Definition char_item (c : ascii) : item :=
  (if (code c <? 48)%N then 0%N else 2%N, code c).

Fixpoint items (run : option N) (s : string) : list item :=
  match s with
  | EmptyString => flush run
  | String c t =>
      if is_digit c
      then items (Some (10 * match run with Some n => n | None => 0 end
                        + (code c - 48))%N) t
      else (flush run ++ char_item c :: items None t)%list
  end.

Definition item_compare (a b : item) : comparison :=
  match (fst a ?= fst b)%N with
  | Eq => (snd a ?= snd b)%N
  | c => c
  end.

Fixpoint items_compare (a b : list item) : comparison :=
  match a, b with
  | [], [] => Eq
  | [], _ :: _ => Lt
  | _ :: _, [] => Gt
  | x :: a', y :: b' =>
      match item_compare x y with
      | Eq => items_compare a' b'
      | c => c
      end
  end.

Definition numericCompare (a b : string) : comparison :=
  items_compare (items None a) (items None b).

End Collation.

(* ================================================================== *)
(** ** Vocabulary of the statements *)
(* ================================================================== *)

Module SpecTerms.
Import JsString JsNumber Regex Walk Obj Snmp.

(** The decimal numeral of an integer, as an SNMP tool prints it. *)
Definition decimal (n : Z) : string := toString 10 (Int n).

(** Two lowercase hexadecimal digits for an octet. *)
Definition hex_pair (n : Z) : string :=
  String (digit_char (n / 16)) (String (digit_char (n mod 16)) EmptyString).

Definition is_octet (n : Z) : Prop := (0 <= n <= 255)%Z.

(** What [macFromDecOid] makes of one component. *)
Definition render_component (n : string) : string :=
  padStart0 2 (toString 16 (parseInt (Some 10%Z) n)).

(** The decoder turns the numeral of [n] into the hex pair of [n], and
    the numeral holds no dot. *)
Definition octet_ok (n : nat) : bool :=
  let z := Z.of_nat n in
  String.eqb (render_component (decimal z)) (hex_pair z)
  && negb (mem "." (decimal z)).

(** Colons and white space removed, the rest in lower case. *)
Definition strip (str : string) : string :=
  toLowerCase (JsString.filter (fun c => negb (colon_or_space c)) str).

(** A text cut into pieces of two characters. *)
Fixpoint pairs (h : string) : list string :=
  match h with
  | String a (String b t) => String a (String b EmptyString) :: pairs t
  | _ => []
  end.

Definition colon_pairs (h : string) : string := join ":" (pairs h).

(** The process is started and ends: [spawn] returns, and the trace
    of the process has a [close] or [error]. *)
Definition ends (o : spawned) : bool :=
  match o with
  | Process evs => negb (List.forallb keeps_running evs)
  | Throws _ => false
  end.

(** Every process is started and ends. *)
Definition responsive (w : world) : Prop :=
  forall n call, ends (w n call) = true.

(** [spawn] returns a process. *)
Definition starts (o : spawned) : bool :=
  match o with Process _ => true | Throws _ => false end.

(** [spawn] never throws. *)
Definition starting (w : world) : Prop :=
  forall n call, starts (w n call) = true.

(** The events of the process, none if there is no process. *)
Definition events_of (o : spawned) : list event :=
  match o with Process evs => evs | Throws _ => [] end.

(** The text a walk resolves to. *)
Definition text_of (evs : list event) : string :=
  match result (run evs) with Fulfilled s => s | _ => EmptyString end.

(** The text of the [i]-th walk started after [log], for OID [oid]. *)
Definition walk_text (w : world) (host community version : string)
           (log : list spawn_call) (i : nat) (oid : string) : string :=
  text_of (events_of (w (List.length log + i)
                        (walk_command host community version oid))).

(** The OID roots of the bridge resolution and of the WLAN fallback. *)
Definition bridge_oids : list string :=
  ["1.3.6.1.2.1.17.4.3.1.2"; "1.3.6.1.2.1.17.7.1.2.2.1.2";
   "1.3.6.1.2.1.17.1.4.1.2"; "1.3.6.1.2.1.31.1.1.1.1"; "1.3.6.1.2.1.4.22.1.2"].

Definition wlan_oids : list string :=
  ["1.3.6.1.4.1.2356.13.1.3.4.1.1"; "1.3.6.1.4.1.2356.13.1.3.32.1.3";
   "1.3.6.1.2.1.4.22.1.2"].

(** A comparison fit for sorting: swapping the arguments swaps the
    answer, and "not after" is transitive. *)
Definition consistent (cmp : string -> string -> comparison) : Prop :=
  (forall a b, cmp b a = CompOpp (cmp a b)) /\
  (forall a b c, cmp a b <> Gt -> cmp b c <> Gt -> cmp a c <> Gt).

(** [a] is not after [b] in the order of port names. *)
Definition port_le (cmp : string -> string -> comparison) (a b : entry) : Prop :=
  cmp (portName a) (portName b) <> Gt.

(** The MAC a line of the client-table walk decodes to, if the line
    matches the client-table pattern. *)
Definition client_line_mac (line : string) : option string :=
  match exec client_re line with
  | Some m => macFromDecOid (group 2 m)
  | None => None
  end.

(** The text found under a key, if it is not empty. *)
Definition resolved (table : obj string) (key : string) : option string :=
  match get table key with
  | Some s => if String.eqb s EmptyString then None else Some s
  | None => None
  end.

Definition band_suffix (band : option number) : string :=
  match band with
  | Some (Int 1) => " (2.4G)"
  | Some (Int 2) => " (5G)"
  | _ => EmptyString
  end.

(** The channel suffix: for a channel that is known and not zero. *)
Definition channel_suffix (channel : option number) : string :=
  match channel with
  | Some (Int ch) => if (ch =? 0)%Z then EmptyString else " CH" ++ decimal ch
  | _ => EmptyString
  end.

Definition wlan_port_name (ssid : option string) (band channel : option number) : string :=
  match ssid with Some s => "WLAN: " ++ s | None => "WLAN" end
  ++ band_suffix band ++ channel_suffix channel.

(** The entry the WLAN fallback is to synthesize for a client. *)
Definition wlan_entry_spec (macToSsid macToIp : obj string) (c : client) : entry :=
  {| mac := c_mac c;
     bridgePort := Int 0;
     portName := wlan_port_name (resolved macToSsid (c_mac c)) (band c) (channel c);
     ip := resolved macToIp (c_mac c) |}.

(** Keys without repetition, and every record filed under its MAC. *)
Definition well_keyed (clients : obj client) : Prop :=
  NoDup (keys clients) /\ forall k c, In (k, c) clients -> c_mac c = k.

(** The interface name the bridge resolution finds for a bridge port:
    the port maps to an ifIndex other than 0, and that ifIndex has a
    name that is not empty. *)
Definition looked_up_name (bpToIf : obj number) (ifNames : obj string)
           (bp : number) : option string :=
  match get bpToIf (toString 10 bp) with
  | Some (Int i) => if (i =? 0)%Z then None else resolved ifNames (decimal i)
  | _ => None
  end.

(** What a line of the Q-Bridge walk binds: a MAC to a port. *)
Definition qfdb_binding (line : string) : option (string * number) :=
  match exec qfdb_re line with
  | Some m =>
      match macFromDecOid (group 1 m) with
      | Some mac => Some (mac, parseInt None (group 2 m))
      | None => None
      end
  | None => None
  end.

(** The port of the first line, in text order, that binds [mac]. *)
Fixpoint first_port (mac : string) (lines : list string) : option number :=
  match lines with
  | [] => None
  | line :: rest =>
      match qfdb_binding line with
      | Some (m, p) => if String.eqb m mac then Some p else first_port mac rest
      | None => first_port mac rest
      end
  end.

(** What every [ClientTableResult] is to satisfy. *)
Definition well_formed_result (cmp : string -> string -> comparison)
           (r : table_result) : Prop :=
  count r = List.length (entries r) /\
  hasMacTable r = (0 <? List.length (entries r))%nat /\
  countWithIp r =
    List.length (List.filter (fun e => match ip e with Some _ => true | None => false end)
                             (entries r)) /\
  StronglySorted (port_le cmp) (entries r).

(** The processes a resolver starts for a list of OID roots. *)
Definition walks_of (host community version : string) (oids : list string)
  : list spawn_call :=
  List.map (walk_command host community version) oids.

(** Nothing, or one double quote. *)
Definition optional_quote (q : string) : Prop :=
  q = EmptyString \/ q = String dquote EmptyString.

(** [s0] begins with a STRING value that ends its line: the tag,
    white space, an optional quote, the value [v] (not empty, free of
    quotes and newlines), an optional quote, white space, and then
    [after], which is empty or begins with a line terminator. *)
Definition string_value_at (s0 v after : string) : Prop :=
  exists ws1 q1 q2 ws2,
    s0 = "STRING:" ++ ws1 ++ q1 ++ v ++ q2 ++ ws2 ++ after /\
    JsString.forallb is_space ws1 = true /\ optional_quote q1 /\
    v <> EmptyString /\ JsString.forallb not_quote_nl v = true /\
    optional_quote q2 /\ JsString.forallb is_space ws2 = true /\
    at_end true after = true.

(** The text has a line-final STRING value [v] somewhere. *)
Definition has_string_value (out v : string) : Prop :=
  exists before s0 after, out = before ++ s0 /\ string_value_at s0 v after.

(** The patterns of the table builders and of the connectivity test,
    each with the groups the code reads. *)
Definition patterns_read : list (regex * list nat) :=
  [(arp_re, [1; 2]); (ssid_re, [1; 2]); (client_re, [1; 2; 3]);
   (number_re, [1]); (fdb_re, [1; 2]); (qfdb_re, [1; 2]); (bp_re, [1; 2]);
   (ifname_re, [1; 2]); (sysdescr_re, [1])].

(** The timer fired among these events. *)
Definition timed_out (evs : list event) : bool :=
  List.existsb (fun ev => match ev with TimerFired => true | _ => false end) evs.

(** An asynchronous computation that never rejects. *)
Definition no_reject {A} (m : M A) : Prop :=
  forall log e, fst (m log) <> Rejected e.

(** The promise of the [i]-th walk started after [log], for OID [oid]. *)
Definition walk_promise (w : world) (host community version : string)
           (log : list spawn_call) (i : nat) (oid : string) : promise string :=
  match w (List.length log + i) (walk_command host community version oid) with
  | Throws reason => Rejected reason
  | Process evs => result (run evs)
  end.

(** Two uppercase hexadecimal digits for an octet, as the SNMP tools
    print the octets of a Hex-STRING. *)
Definition upper_digit_char (d : Z) : ascii :=
  if (d <? 10)%Z then ascii_of_N (Z.to_N d + 48) else ascii_of_N (Z.to_N d + 55).

Definition upper_hex_pair (n : Z) : string :=
  String (upper_digit_char (n / 16))
         (String (upper_digit_char (n mod 16)) EmptyString).

(** Stripping leaves the hex pair of [n], from either letter case. *)
Definition octet_strip_ok (n : nat) : bool :=
  let z := Z.of_nat n in
  String.eqb (strip (upper_hex_pair z)) (hex_pair z)
  && String.eqb (strip (hex_pair z)) (hex_pair z).

(** What one line of a walk binds in the table of its builder. *)
Definition arp_binding (line : string) : option (string * string) :=
  match exec arp_re line with
  | Some m =>
      if (List.length (split "." (group 1 m)) =? 4)%nat then
        match macFromHexStr (trim (group 2 m)) with
        | Some mac => Some (mac, group 1 m)
        | None => None
        end
      else None
  | None => None
  end.

Definition ssid_binding (line : string) : option (string * string) :=
  match exec ssid_re line with
  | Some m =>
      match macFromDecOid (group 1 m) with
      | Some mac => Some (mac, trim (group 2 m))
      | None => None
      end
  | None => None
  end.

Definition fdb_binding (line : string) : option (string * number) :=
  match exec fdb_re line with
  | Some m =>
      match macFromDecOid (group 1 m) with
      | Some mac => Some (mac, parseInt None (group 2 m))
      | None => None
      end
  | None => None
  end.

Definition bp_binding (line : string) : option (string * number) :=
  match exec bp_re line with
  | Some m => Some (group 1 m, parseInt None (group 2 m))
  | None => None
  end.

Definition ifname_binding (line : string) : option (string * string) :=
  match exec ifname_re line with
  | Some m => Some (group 1 m, trim (group 2 m))
  | None => None
  end.

(** The value that the last line, in text order, binds to [key]. *)
Fixpoint last_bound {V} (binding : string -> option (string * V))
         (key : string) (lines : list string) : option V :=
  match lines with
  | [] => None
  | line :: rest =>
      match last_bound binding key rest with
      | Some v => Some v
      | None =>
          match binding line with
          | Some (k, v) => if String.eqb k key then Some v else None
          | None => None
          end
      end
  end.

(** [0-9a-f] *)
Definition is_lower_hex (c : ascii) : bool := is_digit c || in_range 97 102 c.

(** Six pairs of lowercase hex digits joined by colons. *)
Definition canonical_mac (mac : string) : Prop :=
  exists h, mac = colon_pairs h /\ length h = 12 /\
            JsString.forallb is_lower_hex h = true.

(** Digits and dots, in four pieces between three dots. *)
Definition dotted_quad_shape (ip : string) : Prop :=
  ip <> EmptyString /\ JsString.forallb digit_or_dot ip = true /\
  List.length (split "." ip) = 4.

(** The entry the bridge resolution is to make of a MAC and its port. *)
Definition bridge_entry_spec (bpToIf : obj number) (ifNames macToIp : obj string)
           (kv : string * number) : entry :=
  {| mac := fst kv;
     bridgePort := snd kv;
     portName := match looked_up_name bpToIf ifNames (snd kv) with
                 | Some name => name
                 | None => "Port " ++ toString 10 (snd kv)
                 end;
     ip := resolved macToIp (fst kv) |}.

(** The number a line of the client-table walk gives for column [col]:
    the line is of that column and its value holds a run of digits. *)
Definition client_line_value (col : Z) (line : string) : option number :=
  match exec client_re line with
  | Some m =>
      if strict_eq (parseInt None (group 1 m)) (Int col) then
        match exec number_re (trim (group 3 m)) with
        | Some n => Some (parseInt None (group 1 n))
        | None => None
        end
      else None
  | None => None
  end.

(** What a line binds in column [col]: its MAC to that number. *)
Definition column_binding (col : Z) (line : string) : option (string * number) :=
  match client_line_mac line, client_line_value col line with
  | Some mac, Some v => Some (mac, v)
  | _, _ => None
  end.

(** The text of a value, empty for a value without text. *)
Definition text_or_empty (v : Http.value) : string :=
  match Http.value_text v with Some text => text | None => EmptyString end.

(** A truthy value that has no text: converting it throws. *)
Definition unreadable (v : Http.value) : bool :=
  Http.value_truthy v
  && match Http.value_text v with Some _ => false | None => true end.

(** A value the check of the [/snmp] endpoint lets pass: truthy, with
    a text that is not empty and holds allowed characters only. *)
Definition acceptable (allowed : ascii -> bool) (v : Http.value) : bool :=
  Http.value_truthy v
  && match Http.value_text v with
     | Some text => JsString.truthy text && JsString.forallb allowed text
     | None => false
     end.

(** Every OID root a walk is started for. *)
Definition walked_oids : list string :=
  (bridge_oids ++ wlan_oids ++ ["1.3.6.1.2.1.1.1.0"])%list.

(** A command line the [/snmp] endpoint may start. *)
Definition checked_command (call : spawn_call) : Prop :=
  exists host community version oid,
    call = walk_command host community version oid /\
    host <> EmptyString /\ JsString.forallb Http.host_char host = true /\
    community <> EmptyString /\
    JsString.forallb Http.community_char community = true /\
    (version = "1" \/ version = "2c") /\ In oid walked_oids.

(** The names [SERVICES[name]] finds: the ten services, and the
    properties that every object inherits. *)
Definition found_names : list string :=
  ["devices"; "monitoring"; "monitor-frontend"; "useragent"; "auth"; "config";
   "notification"; "devicetunnel"; "siem"; "logging";
   "constructor"; "__defineGetter__"; "__defineSetter__"; "hasOwnProperty";
   "__lookupGetter__"; "__lookupSetter__"; "isPrototypeOf";
   "propertyIsEnumerable"; "toString"; "valueOf"; "__proto__"; "toLocaleString"].

Definition service_found (name : string) : bool :=
  List.existsb (String.eqb name) found_names.

(** What the [/snmp] endpoint makes of the promise it awaits: status
    200 around a result, and 502 with the message of a rejection. *)
Definition answered {A} (wrap : A -> Http.content) (p : promise A) : promise Http.reply :=
  match p with
  | Fulfilled r => Fulfilled {| Http.status := 200; Http.body := wrap r |}
  | Rejected message =>
      Fulfilled {| Http.status := 502; Http.body := Http.ErrorMessage message |}
  | Pending => Pending
  end.

(** The request body passes the three checks of the [/snmp] endpoint. *)
Definition passes_checks (props : string -> Http.value) : bool :=
  acceptable Http.host_char (props "host")
  && acceptable Http.community_char (Http.with_default (props "community") "public")
  && (Http.is_text (Http.with_default (props "version") "2c") "1"
      || Http.is_text (Http.with_default (props "version") "2c") "2c").

(** A check of the [/snmp] endpoint throws: the host has no text, or
    the host passes and the community has no text. *)
Definition check_raises (props : string -> Http.value) : bool :=
  unreadable (props "host")
  || (acceptable Http.host_char (props "host")
      && unreadable (Http.with_default (props "community") "public")).

(** Key, service and path of an [/api] request are truthy. *)
Definition all_given (props : string -> Http.value) : bool :=
  Http.value_truthy (props "api_key") && Http.value_truthy (props "service")
  && Http.value_truthy (props "path").

(** The [/api] endpoint refuses the request: something is not given,
    or the text of the service is a name that [SERVICES] does not
    find. *)
Definition api_refused (props : string -> Http.value) : bool :=
  negb (all_given props)
  || match Http.value_text (props "service") with
     | Some name => negb (service_found name)
     | None => false
     end.

(** The [/api] endpoint throws before its [try] block, or in its
    [catch] block: all is given, and the service has no text, or it is
    found and the path has no text or the method is no string. *)
Definition api_raises (props : string -> Http.value) : bool :=
  all_given props
  && match Http.value_text (props "service") with
     | None => true
     | Some name =>
         service_found name
         && (unreadable (props "path")
             || match Http.with_default (props "method") "GET" with
                | Http.Str _ => false
                | _ => true
                end)
     end.

(** All that a computation adds to the log of processes satisfies [P]. *)
Definition only_adds {A} (P : spawn_call -> Prop) (m : M A) : Prop :=
  forall log call, In call (snd (m log)) -> In call log \/ P call.

(** A computation rejects only with an error that [spawn] threw. *)
Definition rejects_as_thrown {A} (w : world) (m : M A) : Prop :=
  forall log reason,
    fst (m log) = Rejected reason -> exists n call, w n call = Throws reason.

End SpecTerms.

(* ================================================================== *)
(** ** Sample devices *)
(* ================================================================== *)

Module Samples.
Import JsString JsNumber Walk Obj Snmp Collation.

(** A process that writes, is killed by the timer and then closes. *)
Definition killed_after_output : world :=
  fun _ _ => Process [StdoutData "partial"; TimerFired; ProcClose None].

(** A host text that holds a NUL character. *)
Definition host_with_nul : string := "10.0.0.1" ++ String "000"%char "".

(** A runtime that refuses, as Node does, to spawn a command line
    with a NUL character in an argument; Node appends the argument it
    received to the message. *)
Definition nul_refused : world :=
  fun _ call =>
    if List.existsb (JsString.mem "000"%char) (args call)
    then Throws "The argument 'args[9]' must be a string without null bytes"
    else Process [ProcClose (Some 0%Z)].

(** A process that writes and exits with code 1. *)
Definition failing_after_output : world :=
  fun _ _ => Process [StdoutData "partial"; ProcClose (Some 1%Z)].

(** The text of a walk, from its lines. *)
Definition text (lines : list string) : string :=
  join (String newline EmptyString) lines.

Definition quoted (s : string) : string :=
  String dquote s ++ String dquote EmptyString.

(** One WLAN client on channel 36 in the 5 GHz band, SSID Guest. *)
Definition guest_clients : string :=
  text [".1.3.6.1.4.1.2356.13.1.3.4.1.1.2.170.187.204.221.238.1 = INTEGER: 36";
        ".1.3.6.1.4.1.2356.13.1.3.4.1.1.3.170.187.204.221.238.1 = INTEGER: 2"; ""].

Definition guest_ssids : string :=
  text [".1.3.6.1.4.1.2356.13.1.3.32.1.3.170.187.204.221.238.1 = STRING: "
          ++ quoted "Guest"; ""].

Definition guest_arp : string :=
  text [".1.3.6.1.2.1.4.22.1.2.5.10.0.0.5 = Hex-STRING: AA BB CC DD EE 01 "; ""].

(** A client whose channel column reads 0. *)
Definition channel_zero_clients : string :=
  text [".1.3.6.1.4.1.2356.13.1.3.4.1.1.2.170.187.204.221.238.1 = INTEGER: 0"; ""].

(** The classic Bridge-MIB walk of the example of the spec. *)
Definition two_ports_fdb : string :=
  text [".1.3.6.1.2.1.17.4.3.1.2.170.187.204.221.238.1 = INTEGER: 10";
        ".1.3.6.1.2.1.17.4.3.1.2.170.187.204.221.238.2 = INTEGER: 2"; ""].

(** One MAC under VLAN 10 (port 3) and VLAN 20 (port 7). *)
Definition two_vlans_qfdb : string :=
  text [".1.3.6.1.2.1.17.7.1.2.2.1.2.10.170.187.204.221.238.1 = INTEGER: 3";
        ".1.3.6.1.2.1.17.7.1.2.2.1.2.20.170.187.204.221.238.1 = INTEGER: 7"; ""].

(** The same MAC, learned under VLAN 10 with port 0 and under VLAN 20
    with port 7. *)
Definition zero_port_qfdb : string :=
  text [".1.3.6.1.2.1.17.7.1.2.2.1.2.10.170.187.204.221.238.1 = INTEGER: 0";
        ".1.3.6.1.2.1.17.7.1.2.2.1.2.20.170.187.204.221.238.1 = INTEGER: 7"; ""].

Definition two_ports_bp : string :=
  text [".1.3.6.1.2.1.17.1.4.1.2.2 = INTEGER: 102";
        ".1.3.6.1.2.1.17.1.4.1.2.10 = INTEGER: 110"; ""].

Definition two_ports_ifnames : string :=
  text [".1.3.6.1.2.1.31.1.1.1.1.102 = STRING: Port 2";
        ".1.3.6.1.2.1.31.1.1.1.1.110 = STRING: " ++ quoted "Port 10"; ""].

(** The entry of the second MAC of [two_ports_fdb]. *)
Definition second_mac_entry : entry :=
  {| mac := "aa:bb:cc:dd:ee:02"; bridgePort := Int 2;
     portName := "Port 2"; ip := None |}.

(** A device whose agent answers a walk of an OID root with the text
    listed for it and with nothing for other roots; the tool exits
    with code 0. *)
Definition device (answers : obj string) : world :=
  fun _ call =>
    Process [StdoutData (or_empty (get answers (last (args call) EmptyString)));
             ProcClose (Some 0%Z)].

(** A switch with the classic Bridge MIB. *)
Definition switch : world :=
  device [("1.3.6.1.2.1.17.4.3.1.2", two_ports_fdb);
          ("1.3.6.1.2.1.17.1.4.1.2", two_ports_bp);
          ("1.3.6.1.2.1.31.1.1.1.1", two_ports_ifnames)].

(** An access point: no bridge tables, one WLAN client. *)
Definition access_point : world :=
  device [("1.3.6.1.4.1.2356.13.1.3.4.1.1", guest_clients);
          ("1.3.6.1.4.1.2356.13.1.3.32.1.3", guest_ssids);
          ("1.3.6.1.2.1.4.22.1.2", guest_arp)].

(** A device that answers no walk. *)
Definition silent : world := device [].

(** Answers of the agent to the walk of sysDescr. *)
Definition sysdescr_quoted : string :=
  ".1.3.6.1.2.1.1.1.0 = STRING: " ++ quoted "Device XYZ".

Definition sysdescr_unquoted : string :=
  ".1.3.6.1.2.1.1.1.0 = STRING: LANCOM".

Definition timeout_message : string :=
  text ["  Timeout: No Response from 192.0.2.9"; ""].

(** An SSID walk whose value is one blank between quotes. *)
Definition blank_ssid : string :=
  text [".1.3.6.1.4.1.2356.13.1.3.32.1.3.170.187.204.221.238.1 = STRING: "
          ++ quoted " "; ""].

(** A process that ends before the timer fires. *)
Definition timer_after_close : list event :=
  [StdoutData "a"; ProcClose (Some 0%Z); TimerFired].

(** A device on which the third walk of a request never ends: the
    process ignores the signal that [proc.kill()] sends. *)
Definition third_walk_hangs : world :=
  fun n _ => Process (if Nat.eqb n 2 then [TimerFired] else [ProcClose (Some 0%Z)]).

(** Two ARP lines for one hardware address, and one line whose
    address has five components. *)
Definition moved_host_arp : string :=
  text [".1.3.6.1.2.1.4.22.1.2.5.10.0.0.5 = Hex-STRING: AA BB CC DD EE 01 ";
        ".1.3.6.1.2.1.4.22.1.2.7.10.0.0.9 = Hex-STRING: AA BB CC DD EE 01 ";
        ".1.3.6.1.2.1.4.22.1.2.7.10.0.0.9.1 = Hex-STRING: AA BB CC DD EE 02 "; ""].

(** The entry of the first MAC of [two_ports_fdb] with [moved_host_arp]. *)
Definition moved_host_entry : entry :=
  {| mac := "aa:bb:cc:dd:ee:01"; bridgePort := Int 10;
     portName := "Port 10"; ip := Some "10.0.0.9" |}.

(** A client seen on channel 1 and then on channel 11, with a line of
    a column that is neither channel nor band. *)
Definition roaming_clients : string :=
  text [".1.3.6.1.4.1.2356.13.1.3.4.1.1.2.170.187.204.221.238.1 = INTEGER: 1";
        ".1.3.6.1.4.1.2356.13.1.3.4.1.1.7.170.187.204.221.238.1 = INTEGER: 99";
        ".1.3.6.1.4.1.2356.13.1.3.4.1.1.2.170.187.204.221.238.1 = INTEGER: 11"; ""].

Definition roaming_client : client :=
  {| c_mac := "aa:bb:cc:dd:ee:01"; channel := Some (Int 11); band := None |}.

(** Request bodies of the [/snmp] endpoint. *)
Definition only_host (host : string) : Http.parsed :=
  Http.JsonValue (fun name => if String.eqb name "host" then Http.Str host
                              else Http.Undefined).

Definition snmp_request (host community version type : Http.value) : Http.parsed :=
  Http.JsonValue (fun name =>
                    if String.eqb name "host" then host
                    else if String.eqb name "community" then community
                    else if String.eqb name "version" then version
                    else if String.eqb name "type" then type
                    else Http.Undefined).

(** A request body of the [/api] endpoint. *)
Definition api_request (key service path method : Http.value) : Http.parsed :=
  Http.JsonValue (fun name =>
                    if String.eqb name "api_key" then key
                    else if String.eqb name "service" then service
                    else if String.eqb name "path" then path
                    else if String.eqb name "method" then method
                    else Http.Undefined).

(** Upper-casing of the letters a to z. *)
Definition ascii_upper (s : string) : string :=
  JsString.map (fun c => if in_range 97 122 c then ascii_of_N (code c - 32) else c) s.

(** An upstream that answers 404 to every request. *)
Definition upstream_404 (call : Http.proxy_call) : promise (nat * string) :=
  Fulfilled (404, "not found").

(** Static file serving that finds nothing. *)
Definition no_files (pathname : string) : Http.reply :=
  {| Http.status := 404; Http.body := Http.Raw "Not found" |}.

End Samples.

(* ================================================================== *)
(** * Properties *)
(* ================================================================== *)

(** ** Texts: splitting and joining *)

Module StringFacts.
Import JsString.

Lemma append_assoc (a b c : string) : (a ++ b) ++ c = a ++ (b ++ c).
Proof. induction a as [|x a IH]; simpl; [reflexivity | now rewrite IH]. Qed.

Lemma append_empty_r (a : string) : a ++ "" = a.
Proof. induction a as [|x a IH]; simpl; [reflexivity | now rewrite IH]. Qed.

Lemma length_append (a b : string) : length (a ++ b) = length a + length b.
Proof. induction a as [|x a IH]; simpl; [reflexivity | now rewrite IH]. Qed.

Lemma rev_append_twice (a : string) : forall b c,
  rev_append (rev_append a b) c = rev_append b (a ++ c).
Proof.
  induction a as [|x a IH]; intros b c; simpl; [reflexivity|].
  now rewrite IH.
Qed.

Lemma rev_append_app (u : string) : forall v w,
  rev_append u v ++ w = rev_append u (v ++ w).
Proof. induction u as [|y u IH]; intros v w; simpl; [reflexivity | apply IH]. Qed.

Lemma rev_rev_append (a cur : string) : rev (rev_append a cur) = rev cur ++ a.
Proof.
  unfold rev. now rewrite rev_append_twice, append_empty_r, rev_append_app.
Qed.

Lemma rev_involutive (a : string) : rev (rev a) = a.
Proof. unfold rev at 2. now rewrite rev_rev_append. Qed.

Lemma length_rev_append (a : string) : forall b,
  length (rev_append a b) = length a + length b.
Proof.
  induction a as [|x a IH]; intros b; simpl; [reflexivity|].
  rewrite IH. simpl. lia.
Qed.

Lemma mem_append c (a b : string) : mem c (a ++ b) = mem c a || mem c b.
Proof.
  induction a as [|x a IH]; simpl; [reflexivity|].
  now rewrite IH, orb_assoc.
Qed.

(** A piece without the separator, followed by a separator, is the
    next element of the split. *)
Lemma split_acc_piece sep (a : string) : forall cur t,
  mem sep a = false ->
  split_acc sep cur (a ++ String sep t) =
  (rev cur ++ a) :: split_acc sep EmptyString t.
Proof.
  induction a as [|x a IH]; intros cur t H; simpl in *.
  - rewrite Ascii.eqb_refl. now rewrite append_empty_r.
  - apply orb_false_elim in H as [Hx Ha].
    rewrite Ascii.eqb_sym, Hx. rewrite IH by exact Ha.
    f_equal. change (String x cur) with (rev_append (String x EmptyString) cur).
    rewrite rev_rev_append. now rewrite append_assoc.
Qed.

Lemma split_acc_last sep (a : string) : forall cur,
  mem sep a = false ->
  split_acc sep cur a = [rev cur ++ a].
Proof.
  induction a as [|x a IH]; intros cur H; simpl in *.
  - now rewrite append_empty_r.
  - apply orb_false_elim in H as [Hx Ha].
    rewrite Ascii.eqb_sym, Hx. rewrite IH by exact Ha.
    f_equal. change (String x cur) with (rev_append (String x EmptyString) cur).
    rewrite rev_rev_append. now rewrite append_assoc.
Qed.

(** Splitting undoes joining when no piece holds the separator. *)
Lemma split_join sep (parts : list string) :
  parts <> [] ->
  Forall (fun p => mem sep p = false) parts ->
  split sep (join (String sep EmptyString) parts) = parts.
Proof.
  intros Hne Hall. unfold split.
  induction parts as [|p rest IH]; [congruence|].
  inversion Hall as [|? ? Hp Hrest]; subst.
  destruct rest as [|q rest'].
  - simpl. now rewrite split_acc_last.
  - change (join (String sep "") (p :: q :: rest'))
      with (p ++ String sep (join (String sep "") (q :: rest'))).
    rewrite split_acc_piece by exact Hp. simpl (rev "" ++ p).
    f_equal. apply IH; [congruence | exact Hrest].
Qed.

Lemma split_nonempty sep s : split sep s <> [].
Proof.
  unfold split. generalize EmptyString as cur.
  induction s as [|c t IH]; intros cur; simpl; [congruence|].
  destruct (Ascii.eqb c sep); [congruence | apply IH].
Qed.

Lemma join_mem_sep sep (p q : string) (rest : list string) :
  mem sep (join (String sep EmptyString) (p :: q :: rest)) = true.
Proof.
  change (join (String sep "") (p :: q :: rest))
    with (p ++ String sep (join (String sep "") (q :: rest))).
  rewrite mem_append. simpl. rewrite Ascii.eqb_refl. apply orb_true_r.
Qed.

Lemma truthy_mem c s : mem c s = true -> truthy s = true.
Proof. destruct s; simpl; [discriminate | reflexivity]. Qed.

End StringFacts.

(** ** The walk executor *)

Module WalkFacts.
Import Walk SpecTerms Samples StringFacts.

Lemma handle_no_reject st ev :
  (forall e, result st <> Rejected e) ->
  forall e, result (handle st ev) <> Rejected e.
Proof.
  intros H e. specialize (H e).
  destruct ev; simpl; try exact H.
  - destruct (timer st); simpl; exact H.
  - destruct (result st); simpl; [discriminate | discriminate | exact H].
  - destruct (result st); simpl; [discriminate | discriminate | exact H].
Qed.

Lemma run_from_no_reject evs : forall st,
  (forall e, result st <> Rejected e) ->
  forall e, result (run_from st evs) <> Rejected e.
Proof.
  induction evs as [|ev evs IH]; intros st H e; simpl.
  - apply H.
  - apply IH. now apply handle_no_reject.
Qed.

Lemma settled_stays evs : forall st v,
  result st = Fulfilled v -> result (run_from st evs) = Fulfilled v.
Proof.
  induction evs as [|ev evs IH]; intros st v H; simpl; [exact H|].
  apply IH. destruct ev; simpl; try exact H.
  - destruct (timer st); simpl; exact H.
  - now rewrite H.
  - now rewrite H.
Qed.

Lemma running_prefix pre : forall st,
  forallb keeps_running pre = true ->
  result (run_from st pre) = result st /\
  out (run_from st pre) = out st ++ stdout_of pre.
Proof.
  induction pre as [|ev pre IH]; intros st H; simpl in *.
  - now rewrite append_empty_r.
  - apply andb_prop in H as [Hev Hpre].
    destruct (IH (handle st ev) Hpre) as [R O]. rewrite R, O.
    destruct ev; simpl in *; try discriminate.
    + split; [reflexivity | apply append_assoc].
    + destruct (timer st); simpl; now split.
Qed.

Lemma first_end_event pre ev post :
  forallb keeps_running pre = true ->
  keeps_running ev = false ->
  result (run (pre ++ ev :: post)) =
  Fulfilled (match ev with ProcError => "" | _ => stdout_of pre end).
Proof.
  intros Hpre Hev. unfold run, run_from. rewrite fold_left_app. simpl.
  apply settled_stays.
  destruct (running_prefix pre start Hpre) as [R O].
  unfold run_from in R, O.
  destruct ev; simpl in *; try discriminate; rewrite R; simpl.
  - now rewrite O.
  - reflexivity.
Qed.

Lemma running_prefix_kills pre : forall st,
  forallb keeps_running pre = true ->
  timer st = true -> kills st = 0 ->
  timer (run_from st pre) = negb (timed_out pre) /\
  kills (run_from st pre) = if timed_out pre then 1 else 0.
Proof.
  assert (Fired : forall evs st, timer st = false ->
                    timer (run_from st evs) = false /\
                    kills (run_from st evs) = kills st).
  { induction evs as [|ev evs IH]; intros st T; simpl; [now split|].
    destruct (IH (handle st ev)) as [T' K'].
    - destruct ev; simpl; trivial. now rewrite T.
    - rewrite T', K'. split; [reflexivity|].
      destruct ev; simpl; trivial. now rewrite T. }
  induction pre as [|ev pre IH]; intros st H T K; simpl in *; [now split|].
  apply andb_prop in H as [Hev Hpre].
  destruct ev; simpl in *; try discriminate.
  - apply IH; trivial.
  - rewrite T.
    destruct (Fired pre {| out := out st; timer := false;
                           kills := S (kills st); result := result st |} eq_refl)
      as [T' K'].
    rewrite T', K'. simpl. now rewrite K.
Qed.

(** The process is killed at most once, and when the timer fires
    before the process has ended. *)
Lemma kill_on_timeout pre ev post :
  forallb keeps_running pre = true -> keeps_running ev = false ->
  kills (run (pre ++ ev :: post)) = if timed_out pre then 1 else 0.
Proof.
  intros Hpre Hev. unfold run, run_from. rewrite fold_left_app. simpl.
  destruct (running_prefix_kills pre start Hpre eq_refl eq_refl) as [_ K].
  unfold run_from in K.
  assert (Off : forall evs st, timer st = false ->
                  kills (fold_left handle evs st) = kills st).
  { induction evs as [|e evs IH]; intros st T; simpl; [reflexivity|].
    rewrite IH; destruct e; simpl; trivial; now rewrite T. }
  rewrite Off; destruct ev; simpl in *; try discriminate; trivial.
Qed.

(** C1, as amended.  The promise of [runSnmpWalk] rejects exactly
    when its executor throws at [spawn] (as it does for an argument
    that holds a NUL character, or for an argument list that is too
    long), with the error thrown, and then no process runs.  Once
    [spawn] has returned a process, the promise is settled by the first
    [close] or [error] event of the process: an [error] (the process
    could not be started) gives the empty text, a [close] gives the
    standard output collected until then, whatever the exit code and
    whether or not the 12000 ms timer had fired and killed the process
    before; without such an event the promise stays pending. *)
Theorem runSnmpWalk_resolution (w : world) (host community version oid : string)
    (log : list spawn_call) (pre post : list event) :
  forallb keeps_running pre = true ->
  let call := walk_command host community version oid in
  let spawn := w (List.length log) call in
  let answer := runSnmpWalk w host community version oid log in
  (forall reason, fst answer = Rejected reason <-> spawn = Throws reason) /\
  (forall reason, spawn = Throws reason -> snd answer = log) /\
  (forall evs, spawn = Process evs -> snd answer = (log ++ [call])%list) /\
  (spawn = Process (pre ++ ProcError :: post)%list -> fst answer = Fulfilled "") /\
  (forall code, spawn = Process (pre ++ ProcClose code :: post)%list ->
                fst answer = Fulfilled (stdout_of pre)) /\
  (spawn = Process pre -> fst answer = Pending).
Proof.
  intros Hpre call spawn answer. subst call spawn answer. unfold runSnmpWalk.
  destruct (w (List.length log) (walk_command host community version oid))
    as [thrown|evs] eqn:E; simpl.
  - repeat split; try discriminate; congruence.
  - split; [|split; [|split; [|split; [|split]]]].
    + intros reason. split; [|discriminate].
      intros H. exfalso. revert H. apply run_from_no_reject. intros e. discriminate.
    + discriminate.
    + reflexivity.
    + intros [= ->]. now rewrite (first_end_event pre ProcError post).
    + intros code [= ->]. now rewrite (first_end_event pre (ProcClose code) post).
    + intros [= ->]. unfold run. now destruct (running_prefix pre start Hpre) as [-> _].
Qed.

Lemma runSnmpWalk_resolution_witness :
  fst (runSnmpWalk killed_after_output "10.0.0.1" "public" "2c"
                   "1.3.6.1.2.1.1.1.0" []) = Fulfilled "partial".
Proof.
  destruct (runSnmpWalk_resolution killed_after_output "10.0.0.1" "public" "2c"
              "1.3.6.1.2.1.1.1.0" [] [StdoutData "partial"; TimerFired] []
              eq_refl) as (_ & _ & _ & _ & H & _).
  exact (H None eq_refl).
Defined.

(** C1, as stated, fails: after a non-zero exit and after a timeout the
    walk resolves to the output collected so far, not to the empty
    text; and for a host that holds a NUL character [spawn] throws, so
    that the promise rejects and the caller gets the error. *)
Lemma runSnmpWalk_output_survives_failure :
  fst (runSnmpWalk failing_after_output "10.0.0.1" "public" "2c"
                   "1.3.6.1.2.1.1.1.0" []) <> Fulfilled "" /\
  fst (runSnmpWalk killed_after_output "10.0.0.1" "public" "2c"
                   "1.3.6.1.2.1.1.1.0" []) <> Fulfilled "" /\
  exists reason,
    runSnmpWalk nul_refused host_with_nul "public" "2c" "1.3.6.1.2.1.1.1.0" [] =
    (Rejected reason, []).
Proof.
  split; [|split]; [vm_compute; discriminate | vm_compute; discriminate |].
  eexists. vm_compute. reflexivity.
Qed.

End WalkFacts.

(** ** The MAC decoders *)

Module DecoderFacts.
Import JsString JsNumber Regex Obj Snmp SpecTerms StringFacts.

Lemma octets_ok : List.forallb octet_ok (seq 0 256) = true.
Proof. vm_compute. reflexivity. Qed.

Lemma octet_rendering (z : Z) :
  is_octet z ->
  render_component (decimal z) = hex_pair z /\ mem "." (decimal z) = false.
Proof.
  intros [Hlo Hhi].
  assert (Hin : In (Z.to_nat z) (seq 0 256)) by (apply in_seq; lia).
  pose proof (proj1 (forallb_forall octet_ok (seq 0 256)) octets_ok _ Hin) as H.
  unfold octet_ok in H. rewrite Z2Nat.id in H by exact Hlo.
  apply andb_prop in H as [H1 H2].
  split; [now apply String.eqb_eq | now apply negb_true_iff].
Qed.

Lemma macFromDecOid_some suffix m :
  macFromDecOid suffix = Some m ->
  List.length (split "." suffix) = 6 /\
  m = join ":" (List.map render_component (split "." suffix)).
Proof.
  unfold macFromDecOid.
  destruct (List.length (split "." suffix) =? 6)%nat eqn:E; simpl; [|discriminate].
  intros [= <-]. apply Nat.eqb_eq in E. now split.
Qed.

(** A decoded MAC holds a colon: it is no array index and not empty. *)
Lemma macFromDecOid_colon suffix m :
  macFromDecOid suffix = Some m -> mem ":" m = true.
Proof.
  intros H. apply macFromDecOid_some in H as [L ->].
  destruct (split "." suffix) as [|p [|q rest]]; simpl in L; try discriminate.
  apply join_mem_sep.
Qed.

Lemma macFromDecOid_truthy suffix :
  mac_truthy (macFromDecOid suffix) = macFromDecOid suffix.
Proof.
  destruct (macFromDecOid suffix) as [m|] eqn:E; simpl; [|reflexivity].
  now rewrite (truthy_mem ":" m (macFromDecOid_colon _ _ E)).
Qed.




End DecoderFacts.

(** ** The matcher on the two character-level patterns *)

Module RegexFacts.
Import JsString Regex Snmp SpecTerms StringFacts.

Lemma substring_prefix (u : string) : forall t, substring 0 (length u) (u ++ t) = u.
Proof.
  induction u as [|x u IH]; intros t; simpl.
  - now destruct t.
  - now rewrite IH.
Qed.

Lemma consumed_app (u t : string) : consumed (u ++ t) t = u.
Proof.
  unfold consumed. rewrite length_append.
  replace (length u + length t - length t) with (length u) by lia.
  apply substring_prefix.
Qed.

Section OneClass.
Variable p : ascii -> bool.

(** The first character of class [p], if there is one. *)
Lemma exec_from_cls (s : string) : forall i,
  (exec_from (Cls p) i s = None /\
   JsString.filter (fun c => negb (p c)) s = s) \/
  (exists pre d t,
      s = pre ++ String d t /\
      JsString.filter (fun c => negb (p c)) pre = pre /\
      p d = true /\
      exec_from (Cls p) i s =
      Some (MatchResult (i + length pre) (String d EmptyString) [] t)).
Proof.
  induction s as [|d t IH]; intros i.
  - left. now split.
  - simpl. destruct (p d) eqn:Hd.
    + right. exists EmptyString, d, t. simpl. repeat split; trivial.
      rewrite Nat.add_0_r.
      change (String d t) with (String d EmptyString ++ t).
      now rewrite consumed_app.
    + destruct (IH (S i)) as [[E F] | (pre & d' & t' & -> & F & Hd' & E)].
      * left. simpl. now rewrite E, F.
      * right. exists (String d pre), d', t'. simpl. rewrite Hd, F. simpl.
        repeat split; trivial. rewrite E. do 2 f_equal. lia.
Qed.

Lemma filter_append f (a b : string) :
  JsString.filter f (a ++ b) = JsString.filter f a ++ JsString.filter f b.
Proof.
  induction a as [|x a IH]; simpl; [reflexivity|].
  destruct (f x); simpl; now rewrite IH.
Qed.

(** [s.replace(/[p]/g, '')] keeps the characters outside the class. *)
Lemma replace_all_cls_fuel (fuel : nat) : forall s,
  length s < fuel ->
  replace_all_fuel fuel (Cls p) "" s = JsString.filter (fun c => negb (p c)) s.
Proof.
  induction fuel as [|f IH]; intros s Hlen; [lia|].
  simpl. unfold exec.
  destruct (exec_from_cls s 0) as [[E F] | (pre & d & t & -> & F & Hd & E)];
    rewrite E.
  - now rewrite F.
  - cbn [index whole rest]. simpl (0 + length pre).
    rewrite substring_prefix. simpl.
    rewrite filter_append, F. simpl. rewrite Hd. simpl.
    f_equal. apply IH. rewrite length_append in Hlen. simpl in Hlen. lia.
Qed.

Lemma replace_all_cls (s : string) :
  replace_all (Cls p) "" s = JsString.filter (fun c => negb (p c)) s.
Proof. unfold replace_all. apply replace_all_cls_fuel. lia. Qed.

(** [h.match(/[p]{2}/g)] on a text of characters of the class cuts it
    into pairs. *)
Lemma match_all_pairs_fuel (fuel : nat) : forall h,
  length h < fuel ->
  JsString.forallb p h = true ->
  match_all_fuel fuel (Seq (Cls p) (Cls p)) h = pairs h.
Proof.
  induction fuel as [|f IH]; intros h Hlen Hall; [lia|].
  destruct h as [|a [|b t]].
  - reflexivity.
  - simpl in *. unfold exec. simpl. now rewrite andb_true_r in Hall; rewrite Hall.
  - simpl in Hall. apply andb_prop in Hall as [Ha Hall].
    apply andb_prop in Hall as [Hb Hall].
    cbn [match_all_fuel]. unfold exec. cbn [exec_from rmatch]. rewrite Ha, Hb.
    change (String a (String b t)) with (String a (String b EmptyString) ++ t).
    rewrite consumed_app. cbn [whole rest pairs append].
    f_equal. apply IH; [simpl in Hlen; lia | exact Hall].
Qed.

End OneClass.

Lemma length_toLowerCase s : length (toLowerCase s) = length s.
Proof.
  unfold toLowerCase.
  induction s as [|c s IH]; simpl; [reflexivity | now rewrite IH].
Qed.

Lemma lower_not_terminator c :
  colon_or_space c = false -> any_char (lower c) = true.
Proof.
  destruct c as [b0 b1 b2 b3 b4 b5 b6 b7].
  destruct b0, b1, b2, b3, b4, b5, b6, b7; vm_compute; congruence.
Qed.

Lemma strip_any_char str : JsString.forallb any_char (strip str) = true.
Proof.
  unfold strip, toLowerCase.
  induction str as [|c s IH]; simpl; [reflexivity|].
  destruct (colon_or_space c) eqn:E; simpl; [exact IH|].
  now rewrite lower_not_terminator, IH.
Qed.

End RegexFacts.

(** ** [macFromHexStr] *)

Module HexFacts.
Import JsString Regex Snmp SpecTerms StringFacts RegexFacts.

Lemma macFromHexStr_unfold str :
  macFromHexStr str =
  if negb (length (strip str) =? 12)%nat then None
  else Some (colon_pairs (strip str)).
Proof.
  unfold macFromHexStr. rewrite replace_all_cls. fold (strip str).
  destruct (length (strip str) =? 12)%nat eqn:E; simpl; [|reflexivity].
  unfold match_all.
  rewrite match_all_pairs_fuel; [| lia | apply strip_any_char].
  apply Nat.eqb_eq in E.
  destruct (strip str) as [|a [|b t]]; simpl in E; try discriminate.
  reflexivity.
Qed.

(** With twelve characters there are pairs to join: the null of
    [hex.match] does not arise. *)
Lemma hex_pairs_found str :
  length (strip str) = 12 ->
  match_all (Seq (Cls any_char) (Cls any_char)) (strip str) = Some (pairs (strip str)).
Proof.
  intros E. unfold match_all.
  rewrite match_all_pairs_fuel; [| lia | apply strip_any_char].
  destruct (strip str) as [|a [|b t]]; simpl in E; try discriminate.
  reflexivity.
Qed.

(** C5, as amended.  [macFromHexStr] strips colons and white space and
    lower-cases the rest; it returns null exactly when 12 characters do
    not remain, hex digits or not, and otherwise those characters in
    pairs joined by colons.  So texts that agree up to colons, white
    space and letter case give the same result, and twelve hex digits
    give the canonical lowercase MAC. *)
Theorem macFromHexStr_spec :
  (forall str, macFromHexStr str = None <-> length (strip str) <> 12) /\
  (forall str, length (strip str) = 12 ->
               macFromHexStr str = Some (colon_pairs (strip str))) /\
  (forall str str', strip str = strip str' ->
                    macFromHexStr str = macFromHexStr str').
Proof.
  repeat split.
  - rewrite macFromHexStr_unfold.
    destruct (length (strip str) =? 12)%nat eqn:E; simpl; [discriminate|].
    intros _. now apply Nat.eqb_neq.
  - intros H. rewrite macFromHexStr_unfold.
    apply Nat.eqb_neq in H. now rewrite H.
  - intros str H. rewrite macFromHexStr_unfold, H. reflexivity.
  - intros str str' H. now rewrite !macFromHexStr_unfold, H.
Qed.

Lemma macFromHexStr_spec_witness :
  macFromHexStr "AA BB CC DD EE 01" = Some "aa:bb:cc:dd:ee:01" /\
  macFromHexStr "aa:bb:cc:dd:ee:01" = macFromHexStr "AABB ccdd EE01".
Proof.
  split.
  - apply (proj1 (proj2 macFromHexStr_spec) "AA BB CC DD EE 01"). reflexivity.
  - apply (proj2 (proj2 macFromHexStr_spec)). reflexivity.
Defined.

(** C5, as stated, fails: twelve characters that are no hex digits are
    paired up as well. *)
Lemma macFromHexStr_accepts_non_hex :
  macFromHexStr "zzzzzzzzzzzz" = Some "zz:zz:zz:zz:zz:zz".
Proof. vm_compute. reflexivity. Qed.

End HexFacts.

(** ** Objects *)

Module ObjFacts.
Import Obj.

Section Values.
Context {V : Type}.
Implicit Types (o : obj V) (k : string) (v : V).

Lemma get_set_same o k v : get (set o k v) k = Some v.
Proof.
  induction o as [|[k' v'] o IH]; simpl.
  - now rewrite String.eqb_refl.
  - destruct (String.eqb k k') eqn:E; simpl; rewrite E; [reflexivity | exact IH].
Qed.

Lemma get_set_other o k k' v : k <> k' -> get (set o k v) k' = get o k'.
Proof.
  intros N. induction o as [|[k0 v0] o IH]; simpl.
  - apply not_eq_sym in N. now rewrite (proj2 (String.eqb_neq _ _) N).
  - destruct (String.eqb k k0) eqn:E; simpl.
    + apply String.eqb_eq in E. subst k0.
      apply not_eq_sym in N. now rewrite (proj2 (String.eqb_neq _ _) N).
    + now rewrite IH.
Qed.

Lemma get_in_keys o k v : get o k = Some v -> In k (keys o).
Proof.
  induction o as [|[k' v'] o IH]; simpl; [discriminate|].
  destruct (String.eqb k k') eqn:E.
  - apply String.eqb_eq in E. now left.
  - intros H. right. now apply IH.
Qed.

Lemma get_none_keys o k : get o k = None <-> ~ In k (keys o).
Proof.
  induction o as [|[k' v'] o IH]; simpl.
  - split; [now intros _ [] | reflexivity].
  - destruct (String.eqb k k') eqn:E.
    + apply String.eqb_eq in E. split; [discriminate | intros N; exfalso; apply N; now left].
    + apply String.eqb_neq in E. rewrite IH. split.
      * intros N [H|H]; [congruence | now apply N].
      * intros N H. apply N. now right.
Qed.

Lemma get_in o k v : get o k = Some v -> In (k, v) o.
Proof.
  induction o as [|[k' v'] o IH]; simpl; [discriminate|].
  destruct (String.eqb k k') eqn:E.
  - apply String.eqb_eq in E. intros [= ->]. left. now subst.
  - intros H. right. now apply IH.
Qed.

Lemma in_get o k v : NoDup (keys o) -> In (k, v) o -> get o k = Some v.
Proof.
  induction o as [|[k' v'] o IH]; simpl; intros ND H; [contradiction|].
  inversion ND as [|? ? Hn ND']; subst.
  destruct H as [[= -> ->] | H].
  - now rewrite String.eqb_refl.
  - destruct (String.eqb k k') eqn:E.
    + apply String.eqb_eq in E. subst k'. exfalso. apply Hn.
      change k with (fst (k, v)). now apply in_map.
    + now apply IH.
Qed.

(** Writing a property that is there keeps the keys as they are. *)
Lemma keys_set_present o k v : In k (keys o) -> keys (set o k v) = keys o.
Proof.
  induction o as [|[k' v'] o IH]; simpl; [contradiction|].
  destruct (String.eqb k k') eqn:E; simpl; [reflexivity|].
  intros [H|H]; [apply String.eqb_neq in E; congruence | now rewrite IH].
Qed.

(** Writing a new property appends it. *)
Lemma set_absent o k v : ~ In k (keys o) -> set o k v = (o ++ [(k, v)])%list.
Proof.
  induction o as [|[k' v'] o IH]; simpl; intros N; [reflexivity|].
  destruct (String.eqb k k') eqn:E.
  - apply String.eqb_eq in E. exfalso. apply N. now left.
  - rewrite IH; [reflexivity | intros H; apply N; now right].
Qed.

Lemma keys_set o k v k' : In k' (keys (set o k v)) <-> k' = k \/ In k' (keys o).
Proof.
  destruct (in_dec string_dec k (keys o)) as [Hin | Hout].
  - rewrite keys_set_present by exact Hin. split; [now right | intros [->|H]; assumption].
  - rewrite set_absent by exact Hout. unfold keys. rewrite map_app, in_app_iff. simpl.
    split; [intros [H|[H|[]]]; auto | intros [H|H]; auto].
Qed.

Lemma keys_set_nodup o k v : NoDup (keys o) -> NoDup (keys (set o k v)).
Proof.
  intros ND. destruct (in_dec string_dec k (keys o)) as [Hin | Hout].
  - now rewrite keys_set_present.
  - rewrite set_absent by exact Hout. unfold keys. rewrite map_app. simpl.
    apply NoDup_app; [exact ND | |].
    + repeat constructor. now intros [].
    + intros a Ha [<-|[]]. contradiction.
Qed.

End Values.

End ObjFacts.

(** ** Sorting by port name *)

Module SortFacts.
Import Snmp SpecTerms.

Section Sorting.
Variable cmp : string -> string -> comparison.

Lemma sort_insert_perm e l : Permutation (sort_insert cmp e l) (e :: l).
Proof.
  induction l as [|h t IH]; simpl; [reflexivity|].
  destruct (cmp (portName e) (portName h)); try reflexivity.
  rewrite IH. apply perm_swap.
Qed.

Lemma sort_perm l : Permutation (sort_by_portName cmp l) l.
Proof.
  induction l as [|e l IH]; simpl; [reflexivity|].
  rewrite sort_insert_perm. now constructor.
Qed.

Lemma sort_in l e : In e (sort_by_portName cmp l) <-> In e l.
Proof.
  split; apply Permutation_in; [apply sort_perm | symmetry; apply sort_perm].
Qed.

Lemma sort_length l : List.length (sort_by_portName cmp l) = List.length l.
Proof. apply Permutation_length, sort_perm. Qed.

Hypothesis cmp_ok : consistent cmp.

Lemma sort_insert_sorted e l :
  StronglySorted (port_le cmp) l ->
  StronglySorted (port_le cmp) (sort_insert cmp e l).
Proof.
  destruct cmp_ok as [Hopp Htrans].
  induction l as [|h t IH]; intros S; simpl.
  - repeat constructor.
  - inversion S as [|? ? St Hh]; subst.
    destruct (cmp (portName e) (portName h)) eqn:E.
    + constructor; [exact S|]. constructor; [unfold port_le; congruence|].
      eapply Forall_impl; [|exact Hh]. intros a Ha. unfold port_le in *.
      apply (Htrans _ (portName h)); congruence.
    + constructor; [exact S|]. constructor; [unfold port_le; congruence|].
      eapply Forall_impl; [|exact Hh]. intros a Ha. unfold port_le in *.
      apply (Htrans _ (portName h)); congruence.
    + constructor; [now apply IH|].
      apply (Permutation_Forall (Permutation_sym (sort_insert_perm e t))).
      constructor; [|exact Hh].
      unfold port_le. rewrite Hopp, E. discriminate.
Qed.

Lemma sort_sorted l : StronglySorted (port_le cmp) (sort_by_portName cmp l).
Proof.
  induction l as [|e l IH]; simpl; [constructor | now apply sort_insert_sorted].
Qed.

End Sorting.

End SortFacts.

(** ** The WLAN client table *)

Module ClientFacts.
Import JsString JsNumber Regex Obj Snmp SpecTerms StringFacts DecoderFacts ObjFacts SortFacts.

Lemma in_set_cases {V} (o : obj V) k v k' v' :
  In (k', v') (set o k v) -> (k' = k /\ v' = v) \/ In (k', v') o.
Proof.
  induction o as [|[k0 v0] o IH]; simpl.
  - intros [[= <- <-]|[]]. now left.
  - destruct (String.eqb k k0) eqn:E; simpl.
    + apply String.eqb_eq in E. subst k0.
      intros [[= <- <-]|H]; [now left | right; now right].
    + intros [H|H]; [right; now left|].
      destruct (IH H) as [L|R]; [now left | right; now right].
Qed.

Lemma well_keyed_set clients k c :
  well_keyed clients -> c_mac c = k -> well_keyed (set clients k c).
Proof.
  intros [ND Hk] Hc. split; [now apply keys_set_nodup|].
  intros k' c' H. destruct (in_set_cases _ _ _ _ _ H) as [[-> ->]|H']; auto.
Qed.

(** One line of the client table adds at most the MAC it decodes to. *)
Lemma client_line_effect clients line :
  well_keyed clients ->
  well_keyed (client_line clients line) /\
  forall k, In k (keys (client_line clients line)) <->
            In k (keys clients) \/ client_line_mac line = Some k.
Proof.
  intros WK. unfold client_line, client_line_mac.
  destruct (exec client_re line) as [m|]; [|split; [exact WK | intros k; split; [auto | now intros [H|H]]]].
  rewrite macFromDecOid_truthy.
  destruct (macFromDecOid (group 2 m)) as [mac|];
    [|split; [exact WK | intros k; split; [auto | now intros [H|H]]]].
  set (fresh := {| c_mac := mac; channel := None; band := None |}).
  set (clients1 := match get clients mac with
                   | Some _ => clients
                   | None => set clients mac fresh
                   end).
  assert (WK1 : well_keyed clients1).
  { subst clients1. destruct (get clients mac); [exact WK|].
    now apply well_keyed_set. }
  assert (K1 : forall k, In k (keys clients1) <-> In k (keys clients) \/ Some mac = Some k).
  { intros k. subst clients1. destruct (get clients mac) as [c|] eqn:G.
    - split; [auto|]. intros [H|[= <-]]; [exact H | now apply get_in_keys in G].
    - rewrite keys_set. split; intros [H|H]; auto; [subst; auto | injection H; auto]. }
  destruct (exec number_re (trim (group 3 m))) as [n|]; [|split; [exact WK1 | exact K1]].
  destruct (get clients1 mac) as [c|] eqn:G; [|split; [exact WK1 | exact K1]].
  assert (Hc : c_mac c = mac) by (apply (proj2 WK1), get_in, G).
  split.
  - apply well_keyed_set; [exact WK1|].
    destruct (strict_eq (parseInt None (group 1 m)) (Int 2)),
             (strict_eq (parseInt None (group 1 m)) (Int 3)); simpl; exact Hc.
  - intros k. rewrite keys_set_present by (now apply get_in_keys in G). apply K1.
Qed.

Lemma client_lines_effect lines : forall clients,
  well_keyed clients ->
  well_keyed (fold_left client_line lines clients) /\
  forall k, In k (keys (fold_left client_line lines clients)) <->
            In k (keys clients) \/
            exists line, In line lines /\ client_line_mac line = Some k.
Proof.
  induction lines as [|line lines IH]; intros clients WK; simpl.
  - split; [exact WK|]. intros k. split; [auto | intros [H|(l & [] & _)]; exact H].
  - destruct (client_line_effect clients line WK) as [WK1 K1].
    destruct (IH _ WK1) as [WK2 K2]. split; [exact WK2|].
    intros k. rewrite K2, K1. split.
    + intros [[H|H]|(l & Hl & H)]; auto; right; eauto.
    + intros [H|(l & [<-|Hl] & H)]; auto. right. eauto.
Qed.

Lemma build_clients_keys clientOut :
  well_keyed (build_clients clientOut) /\
  forall k, In k (keys (build_clients clientOut)) <->
            exists line, In line (split newline clientOut) /\
                         client_line_mac line = Some k.
Proof.
  unfold build_clients, for_each_line.
  destruct (client_lines_effect (split newline clientOut) []) as [WK K].
  { split; [constructor | intros k c []]. }
  split; [exact WK|]. intros k. rewrite K. simpl. tauto.
Qed.

(** The enumerated keys are no array indices: they hold a colon. *)
Lemma build_clients_keys_colon clientOut k :
  In k (keys (build_clients clientOut)) -> mem ":" k = true.
Proof.
  intros H. apply (proj2 (build_clients_keys clientOut)) in H as (line & _ & H).
  unfold client_line_mac in H. destruct (exec client_re line); [|discriminate].
  now apply macFromDecOid_colon in H.
Qed.

Lemma client_macs_are_keys (clients : obj client) :
  well_keyed clients -> List.map c_mac (values clients) = keys clients.
Proof.
  intros [_ Hk]. unfold values, keys. rewrite map_map.
  apply map_ext_in. intros [k c] H. simpl. now apply Hk.
Qed.

Lemma truthy_nonempty s : JsString.truthy s = negb (String.eqb s "").
Proof. now destruct s. Qed.

Lemma or_null_resolved (table : obj string) key :
  or_null (get table key) = resolved table key.
Proof.
  unfold or_null, resolved. destruct (get table key) as [s|]; [|reflexivity].
  rewrite truthy_nonempty. now destruct (String.eqb s "").
Qed.

Lemma band_suffix_code p b :
  (if JsNumber.truthy b
   then p ++ (if strict_eq b (Int 1) then " (2.4G)"
              else if strict_eq b (Int 2) then " (5G)" else "")
   else p) = p ++ band_suffix (Some b).
Proof.
  destruct b as [|z]; simpl; [now rewrite append_empty_r|].
  destruct z as [|[[q|q|]|[q|q|]|]|q]; simpl; now rewrite ?append_empty_r.
Qed.

Lemma channel_suffix_code p ch :
  (if JsNumber.truthy ch then p ++ " CH" ++ toString 10 ch else p) =
  p ++ channel_suffix (Some ch).
Proof.
  destruct ch as [|z]; simpl; [now rewrite append_empty_r|].
  destruct (z =? 0)%Z; simpl; now rewrite ?append_empty_r.
Qed.

Lemma wlan_entry_meets_spec macToSsid macToIp c :
  wlan_entry macToSsid macToIp c = wlan_entry_spec macToSsid macToIp c.
Proof.
  unfold wlan_entry, wlan_entry_spec. rewrite or_null_resolved. f_equal.
  unfold wlan_port_name.
  set (p0 := if JsString.truthy (or_empty (get macToSsid (c_mac c)))
             then "WLAN: " ++ or_empty (get macToSsid (c_mac c)) else "WLAN").
  assert (E0 : p0 = match resolved macToSsid (c_mac c) with
                    | Some s => "WLAN: " ++ s
                    | None => "WLAN"
                    end).
  { subst p0. unfold resolved, or_empty.
    destruct (get macToSsid (c_mac c)) as [s|]; [|reflexivity].
    now destruct s. }
  rewrite <- E0. clearbody p0.
  destruct (band c) as [b|], (channel c) as [ch|];
    rewrite ?band_suffix_code, ?channel_suffix_code; simpl;
    now rewrite ?append_assoc, ?append_empty_r.
Qed.

(** C9.  In the WLAN fallback there is an entry for a MAC exactly when
    a line of the client-table walk matches the client-table pattern
    and decodes to that MAC.  The MACs of the entries are the keys of
    the client table, each once, whatever the SSID and ARP walks
    returned: those only decorate. *)
Theorem wlan_entries_from_client_table
    (cmp : string -> string -> comparison) (clientOut ssidOut arpOut : string) :
  (forall m,
      (exists e, In e (wlan_entries cmp clientOut ssidOut arpOut) /\ mac e = m) <->
      (exists line, In line (split newline clientOut) /\
                    client_line_mac line = Some m)) /\
  Permutation (List.map mac (wlan_entries cmp clientOut ssidOut arpOut))
              (keys (build_clients clientOut)) /\
  NoDup (List.map mac (wlan_entries cmp clientOut ssidOut arpOut)).
Proof.
  destruct (build_clients_keys clientOut) as [WK K].
  assert (P : Permutation (List.map mac (wlan_entries cmp clientOut ssidOut arpOut))
                          (keys (build_clients clientOut))).
  { unfold wlan_entries. rewrite (sort_perm cmp). rewrite map_map.
    rewrite <- (client_macs_are_keys _ WK). apply Permutation_refl. }
  repeat split.
  - intros (e & He & <-). apply K.
    apply (Permutation_in _ P). now apply in_map.
  - intros H. apply K in H.
    apply (Permutation_in _ (Permutation_sym P)) in H.
    apply in_map_iff in H as (e & <- & He). eauto.
  - exact P.
  - apply (Permutation_NoDup (Permutation_sym P)), WK.
Qed.

Lemma wlan_entries_from_client_table_witness :
  exists e, In e (wlan_entries Collation.numericCompare
                    Samples.guest_clients "" Samples.guest_arp) /\
            mac e = "aa:bb:cc:dd:ee:01".
Proof.
  apply (proj1 (wlan_entries_from_client_table Collation.numericCompare
                  Samples.guest_clients "" Samples.guest_arp)).
  exists ".1.3.6.1.4.1.2356.13.1.3.4.1.1.3.170.187.204.221.238.1 = INTEGER: 2".
  split; [vm_compute; tauto | vm_compute; reflexivity].
Defined.

(** C7, as amended.  The result of the WLAN fallback has source
    "wlan-clients", and its entries are, up to their order, one per
    client of the client table: bridgePort 0, ip the ARP-resolved
    address or null, and portName "WLAN: " + ssid if an SSID resolved
    for the MAC and "WLAN" otherwise, followed by " (2.4G)" for band 1
    and " (5G)" for band 2, followed by " CH" + channel if the channel
    is known and not zero. *)
Theorem wlan_result_entries
    (cmp : string -> string -> comparison) (clientOut ssidOut arpOut : string) :
  source (wlan_result cmp clientOut ssidOut arpOut) = "wlan-clients" /\
  Permutation
    (entries (wlan_result cmp clientOut ssidOut arpOut))
    (List.map (wlan_entry_spec (build_macToSsid ssidOut) (build_macToIp arpOut))
              (values (build_clients clientOut))).
Proof.
  split; [reflexivity|].
  unfold wlan_result, make_result, wlan_entries. simpl.
  rewrite (sort_perm cmp).
  erewrite map_ext; [apply Permutation_refl|].
  intros c. apply wlan_entry_meets_spec.
Qed.

(** C7, as stated, fails for a channel that is known to be 0: no
    channel suffix is appended.  And an SSID that resolved to the empty
    text counts as none. *)
Lemma wlan_channel_zero_unnamed :
  List.map channel (values (build_clients Samples.channel_zero_clients)) =
    [Some (Int 0)] /\
  List.map portName
    (entries (wlan_result Collation.numericCompare
                          Samples.channel_zero_clients "" "")) = ["WLAN"] /\
  build_macToSsid Samples.blank_ssid = [("aa:bb:cc:dd:ee:01", "")] /\
  List.map portName
    (entries (wlan_result Collation.numericCompare
                          Samples.guest_clients Samples.blank_ssid "")) =
    ["WLAN (5G) CH36"].
Proof. repeat split; vm_compute; reflexivity. Qed.

End ClientFacts.

(** ** The bridge forwarding table and the join *)

Module BridgeFacts.
Import JsString JsNumber Regex Obj Snmp SpecTerms StringFacts DecoderFacts ObjFacts
       SortFacts ClientFacts.

Lemma bridge_entry_portName bpToIf ifNames macToIp kv :
  portName (bridge_entry bpToIf ifNames macToIp kv) =
  match looked_up_name bpToIf ifNames (snd kv) with
  | Some name => name
  | None => port_label (snd kv)
  end.
Proof.
  destruct kv as [m bp]. unfold bridge_entry, looked_up_name.
  cbn [portName snd].
  destruct (get bpToIf (toString 10 bp)) as [[|i]|]; try reflexivity.
  unfold JsNumber.truthy.
  destruct (i =? 0)%Z; [reflexivity|]. cbn [negb].
  unfold resolved, decimal.
  destruct (get ifNames (toString 10 (Int i))) as [name|]; [|reflexivity].
  now destruct name.
Qed.

Lemma bridge_entries_in cmp fdbOut qfdbOut bpOut ifNameOut arpOut e :
  In e (bridge_entries cmp fdbOut qfdbOut bpOut ifNameOut arpOut) ->
  exists kv, In kv (build_macToBp fdbOut qfdbOut) /\
             e = bridge_entry (build_bpToIf bpOut) (build_ifNames ifNameOut)
                              (build_macToIp arpOut) kv.
Proof.
  unfold bridge_entries. rewrite sort_in, in_map_iff.
  intros (kv & <- & H). eauto.
Qed.

(** C10.  In bridge resolution the portName of an entry is the
    looked-up interface name when the bridge port maps to an ifIndex
    other than 0 and that ifIndex has a non-empty name; when the
    bridge port maps to no ifIndex, maps to ifIndex 0, or the ifIndex
    has no name or an empty one, it is "Port " + bridgePort. *)
Theorem bridge_port_name
    (cmp : string -> string -> comparison)
    (fdbOut qfdbOut bpOut ifNameOut arpOut : string) (e : entry) :
  In e (bridge_entries cmp fdbOut qfdbOut bpOut ifNameOut arpOut) ->
  let ifIdx := get (build_bpToIf bpOut) (toString 10 (bridgePort e)) in
  let name_of i := get (build_ifNames ifNameOut) (decimal i) in
  let synthesized := "Port " ++ toString 10 (bridgePort e) in
  (forall i name, ifIdx = Some (Int i) -> i <> 0%Z ->
                  name_of i = Some name -> name <> "" -> portName e = name) /\
  (ifIdx = None -> portName e = synthesized) /\
  (ifIdx = Some (Int 0) -> portName e = synthesized) /\
  (forall i, ifIdx = Some (Int i) -> name_of i = None -> portName e = synthesized) /\
  (forall i, ifIdx = Some (Int i) -> name_of i = Some "" -> portName e = synthesized).
Proof.
  intros He. apply bridge_entries_in in He as (kv & _ & ->).
  rewrite bridge_entry_portName.
  assert (B : bridgePort (bridge_entry (build_bpToIf bpOut) (build_ifNames ifNameOut)
                                       (build_macToIp arpOut) kv) = snd kv)
    by now destruct kv.
  rewrite B. cbv zeta. unfold looked_up_name, resolved, port_label.
  repeat split.
  - intros i name -> Hi Hn Hne. apply Z.eqb_neq in Hi. rewrite Hi, Hn.
    apply String.eqb_neq in Hne. now rewrite Hne.
  - now intros ->.
  - now intros ->.
  - intros i -> Hn. rewrite Hn. now destruct (i =? 0)%Z.
  - intros i -> Hn. rewrite Hn. now destruct (i =? 0)%Z.
Qed.

Lemma bridge_port_name_witness :
  In Samples.second_mac_entry
     (bridge_entries Collation.numericCompare Samples.two_ports_fdb ""
                     Samples.two_ports_bp Samples.two_ports_ifnames "") /\
  portName Samples.second_mac_entry = "Port 2".
Proof.
  assert (He : In Samples.second_mac_entry
                  (bridge_entries Collation.numericCompare Samples.two_ports_fdb ""
                     Samples.two_ports_bp Samples.two_ports_ifnames ""))
    by (vm_compute; tauto).
  split; [exact He|].
  refine (proj1 (bridge_port_name Collation.numericCompare Samples.two_ports_fdb ""
                   Samples.two_ports_bp Samples.two_ports_ifnames ""
                   Samples.second_mac_entry He) 102%Z "Port 2" _ _ _ _);
    vm_compute; (reflexivity || discriminate).
Defined.

Lemma qfdb_line_binding macToBp line :
  qfdb_line macToBp line =
  match qfdb_binding line with
  | Some (m, p) => if falsy_port (get macToBp m) then set macToBp m p else macToBp
  | None => macToBp
  end.
Proof.
  unfold qfdb_line, qfdb_binding.
  destruct (exec qfdb_re line) as [m|]; [|reflexivity].
  rewrite macFromDecOid_truthy.
  now destruct (macFromDecOid (group 1 m)).
Qed.

(** A port other than 0 that is recorded for a MAC stays. *)
Lemma qfdb_port_sticks lines : forall macToBp m p,
  get macToBp m = Some p -> JsNumber.truthy p = true ->
  get (fold_left qfdb_line lines macToBp) m = Some p.
Proof.
  induction lines as [|line lines IH]; intros macToBp m p G T; simpl; [exact G|].
  apply IH; [|exact T]. rewrite qfdb_line_binding.
  destruct (qfdb_binding line) as [[m' p']|]; [|exact G].
  destruct (string_dec m' m) as [->|N].
  - rewrite G. simpl. now rewrite T.
  - destruct (falsy_port (get macToBp m')); [|exact G].
    now rewrite get_set_other.
Qed.

Lemma fdb_line_keys_colon macToBp line :
  (forall k, In k (keys macToBp) -> mem ":" k = true) ->
  forall k, In k (keys (fdb_line macToBp line)) -> mem ":" k = true.
Proof.
  intros Inv k. unfold fdb_line.
  destruct (exec fdb_re line) as [m|]; [|apply Inv].
  rewrite macFromDecOid_truthy.
  destruct (macFromDecOid (group 1 m)) as [mac|] eqn:E; [|apply Inv].
  rewrite keys_set. intros [->|H]; [now apply macFromDecOid_colon in E | now apply Inv].
Qed.

Lemma qfdb_line_keys_colon macToBp line :
  (forall k, In k (keys macToBp) -> mem ":" k = true) ->
  forall k, In k (keys (qfdb_line macToBp line)) -> mem ":" k = true.
Proof.
  intros Inv k. unfold qfdb_line.
  destruct (exec qfdb_re line) as [m|]; [|apply Inv].
  rewrite macFromDecOid_truthy.
  destruct (macFromDecOid (group 1 m)) as [mac|] eqn:E; [|apply Inv].
  destruct (falsy_port (get macToBp mac)); [|apply Inv].
  rewrite keys_set. intros [->|H]; [now apply macFromDecOid_colon in E | now apply Inv].
Qed.

Lemma fold_keys_colon (body : obj number -> string -> obj number) lines :
  (forall acc line,
      (forall k, In k (keys acc) -> mem ":" k = true) ->
      forall k, In k (keys (body acc line)) -> mem ":" k = true) ->
  forall acc,
    (forall k, In k (keys acc) -> mem ":" k = true) ->
    forall k, In k (keys (fold_left body lines acc)) -> mem ":" k = true.
Proof.
  intros Step. induction lines as [|line lines IH]; intros acc Inv; simpl.
  - exact Inv.
  - apply IH. now apply Step.
Qed.

(** The keys [Object.entries(macToBp)] enumerates are no array
    indices: they hold a colon. *)
Lemma build_macToBp_keys_colon fdbOut qfdbOut k :
  In k (keys (build_macToBp fdbOut qfdbOut)) -> mem ":" k = true.
Proof.
  unfold build_macToBp, for_each_line.
  assert (C : forall k0, In k0 (keys (fold_left fdb_line (split newline fdbOut) [])) ->
                         mem ":" k0 = true).
  { apply fold_keys_colon; [apply fdb_line_keys_colon | now intros k0 []]. }
  destruct (List.length (keys (fold_left fdb_line (split newline fdbOut) [])) =? 0)%nat;
    [|apply C].
  revert k. apply fold_keys_colon; [apply qfdb_line_keys_colon | exact C].
Qed.

(** The part of C3 that holds: in the Q-Bridge walk, the port of the
    first line that binds a MAC is the one kept, provided it is not 0. *)
Lemma qfdb_first_nonzero_port_wins lines : forall macToBp m p,
  get macToBp m = None ->
  first_port m lines = Some p -> JsNumber.truthy p = true ->
  get (fold_left qfdb_line lines macToBp) m = Some p.
Proof.
  induction lines as [|line lines IH]; intros macToBp m p G F T; simpl in *;
    [discriminate|].
  rewrite qfdb_line_binding.
  destruct (qfdb_binding line) as [[m' p']|]; [|now apply IH].
  destruct (String.eqb m' m) eqn:E.
  - apply String.eqb_eq in E. subst m'. injection F as ->.
    rewrite G. simpl. apply qfdb_port_sticks; [apply get_set_same | exact T].
  - apply String.eqb_neq in E. apply IH; [|exact F | exact T].
    destruct (falsy_port (get macToBp m')); [|exact G].
    now rewrite get_set_other.
Qed.

(** The Q-Bridge walk is read exactly when the classic walk gave no
    entry, and then it alone makes the table. *)
Lemma build_macToBp_fallback fdbOut qfdbOut :
  let classic := for_each_line fdbOut fdb_line [] in
  (classic <> [] -> build_macToBp fdbOut qfdbOut = classic) /\
  (classic = [] ->
   build_macToBp fdbOut qfdbOut = for_each_line qfdbOut qfdb_line []).
Proof.
  unfold build_macToBp. cbv zeta.
  destruct (for_each_line fdbOut fdb_line []) as [|kv rest]; simpl.
  - split; [congruence | reflexivity].
  - split; [reflexivity | discriminate].
Qed.

(** C3 at the failing input: the classic walk is empty; the Q-Bridge
    walk has one MAC under VLAN 10 with port 0 and under VLAN 20 with
    port 7.  The first line in text order binds port 0, yet the port
    kept is 7, that of the later line. *)
Lemma qbridge_zero_port_overwritten :
  first_port "aa:bb:cc:dd:ee:01" (split newline Samples.zero_port_qfdb) =
    Some (Int 0) /\
  build_macToBp "" Samples.zero_port_qfdb = [("aa:bb:cc:dd:ee:01", Int 7)].
Proof. split; vm_compute; reflexivity. Qed.

(** The example of the spec: VLAN 10 with port 3, VLAN 20 with port 7. *)
Example qbridge_two_vlans :
  build_macToBp "" Samples.two_vlans_qfdb = [("aa:bb:cc:dd:ee:01", Int 3)].
Proof. vm_compute. reflexivity. Qed.

End BridgeFacts.

(** ** The numeric-aware comparison is fit for sorting *)

Module CollationFacts.
Import Collation SpecTerms.

Lemma item_compare_eq x y : item_compare x y = Eq -> x = y.
Proof.
  destruct x as [a b], y as [c d]. unfold item_compare. simpl.
  destruct (N.compare_spec a c) as [Hac|Hac|Hac]; try discriminate.
  intros Hbd. apply N.compare_eq in Hbd. congruence.
Qed.

Lemma item_compare_refl x : item_compare x x = Eq.
Proof. unfold item_compare. now rewrite !N.compare_refl. Qed.

Lemma item_compare_opp x y : item_compare y x = CompOpp (item_compare x y).
Proof.
  destruct x as [a b], y as [c d]. unfold item_compare. simpl.
  rewrite (N.compare_antisym a c).
  destruct (a ?= c)%N; simpl; trivial. apply N.compare_antisym.
Qed.

Lemma item_compare_lt_trans x y z :
  item_compare x y = Lt -> item_compare y z = Lt -> item_compare x z = Lt.
Proof.
  destruct x as [a b], y as [c d], z as [e f]. unfold item_compare. simpl.
  destruct (N.compare_spec a c) as [Hac|Hac|Hac],
           (N.compare_spec c e) as [Hce|Hce|Hce]; try discriminate;
    intros H1 H2; subst.
  - rewrite N.compare_refl. rewrite N.compare_lt_iff in *. lia.
  - now rewrite (proj2 (N.compare_lt_iff _ _) Hce).
  - now rewrite (proj2 (N.compare_lt_iff _ _) Hac).
  - assert (L : (a < e)%N) by lia. now rewrite (proj2 (N.compare_lt_iff _ _) L).
Qed.

Lemma items_compare_opp a : forall b,
  items_compare b a = CompOpp (items_compare a b).
Proof.
  induction a as [|x a IH]; intros [|y b]; simpl; trivial.
  rewrite item_compare_opp. destruct (item_compare x y); simpl; trivial.
Qed.

Lemma items_compare_trans a : forall b c,
  items_compare a b <> Gt -> items_compare b c <> Gt -> items_compare a c <> Gt.
Proof.
  induction a as [|x a IH]; intros [|y b] [|z c]; simpl; try congruence.
  destruct (item_compare x y) eqn:Exy; try congruence.
  - apply item_compare_eq in Exy. subst y.
    destruct (item_compare x z); try congruence. apply IH.
  - intros _. destruct (item_compare y z) eqn:Eyz; try congruence.
    + apply item_compare_eq in Eyz. subst z. rewrite Exy. congruence.
    + rewrite (item_compare_lt_trans _ _ _ Exy Eyz). congruence.
Qed.

Lemma numericCompare_consistent : consistent numericCompare.
Proof.
  split; unfold numericCompare.
  - intros a b. apply items_compare_opp.
  - intros a b c. apply items_compare_trans.
Qed.

(** A run of digits counts with its value. *)
Example port_2_before_port_10 : numericCompare "Port 2" "Port 10" = Lt.
Proof. reflexivity. Qed.

End CollationFacts.

(** ** The resolvers *)

Module ResolverFacts.
Import JsString JsNumber Regex Walk Obj Snmp SpecTerms StringFacts WalkFacts
       ObjFacts SortFacts ClientFacts BridgeFacts CollationFacts.

Lemma first_failure {A} (f : A -> bool) (l : list A) :
  List.forallb f l = false ->
  exists pre x post, l = (pre ++ x :: post)%list /\
                     List.forallb f pre = true /\ f x = false.
Proof.
  induction l as [|a l IH]; simpl; [discriminate|].
  destruct (f a) eqn:E; simpl.
  - intros H. destruct (IH H) as (pre & x & post & -> & Hp & Hx).
    exists (a :: pre), x, post. simpl. now rewrite E.
  - intros _. now exists [], a, l.
Qed.

Lemma ended_settles evs :
  List.forallb keeps_running evs = false ->
  result (run evs) = Fulfilled (text_of evs).
Proof.
  intros H. destruct (first_failure _ _ H) as (pre & x & post & -> & Hp & Hx).
  unfold text_of. now rewrite (first_end_event pre x post Hp Hx).
Qed.

Section Responsive.
Variable w : world.
Variable cmp : string -> string -> comparison.
Hypothesis alive : responsive w.
Variables host community version : string.

Lemma walk_run oid log :
  runSnmpWalk w host community version oid log =
  (Fulfilled (walk_text w host community version log 0 oid),
   (log ++ [walk_command host community version oid])%list).
Proof.
  unfold runSnmpWalk, walk_text. rewrite Nat.add_0_r.
  specialize (alive (List.length log) (walk_command host community version oid)).
  destruct (w (List.length log) (walk_command host community version oid))
    as [reason|evs]; simpl in *; [discriminate|].
  apply negb_true_iff in alive. now rewrite ended_settles.
Qed.

Lemma walk_text_shift log calls i oid :
  walk_text w host community version (log ++ calls) i oid =
  walk_text w host community version log (List.length calls + i) oid.
Proof. unfold walk_text. rewrite length_app. now rewrite Nat.add_assoc. Qed.

Lemma wlan_run log :
  snmpLancomWlanClients w cmp host community version log =
  (Fulfilled
     (wlan_result cmp
        (walk_text w host community version log 0 "1.3.6.1.4.1.2356.13.1.3.4.1.1")
        (walk_text w host community version log 1 "1.3.6.1.4.1.2356.13.1.3.32.1.3")
        (walk_text w host community version log 2 "1.3.6.1.2.1.4.22.1.2")),
   (log ++ walks_of host community version wlan_oids)%list).
Proof.
  unfold snmpLancomWlanClients, bind, both, ret.
  rewrite !walk_run. rewrite !walk_text_shift. simpl.
  now rewrite <- !app_assoc.
Qed.

Lemma bridge_run log :
  snmpMacTable w cmp host community version log =
  let found :=
    bridge_entries cmp
      (walk_text w host community version log 0 "1.3.6.1.2.1.17.4.3.1.2")
      (walk_text w host community version log 1 "1.3.6.1.2.1.17.7.1.2.2.1.2")
      (walk_text w host community version log 2 "1.3.6.1.2.1.17.1.4.1.2")
      (walk_text w host community version log 3 "1.3.6.1.2.1.31.1.1.1.1")
      (walk_text w host community version log 4 "1.3.6.1.2.1.4.22.1.2") in
  if (List.length found =? 0)%nat
  then snmpLancomWlanClients w cmp host community version
         (log ++ walks_of host community version bridge_oids)%list
  else (Fulfilled (make_result found "bridge"),
        (log ++ walks_of host community version bridge_oids)%list).
Proof.
  unfold snmpMacTable, bind, both, ret.
  rewrite !walk_run. rewrite !walk_text_shift. simpl.
  rewrite <- !app_assoc. simpl.
  match goal with |- context [if ?c then _ else _] => destruct c end;
    reflexivity.
Qed.

Lemma test_run log :
  snmpTest w host community version log =
  (Fulfilled
     (test_result_of (walk_text w host community version log 0 "1.3.6.1.2.1.1.1.0")),
   (log ++ walks_of host community version ["1.3.6.1.2.1.1.1.0"])%list).
Proof. unfold snmpTest, bind, ret. now rewrite walk_run. Qed.

End Responsive.

Lemma or_null_truthy x s : or_null x = Some s -> JsString.truthy s = true.
Proof.
  unfold or_null. destruct x as [t|]; [|discriminate].
  destruct (JsString.truthy t) eqn:E; [|discriminate]. now intros [= <-].
Qed.

Lemma has_ip_or_null e x :
  ip e = or_null x ->
  has_ip e = match ip e with Some _ => true | None => false end.
Proof.
  unfold has_ip. intros H. destruct (ip e) as [s|] eqn:E; [|reflexivity].
  symmetry in H. now apply or_null_truthy in H.
Qed.

Lemma make_result_well_formed cmp es source :
  consistent cmp ->
  (forall e, In e es -> exists x, ip e = or_null x) ->
  well_formed_result cmp (make_result (sort_by_portName cmp es) source).
Proof.
  intros Hc Hip. unfold well_formed_result, make_result. simpl.
  repeat split.
  - f_equal. apply filter_ext_in. intros e He.
    apply sort_in in He. destruct (Hip e He) as [x Hx].
    now apply has_ip_or_null with x.
  - now apply sort_sorted.
Qed.

Lemma wlan_result_well_formed cmp clientOut ssidOut arpOut :
  consistent cmp ->
  well_formed_result cmp (wlan_result cmp clientOut ssidOut arpOut).
Proof.
  intros Hc. unfold wlan_result, wlan_entries.
  apply make_result_well_formed; [exact Hc|].
  intros e He. apply in_map_iff in He as (c & <- & _). simpl. eauto.
Qed.

Lemma bridge_result_well_formed cmp fdbOut qfdbOut bpOut ifNameOut arpOut :
  consistent cmp ->
  well_formed_result cmp
    (make_result (bridge_entries cmp fdbOut qfdbOut bpOut ifNameOut arpOut) "bridge").
Proof.
  intros Hc. unfold bridge_entries.
  apply make_result_well_formed; [exact Hc|].
  intros e He. apply in_map_iff in He as ([m bp] & <- & _). simpl. eauto.
Qed.

Lemma length_zero {A} (l : list A) : (List.length l =? 0)%nat = true <-> l = [].
Proof. destruct l; simpl; split; congruence. Qed.





(** The examples of the spec, run on the sample devices. *)
Example switch_table :
  fst (snmpMacTable Samples.switch Collation.numericCompare
                    "192.0.2.1" "public" "2c" []) =
  Fulfilled
    {| entries :=
         [ {| mac := "aa:bb:cc:dd:ee:02"; bridgePort := Int 2;
              portName := "Port 2"; ip := None |};
           {| mac := "aa:bb:cc:dd:ee:01"; bridgePort := Int 10;
              portName := "Port 10"; ip := None |} ];
       count := 2; countWithIp := 0; hasMacTable := true; source := "bridge" |}.
Proof. vm_compute. reflexivity. Qed.

Example access_point_table :
  fst (snmpMacTable Samples.access_point Collation.numericCompare
                    "192.0.2.2" "public" "2c" []) =
  Fulfilled
    {| entries :=
         [ {| mac := "aa:bb:cc:dd:ee:01"; bridgePort := Int 0;
              portName := "WLAN: Guest (5G) CH36"; ip := Some "10.0.0.5" |} ];
       count := 1; countWithIp := 1; hasMacTable := true;
       source := "wlan-clients" |}.
Proof. vm_compute. reflexivity. Qed.

Example silent_table :
  snmpMacTable Samples.silent Collation.numericCompare "192.0.2.3" "public" "1" [] =
  (Fulfilled {| entries := []; count := 0; countWithIp := 0;
                hasMacTable := false; source := "wlan-clients" |},
   walks_of "192.0.2.3" "public" "1" (bridge_oids ++ wlan_oids)).
Proof. vm_compute. reflexivity. Qed.

End ResolverFacts.

(** ** The matcher finds exactly the matches of the declarative reading *)

Module MatcherFacts.
Import JsString Regex StringFacts RegexFacts.

Section Iterate.
Variable r : regex.
Variable m : matcher.
Variable g : bool.

Hypothesis m_sound : forall s cs k a,
  m s cs k = Some a ->
  exists s' cs', matches r s cs s' cs' /\ k s' cs' = Some a.

Lemma iterate_sound fuel : forall s cs k a,
  iterate m g fuel s cs k = Some a ->
  exists s' cs', matches (Star g r) s cs s' cs' /\ k s' cs' = Some a.
Proof.
  induction fuel as [|f IH]; intros s cs k a H; simpl in H.
  - exists s, cs. split; [constructor | exact H].
  - assert (More : forall a0,
               m s cs (fun s' cs' =>
                         if (length s' <? length s)%nat
                         then iterate m g f s' cs' k else None) = Some a0 ->
               exists s' cs', matches (Star g r) s cs s' cs' /\ k s' cs' = Some a0).
    { intros a0 H0. apply m_sound in H0 as (s1 & cs1 & M1 & H1).
      destruct (length s1 <? length s)%nat eqn:L; [|discriminate].
      apply Nat.ltb_lt in L.
      apply IH in H1 as (s2 & cs2 & M2 & H2).
      exists s2, cs2. split; [|exact H2]. now apply M_StarMore with s1 cs1. }
    assert (Stop : forall a0, k s cs = Some a0 ->
               exists s' cs', matches (Star g r) s cs s' cs' /\ k s' cs' = Some a0).
    { intros a0 H0. exists s, cs. split; [constructor | exact H0]. }
    destruct g.
    + destruct (m s cs _) as [a1|] eqn:E; [injection H as <-; now apply More | now apply Stop].
    + destruct (k s cs) as [a1|] eqn:E; [injection H as <-; now apply Stop | now apply More].
Qed.

Hypothesis m_complete : forall s cs s' cs' k,
  matches r s cs s' cs' -> k s' cs' <> None -> m s cs k <> None.

Lemma iterate_complete s cs s' cs' :
  matches (Star g r) s cs s' cs' ->
  forall fuel k, length s < fuel -> k s' cs' <> None ->
                 iterate m g fuel s cs k <> None.
Proof.
  intros M. remember (Star g r) as R eqn:ER.
  induction M; try discriminate; injection ER as -> ->;
    intros fuel k Hf Hk; (destruct fuel as [|f]; [lia|]); simpl.
  - destruct g.
    + destruct (m s cs _); [discriminate | exact Hk].
    + destruct (k s cs); [discriminate | contradiction].
  - assert (More : m s cs (fun s' cs' =>
                             if (length s' <? length s)%nat
                             then iterate m g f s' cs' k else None) <> None).
    { apply m_complete with s1 cs1; [exact M1|].
      rewrite (proj2 (Nat.ltb_lt _ _) H).
      apply IHM2; [reflexivity | lia | exact Hk]. }
    destruct g.
    + destruct (m s cs _); [discriminate | contradiction].
    + destruct (k s cs); [discriminate | exact More].
Qed.

End Iterate.

Theorem rmatch_sound r : forall s cs k a,
  rmatch r s cs k = Some a ->
  exists s' cs', matches r s cs s' cs' /\ k s' cs' = Some a.
Proof.
  induction r as [|c|p|r1 IH1 r2 IH2|r IH|g r IH|g r IH|i r IH|ml];
    intros s cs k a H; cbn [rmatch] in H.
  - exists s, cs. split; [constructor | exact H].
  - destruct s as [|d t]; [discriminate|].
    destruct (Ascii.eqb c d) eqn:E; [|discriminate].
    apply Ascii.eqb_eq in E. subst d. exists t, cs. split; [constructor | exact H].
  - destruct s as [|d t]; [discriminate|].
    destruct (p d) eqn:E; [|discriminate].
    exists t, cs. split; [now constructor | exact H].
  - apply IH1 in H as (s1 & cs1 & M1 & H).
    apply IH2 in H as (s2 & cs2 & M2 & H).
    exists s2, cs2. split; [now apply M_Seq with s1 cs1 | exact H].
  - destruct (rmatch r s cs k) as [a1|] eqn:E.
    + injection H as <-. apply IH in E as (s1 & cs1 & M1 & H1).
      exists s1, cs1. split; [now apply M_OptSome | exact H1].
    + exists s, cs. split; [apply M_OptNone | exact H].
  - now apply (iterate_sound r (rmatch r) g IH) in H.
  - apply IH in H as (s1 & cs1 & M1 & H).
    apply (iterate_sound r (rmatch r) g IH) in H as (s2 & cs2 & M2 & H).
    exists s2, cs2. split; [now apply M_Plus with s1 cs1 | exact H].
  - apply IH in H as (s1 & cs1 & M1 & H).
    exists s1, ((i, consumed s s1) :: cs1). split; [now constructor | exact H].
  - destruct (at_end ml s) eqn:E; [|discriminate].
    exists s, cs. split; [now constructor | exact H].
Qed.

Theorem rmatch_complete r : forall s cs s' cs' k,
  matches r s cs s' cs' -> k s' cs' <> None -> rmatch r s cs k <> None.
Proof.
  induction r as [|c|p|r1 IH1 r2 IH2|r IH|g r IH|g r IH|i r IH|ml];
    intros s cs s' cs' k M Hk; inversion M; subst; cbn [rmatch].
  - exact Hk.
  - now rewrite Ascii.eqb_refl.
  - now match goal with H : p _ = true |- _ => rewrite H end.
  - eapply IH1; [eassumption|]. eapply IH2; eassumption.
  - destruct (rmatch r s cs k) eqn:E; [discriminate|].
    exfalso. revert E. eapply IH; eassumption.
  - destruct (rmatch r s' cs' k); [discriminate | exact Hk].
  - apply (iterate_complete r (rmatch r) g IH) with s' cs'; [exact M | lia | exact Hk].
  - apply (iterate_complete r (rmatch r) g IH) with s' cs'; [exact M | lia | exact Hk].
  - eapply IH; [eassumption|].
    eapply (iterate_complete r (rmatch r) g IH); [eassumption | lia | exact Hk].
  - eapply IH; [eassumption | exact Hk].
  - now match goal with H : at_end _ _ = true |- _ => rewrite H end.
Qed.

(** A match consumes a prefix of the input. *)
Lemma matches_suffix r s cs s' cs' :
  matches r s cs s' cs' -> exists u, s = u ++ s'.
Proof.
  induction 1;
    try (now exists EmptyString);
    try assumption.
  - now exists (String c EmptyString).
  - now exists (String d EmptyString).
  - destruct IHmatches1 as [u ->], IHmatches2 as [v ->].
    exists (u ++ v). now rewrite append_assoc.
  - destruct IHmatches1 as [u ->], IHmatches2 as [v ->].
    exists (u ++ v). now rewrite append_assoc.
  - destruct IHmatches1 as [u ->], IHmatches2 as [v ->].
    exists (u ++ v). now rewrite append_assoc.
Qed.

Lemma match_here r s cs s' :
  rmatch r s [] (fun s1 cs1 => Some (cs1, s1)) = Some (cs, s') ->
  matches r s [] s' cs /\ consumed s s' ++ s' = s.
Proof.
  intros E. apply rmatch_sound in E as (s1 & cs1 & M & [= -> ->]).
  split; [exact M|].
  destruct (matches_suffix _ _ _ _ _ M) as [u ->]. now rewrite consumed_app.
Qed.

(** [exec] reports a match of the pattern at some place of the text. *)
Lemma exec_from_sound r s : forall i m,
  exec_from r i s = Some m ->
  exists pre, s = pre ++ whole m ++ rest m /\
              index m = i + length pre /\
              matches r (whole m ++ rest m) [] (rest m) (groups m).
Proof.
  induction s as [|c t IH]; intros i m H; cbn [exec_from] in H.
  - destruct (rmatch r "" [] _) as [[cs s']|] eqn:E; [|discriminate].
    injection H as <-. destruct (match_here _ _ _ _ E) as [M C].
    exists EmptyString. cbn [whole rest groups index]. rewrite C.
    repeat split; [simpl; lia | exact M].
  - destruct (rmatch r (String c t) [] _) as [[cs s']|] eqn:E.
    + injection H as <-. destruct (match_here _ _ _ _ E) as [M C].
      exists EmptyString. cbn [whole rest groups index]. rewrite C.
      repeat split; [simpl; lia | exact M].
    + apply IH in H as (pre & E1 & E2 & M).
      exists (String c pre). simpl. rewrite <- E1. repeat split; [lia | exact M].
Qed.

(** [exec] finds a match if the pattern matches anywhere in the text. *)
Lemma exec_from_complete r pre : forall i s0 s' cs',
  matches r s0 [] s' cs' -> exec_from r i (pre ++ s0) <> None.
Proof.
  assert (Here : forall i s0 s' cs', matches r s0 [] s' cs' -> exec_from r i s0 <> None).
  { intros i s0 s' cs' M.
    pose proof (rmatch_complete r s0 [] s' cs' (fun s1 cs1 => Some (cs1, s1)) M) as C.
    destruct s0; simpl;
      destruct (rmatch r _ [] _) as [[cs1 s1]|]; try discriminate;
      exfalso; apply C; congruence. }
  induction pre as [|c pre IH]; intros i s0 s' cs' M; simpl.
  - now apply Here with s' cs'.
  - destruct (rmatch r _ [] _) as [[cs1 s1]|]; [discriminate|].
    now apply IH with s' cs'.
Qed.

Lemma capture_cons_some i j v cs :
  capture i cs <> None -> capture i ((j, v) :: cs) <> None.
Proof. simpl. now destruct (Nat.eqb i j). Qed.

(** A match keeps the groups that are set and sets those it binds. *)
Lemma matches_binds r s cs s' cs' :
  matches r s cs s' cs' ->
  (forall i, capture i cs <> None -> capture i cs' <> None) /\
  (forall i, In i (binds r) -> capture i cs' <> None).
Proof.
  induction 1; cbn [binds];
    repeat match goal with H : _ /\ _ |- _ => destruct H end;
    (split; intros j Hj);
    try contradiction;
    try (apply in_app_iff in Hj as [Hj|Hj]);
    auto 6.
  - apply capture_cons_some. auto.
  - destruct Hj as [<-|Hj].
    + simpl. now rewrite Nat.eqb_refl.
    + apply capture_cons_some. auto.
Qed.

(** After a successful [exec], [m[i]] is defined for the bound groups:
    the default of [group] is not used. *)
Lemma exec_binds r s m i :
  exec r s = Some m -> In i (binds r) -> capture i (groups m) <> None.
Proof.
  intros E Hi. apply exec_from_sound in E as (pre & _ & _ & M).
  now apply (proj2 (matches_binds _ _ _ _ _ M)).
Qed.

Lemma patterns_bind_what_is_read :
  Forall (fun pr => incl (snd pr) (binds (fst pr))) SpecTerms.patterns_read.
Proof.
  unfold SpecTerms.patterns_read.
  repeat (apply Forall_cons; [vm_compute; tauto|]). apply Forall_nil.
Qed.

Lemma read_groups_defined r read s m i :
  In (r, read) SpecTerms.patterns_read ->
  exec r s = Some m -> In i read ->
  exists v, capture i (groups m) = Some v /\ group i m = v.
Proof.
  intros Hp E Hi.
  pose proof (proj1 (Forall_forall _ _) patterns_bind_what_is_read _ Hp) as Hb.
  simpl in Hb. apply Hb in Hi.
  pose proof (exec_binds r s m i E Hi) as C.
  unfold group. destruct (capture i (groups m)) as [v|]; [eauto | contradiction].
Qed.

End MatcherFacts.

(** ** The connectivity test *)

Module TestFacts.
Import JsString Regex Walk Snmp SpecTerms StringFacts RegexFacts MatcherFacts.

Lemma matches_lit_inv w : forall s cs s' cs',
  matches (lit w) s cs s' cs' -> s = w ++ s' /\ cs' = cs.
Proof.
  induction w as [|c w IH]; intros s cs s' cs' M; simpl in M.
  - inversion M; subst. now split.
  - inversion M as [| | |? ? ? ? ? ? ? ? M1 M2| | | | | | |]; subst.
    inversion M1; subst. apply IH in M2 as [-> ->]. now split.
Qed.

Lemma matches_lit_intro w s cs : matches (lit w) (w ++ s) cs s cs.
Proof.
  induction w as [|c w IH]; simpl; [constructor|].
  apply M_Seq with (w ++ s) cs; [constructor | exact IH].
Qed.

Lemma matches_star_cls_inv g p s cs s' cs' :
  matches (Star g (Cls p)) s cs s' cs' ->
  exists u, s = u ++ s' /\ JsString.forallb p u = true /\ cs' = cs.
Proof.
  intros M. remember (Star g (Cls p)) as R eqn:ER.
  induction M; try discriminate; injection ER as -> ->.
  - now exists EmptyString.
  - destruct (IHM2 eq_refl) as (u & -> & Hu & ->).
    inversion M1; subst.
    exists (String d u). simpl.
    match goal with H : p _ = true |- _ => rewrite H end. now rewrite Hu.
Qed.

Lemma matches_star_cls_intro g p u : forall s cs,
  JsString.forallb p u = true -> matches (Star g (Cls p)) (u ++ s) cs s cs.
Proof.
  induction u as [|c u IH]; intros s cs H; simpl in *; [constructor|].
  apply andb_prop in H as [Hc Hu].
  apply M_StarMore with (u ++ s) cs; [now constructor | simpl; lia | now apply IH].
Qed.

Lemma matches_plus_cls_inv g p s cs s' cs' :
  matches (Plus g (Cls p)) s cs s' cs' ->
  exists u, s = u ++ s' /\ u <> "" /\ JsString.forallb p u = true /\ cs' = cs.
Proof.
  intros M. inversion M as [| | | | | | | |? ? ? ? ? ? ? ? M1 M2| |]; subst.
  inversion M1; subst.
  apply matches_star_cls_inv in M2 as (u & -> & Hu & ->).
  exists (String d u). simpl.
  match goal with H : p _ = true |- _ => rewrite H end.
  repeat split; [discriminate | exact Hu].
Qed.

Lemma matches_plus_cls_intro g p u s cs :
  u <> "" -> JsString.forallb p u = true ->
  matches (Plus g (Cls p)) (u ++ s) cs s cs.
Proof.
  destruct u as [|c u]; [congruence|]. intros _ H. simpl in *.
  apply andb_prop in H as [Hc Hu].
  apply M_Plus with (u ++ s) cs; [now constructor | now apply matches_star_cls_intro].
Qed.

Lemma matches_opt_chr_inv c s cs s' cs' :
  matches (Opt (Chr c)) s cs s' cs' ->
  exists q, s = q ++ s' /\ (q = "" \/ q = String c "") /\ cs' = cs.
Proof.
  intros M. inversion M as [| | | |? ? ? ? ? M1| | | | | |]; subst.
  - inversion M1; subst. exists (String c ""). auto.
  - exists EmptyString. auto.
Qed.

Lemma matches_opt_chr_intro c q s cs :
  q = "" \/ q = String c "" -> matches (Opt (Chr c)) (q ++ s) cs s cs.
Proof.
  intros [->| ->]; simpl; [apply M_OptNone | apply M_OptSome; constructor].
Qed.

(** The pattern of the connectivity test, read declaratively. *)
Lemma sysdescr_matches s0 after cs :
  matches sysdescr_re s0 [] after cs <->
  exists v, string_value_at s0 v after /\ cs = [(1, v)].
Proof.
  unfold sysdescr_re, cat, spaces. cbn [fold_right]. split.
  - intros M.
    repeat match goal with
           | H : matches (lit _) _ _ _ _ |- _ =>
               apply matches_lit_inv in H as [-> ->]
           | H : matches (Seq _ _) _ _ _ _ |- _ => inversion H; subst; clear H
           | H : matches (Chr _) _ _ _ _ |- _ => inversion H; subst; clear H
           | H : matches Eps _ _ _ _ |- _ => inversion H; subst; clear H
           | H : matches (Eol _) _ _ _ _ |- _ => inversion H; subst; clear H
           | H : matches (Group _ _) _ _ _ _ |- _ => inversion H; subst; clear H
           | H : matches (Star _ (Cls _)) _ _ _ _ |- _ =>
               apply matches_star_cls_inv in H as (? & -> & ? & ->)
           | H : matches (Plus _ (Cls _)) _ _ _ _ |- _ =>
               apply matches_plus_cls_inv in H as (? & -> & ? & ? & ->)
           | H : matches (Opt (Chr _)) _ _ _ _ |- _ =>
               apply matches_opt_chr_inv in H as (? & -> & ? & ->)
           end.
    rewrite consumed_app.
    eexists. split; [|reflexivity].
    unfold string_value_at, optional_quote.
    eexists _, _, _, _. repeat split; try eassumption.
  - intros (v & (ws1 & q1 & q2 & ws2 & -> & H1 & Hq1 & Hv & Hvc & Hq2 & H2 & He) & ->).
    replace [(1, v)]
      with [(1, consumed (v ++ q2 ++ ws2 ++ after) (q2 ++ ws2 ++ after))]
      by now rewrite consumed_app.
    eapply M_Seq; [apply matches_lit_intro|].
    eapply M_Seq; [now apply matches_star_cls_intro|].
    eapply M_Seq; [now apply matches_opt_chr_intro|].
    eapply M_Seq; [apply M_Group; now apply matches_plus_cls_intro|].
    eapply M_Seq; [now apply matches_opt_chr_intro|].
    eapply M_Seq; [now apply matches_star_cls_intro|].
    eapply M_Seq; [now apply M_Eol | apply M_Eps].
Qed.

Lemma slice0_nonempty n s : JsString.truthy (slice0 (S n) s) = JsString.truthy s.
Proof. now destruct s. Qed.

Lemma test_result_no_match out :
  exec sysdescr_re out = None ->
  test_result_of out =
  {| ok := false;
     sysDescr := if String.eqb (trim out) "" then "Keine Antwort"
                 else slice0 200 (trim out) |}.
Proof.
  intros E. unfold test_result_of. rewrite E. f_equal.
  rewrite slice0_nonempty. now destruct (trim out).
Qed.

(** C2, as amended.  The connectivity test returns ok = true exactly
    when the output has a STRING value that ends its line, the quotes
    around the value being optional; sysDescr is then such a value,
    trimmed.  Otherwise ok = false, and sysDescr is the first 200
    characters of the trimmed output, or the literal "Keine Antwort"
    when the trimmed output is empty. *)
Theorem connectivity_test (out : string) :
  let r := test_result_of out in
  (ok r = true -> exists v, has_string_value out v /\ sysDescr r = trim v) /\
  ((exists v, has_string_value out v) -> ok r = true) /\
  (ok r = false ->
   sysDescr r = if String.eqb (trim out) "" then "Keine Antwort"
                else slice0 200 (trim out)).
Proof.
  cbv zeta. destruct (exec sysdescr_re out) as [m|] eqn:E.
  - assert (R : test_result_of out = {| ok := true; sysDescr := trim (group 1 m) |})
      by (unfold test_result_of; now rewrite E).
    rewrite R. simpl. repeat split; try discriminate.
    intros _. apply exec_from_sound in E as (before & Eout & _ & M).
    apply sysdescr_matches in M as (v & V & G).
    exists v. split.
    + now exists before, (whole m ++ rest m), (rest m).
    + unfold group. now rewrite G.
  - rewrite (test_result_no_match out E). simpl. repeat split; try discriminate.
    intros (v & before & s0 & after & -> & V). exfalso.
    assert (M : matches sysdescr_re s0 [] after [(1, v)])
      by (apply sysdescr_matches; eauto).
    now apply (exec_from_complete sysdescr_re before 0 s0 after _ M).
Qed.

Lemma connectivity_test_witness :
  sysDescr (test_result_of "") = "Keine Antwort" /\
  exists v, has_string_value Samples.sysdescr_quoted v /\
            sysDescr (test_result_of Samples.sysdescr_quoted) = trim v.
Proof.
  split.
  - exact (proj2 (proj2 (connectivity_test "")) eq_refl).
  - apply (proj1 (connectivity_test Samples.sysdescr_quoted)).
    vm_compute. reflexivity.
Defined.

(** C2, as stated, fails: for empty output the placeholder is not
    "no response"; a STRING value without quotes is a success; and on
    failure the output is trimmed before its first 200 characters are
    taken. *)
Lemma connectivity_test_differs :
  sysDescr (test_result_of "") <> "no response" /\
  test_result_of Samples.sysdescr_unquoted = {| ok := true; sysDescr := "LANCOM" |} /\
  sysDescr (test_result_of Samples.timeout_message) <>
    slice0 200 Samples.timeout_message.
Proof. repeat split; vm_compute; (reflexivity || discriminate). Qed.

(** The examples of the spec. *)
Example test_quoted :
  test_result_of Samples.sysdescr_quoted = {| ok := true; sysDescr := "Device XYZ" |}.
Proof. vm_compute. reflexivity. Qed.

Example test_empty :
  test_result_of "" = {| ok := false; sysDescr := "Keine Antwort" |}.
Proof. vm_compute. reflexivity. Qed.

End TestFacts.

(** ** More on the walk executor and on how the resolvers settle *)

Module OutcomeFacts.
Import JsString Walk Snmp SpecTerms StringFacts WalkFacts ResolverFacts.

Lemma kills_without_end evs :
  List.forallb keeps_running evs = true ->
  kills (run evs) = if timed_out evs then 1 else 0.
Proof.
  intros H. unfold run.
  now destruct (running_prefix_kills evs start H eq_refl eq_refl).
Qed.

(** X1.  [proc.kill()] is called at most once per walk, and exactly
    when the timer fires before the first [close] or [error] event of
    the process: once the process has ended the timer is cleared, and
    a timer that fires later kills nothing. *)
Theorem kill_policy (evs : list event) :
  kills (run evs) <= 1 /\
  (forall pre ev post,
      evs = (pre ++ ev :: post)%list ->
      List.forallb keeps_running pre = true -> keeps_running ev = false ->
      kills (run evs) = if timed_out pre then 1 else 0) /\
  (List.forallb keeps_running evs = true ->
   kills (run evs) = if timed_out evs then 1 else 0).
Proof.
  assert (Ended : forall pre ev post,
             evs = (pre ++ ev :: post)%list ->
             List.forallb keeps_running pre = true -> keeps_running ev = false ->
             kills (run evs) = if timed_out pre then 1 else 0).
  { intros pre ev post -> Hpre Hev. now apply kill_on_timeout. }
  split; [|split; [exact Ended | apply kills_without_end]].
  destruct (List.forallb keeps_running evs) eqn:E.
  - rewrite (kills_without_end evs E). destruct (timed_out evs); lia.
  - destruct (first_failure _ _ E) as (pre & ev & post & Eq & Hpre & Hev).
    rewrite (Ended pre ev post Eq Hpre Hev). destruct (timed_out pre); lia.
Qed.

Lemma kill_policy_witness :
  kills (run Samples.timer_after_close) = 0.
Proof.
  exact (proj1 (proj2 (kill_policy Samples.timer_after_close))
           [StdoutData "a"] (ProcClose (Some 0%Z)) [TimerFired]
           eq_refl eq_refl eq_refl).
Defined.

Section Outcomes.
Variable w : world.
Variables host community version : string.

Lemma walk_outcome oid log :
  runSnmpWalk w host community version oid log =
  (walk_promise w host community version log 0 oid,
   if starts (w (List.length log) (walk_command host community version oid))
   then (log ++ [walk_command host community version oid])%list else log).
Proof.
  unfold runSnmpWalk, walk_promise. rewrite Nat.add_0_r.
  now destruct (w (List.length log) (walk_command host community version oid)).
Qed.

Lemma walk_rejects_as_thrown oid :
  rejects_as_thrown w (runSnmpWalk w host community version oid).
Proof.
  intros log reason. unfold runSnmpWalk.
  destruct (w (List.length log) (walk_command host community version oid))
    as [thrown|evs] eqn:E; simpl.
  - intros [= ->]. eauto.
  - intros H. exfalso. revert H. apply run_from_no_reject. intros e. discriminate.
Qed.

Lemma walk_only_adds oid :
  only_adds (fun call => call = walk_command host community version oid)
            (runSnmpWalk w host community version oid).
Proof.
  intros log call. unfold runSnmpWalk.
  destruct (w (List.length log) (walk_command host community version oid));
    simpl; auto.
  intros [H|[<-|[]]]%in_app_or; auto.
Qed.

Lemma walk_no_reject oid :
  starting w -> no_reject (runSnmpWalk w host community version oid).
Proof.
  intros S log e H.
  destruct (walk_rejects_as_thrown oid log e H) as (n & call & T).
  specialize (S n call). now rewrite T in S.
Qed.

Lemma walk_log oid log :
  starting w ->
  snd (runSnmpWalk w host community version oid log) =
  (log ++ [walk_command host community version oid])%list.
Proof.
  intros S. rewrite walk_outcome. simpl. now rewrite S.
Qed.

Lemma walk_pending oid log :
  starting w ->
  List.forallb keeps_running
    (events_of (w (List.length log) (walk_command host community version oid))) = true ->
  fst (runSnmpWalk w host community version oid log) = Pending.
Proof.
  intros S H. unfold runSnmpWalk.
  specialize (S (List.length log) (walk_command host community version oid)).
  destruct (w (List.length log) (walk_command host community version oid));
    [discriminate|].
  simpl in *. unfold run. now destruct (running_prefix _ start H) as [-> _].
Qed.

End Outcomes.

Lemma both_rejects_as_thrown {A B} w (a : M A) (b : M B) :
  rejects_as_thrown w a -> rejects_as_thrown w b -> rejects_as_thrown w (both a b).
Proof.
  intros Ha Hb log reason. unfold both.
  specialize (Ha log). destruct (a log) as [pa l1]. simpl in Ha.
  specialize (Hb l1). destruct (b l1) as [pb l2]. simpl in *.
  destruct pa as [|x|ea]; destruct pb as [|y|eb]; try discriminate;
    intros [= <-]; auto.
Qed.

Lemma bind_rejects_as_thrown {A B} w (m : M A) (k : A -> M B) :
  rejects_as_thrown w m -> (forall a, rejects_as_thrown w (k a)) ->
  rejects_as_thrown w (bind m k).
Proof.
  intros Hm Hk log reason. unfold bind. specialize (Hm log).
  destruct (m log) as [[|x|em] l]; simpl in *; try discriminate.
  - apply Hk.
  - intros [= <-]. auto.
Qed.

Lemma ret_rejects_as_thrown {A} w (a : A) : rejects_as_thrown w (ret a).
Proof. intros log reason. discriminate. Qed.

Lemma only_adds_weaken {A} (P Q : spawn_call -> Prop) (m : M A) :
  (forall call, P call -> Q call) -> only_adds P m -> only_adds Q m.
Proof.
  intros PQ H log call Hin. destruct (H log call Hin); auto.
Qed.

Lemma both_only_adds {A B} (P : spawn_call -> Prop) (a : M A) (b : M B) :
  only_adds P a -> only_adds P b -> only_adds P (both a b).
Proof.
  intros Ha Hb log call. unfold both.
  specialize (Ha log). destruct (a log) as [pa l1]. simpl in Ha.
  specialize (Hb l1). destruct (b l1) as [pb l2]. simpl in *.
  intros H. destruct (Hb call H) as [H1|H1]; auto.
Qed.

Lemma bind_only_adds {A B} (P : spawn_call -> Prop) (m : M A) (k : A -> M B) :
  only_adds P m -> (forall a, only_adds P (k a)) -> only_adds P (bind m k).
Proof.
  intros Hm Hk log call. unfold bind. specialize (Hm log).
  destruct (m log) as [[|x|em] l]; simpl in *; auto.
  intros H. destruct (Hk x l call H) as [H1|H1]; auto.
Qed.

Lemma ret_only_adds {A} (P : spawn_call -> Prop) (a : A) : only_adds P (ret a).
Proof. intros log call H. now left. Qed.

Lemma both_log {A B} (a : M A) (b : M B) log :
  snd (both a b log) = snd (b (snd (a log))).
Proof.
  unfold both. destruct (a log) as [pa l1]. simpl. now destruct (b l1).
Qed.

Lemma both_no_reject {A B} (a : M A) (b : M B) :
  no_reject a -> no_reject b -> no_reject (both a b).
Proof.
  intros Ha Hb log e. unfold both.
  specialize (Ha log). destruct (a log) as [pa l1]. simpl in Ha.
  specialize (Hb l1). destruct (b l1) as [pb l2]. simpl in *.
  destruct pa as [|x|ea]; destruct pb as [|y|eb]; try discriminate;
    solve [exfalso; eapply Ha; reflexivity | exfalso; eapply Hb; reflexivity].
Qed.

Lemma both_pending_left {A B} (a : M A) (b : M B) log :
  fst (a log) = Pending -> no_reject b -> fst (both a b log) = Pending.
Proof.
  intros Pa Hb. unfold both. destruct (a log) as [pa l1]. simpl in Pa. subst pa.
  specialize (Hb l1). destruct (b l1) as [pb l2]. simpl in *.
  destruct pb as [|y|eb]; try reflexivity. exfalso. eapply Hb. reflexivity.
Qed.

Lemma both_pending_right {A B} (a : M A) (b : M B) log :
  fst (b (snd (a log))) = Pending -> no_reject a -> fst (both a b log) = Pending.
Proof.
  intros Pb Ha. unfold both. specialize (Ha log).
  destruct (a log) as [pa l1]. simpl in *.
  destruct (b l1) as [pb l2]. simpl in Pb. subst pb. simpl.
  destruct pa as [|x|ea]; try reflexivity. exfalso. eapply Ha. reflexivity.
Qed.

Lemma bind_pending {A B} (m : M A) (k : A -> M B) log :
  fst (m log) = Pending -> bind m k log = (Pending, snd (m log)).
Proof. unfold bind. destruct (m log) as [p l]. simpl. now intros ->. Qed.

Lemma bind_no_reject {A B} (m : M A) (k : A -> M B) :
  no_reject m -> (forall a, no_reject (k a)) -> no_reject (bind m k).
Proof.
  intros Hm Hk log e. unfold bind. specialize (Hm log).
  destruct (m log) as [[|x|em] l]; simpl in *; try discriminate.
  - apply Hk.
  - exfalso. eapply Hm. reflexivity.
Qed.

Lemma bind_log_extends {A B} (m : M A) (k : A -> M B) log :
  (forall a l, exists more, snd (k a l) = (l ++ more)%list) ->
  exists more, snd (bind m k log) = (snd (m log) ++ more)%list.
Proof.
  intros Hk. unfold bind. destruct (m log) as [[|x|em] l]; simpl.
  - exists []. now rewrite app_nil_r.
  - apply Hk.
  - exists []. now rewrite app_nil_r.
Qed.

Lemma bind_log_kept {A B} (m : M A) (k : A -> M B) log :
  (forall a l, snd (k a l) = l) -> snd (bind m k log) = snd (m log).
Proof.
  intros Hk. unfold bind. destruct (m log) as [[|x|em] l]; simpl; trivial.
Qed.

Section Batches.
Variable w : world.
Variable cmp : string -> string -> comparison.
Variables host community version : string.

Lemma walk_pending_at oid (log : list spawn_call) i :
  starting w ->
  List.forallb keeps_running
    (events_of (w (List.length log + i)
                  (walk_command host community version oid))) = true ->
  forall l : list spawn_call,
    List.length l = List.length log + i ->
    fst (runSnmpWalk w host community version oid l) = Pending.
Proof.
  intros S H l Hl. apply walk_pending; trivial. now rewrite Hl.
Qed.

Lemma wlan_rejects_as_thrown :
  rejects_as_thrown w (snmpLancomWlanClients w cmp host community version).
Proof.
  unfold snmpLancomWlanClients. apply bind_rejects_as_thrown.
  - repeat apply both_rejects_as_thrown; apply walk_rejects_as_thrown.
  - intros [a [b c]] log e. discriminate.
Qed.

Lemma table_rejects_as_thrown :
  rejects_as_thrown w (snmpMacTable w cmp host community version).
Proof.
  apply bind_rejects_as_thrown.
  - repeat apply both_rejects_as_thrown; apply walk_rejects_as_thrown.
  - intros [a [b [c [d f]]]]. cbv zeta.
    destruct (List.length (bridge_entries cmp a b c d f) =? 0)%nat.
    + apply wlan_rejects_as_thrown.
    + apply ret_rejects_as_thrown.
Qed.

Lemma wlan_log log :
  starting w ->
  snd (snmpLancomWlanClients w cmp host community version log) =
  (log ++ walks_of host community version wlan_oids)%list.
Proof.
  intros S. unfold snmpLancomWlanClients. rewrite bind_log_kept.
  - rewrite !both_log, !walk_log by exact S. simpl. now rewrite <- !app_assoc.
  - now intros [a [b c]] l.
Qed.

Lemma bridge_batch_log log :
  starting w ->
  snd (both (runSnmpWalk w host community version "1.3.6.1.2.1.17.4.3.1.2")
         (both (runSnmpWalk w host community version "1.3.6.1.2.1.17.7.1.2.2.1.2")
            (both (runSnmpWalk w host community version "1.3.6.1.2.1.17.1.4.1.2")
               (both (runSnmpWalk w host community version "1.3.6.1.2.1.31.1.1.1.1")
                     (runSnmpWalk w host community version "1.3.6.1.2.1.4.22.1.2")))) log) =
  (log ++ walks_of host community version bridge_oids)%list.
Proof.
  intros S. rewrite !both_log, !walk_log by exact S. simpl.
  now rewrite <- !app_assoc.
Qed.


End Batches.


End OutcomeFacts.

(** ** The two MAC decoders together *)

Module DecoderMore.
Import JsString JsNumber Regex Obj Snmp SpecTerms StringFacts DecoderFacts
       RegexFacts HexFacts.

Lemma macFromDecOid_octets octets :
  List.length octets = 6 -> Forall is_octet octets ->
  macFromDecOid (join "." (List.map decimal octets)) =
  Some (join ":" (List.map hex_pair octets)).
Proof.
  intros Hlen Hall. unfold macFromDecOid.
  assert (Hin : forall z, In z octets -> is_octet z) by now apply Forall_forall.
  rewrite split_join.
  - rewrite length_map, Hlen. simpl. do 2 f_equal.
    rewrite map_map. apply map_ext_in. intros z Hz.
    apply (octet_rendering z (Hin z Hz)).
  - destruct octets; [discriminate | simpl; congruence].
  - apply Forall_forall. intros p Hp. apply in_map_iff in Hp as (z & <- & Hz).
    apply (octet_rendering z (Hin z Hz)).
Qed.

Lemma octets_strip_ok : List.forallb octet_strip_ok (seq 0 256) = true.
Proof. vm_compute. reflexivity. Qed.

Lemma octet_strip (z : Z) :
  is_octet z ->
  strip (upper_hex_pair z) = hex_pair z /\ strip (hex_pair z) = hex_pair z.
Proof.
  intros [Hlo Hhi].
  assert (Hin : In (Z.to_nat z) (seq 0 256)) by (apply in_seq; lia).
  pose proof (proj1 (List.forallb_forall octet_strip_ok (seq 0 256))
                octets_strip_ok _ Hin) as H.
  unfold octet_strip_ok in H. rewrite Z2Nat.id in H by exact Hlo.
  apply andb_prop in H as [H1 H2].
  split; now apply String.eqb_eq.
Qed.

Lemma map_append f (a b : string) :
  JsString.map f (a ++ b) = JsString.map f a ++ JsString.map f b.
Proof. induction a as [|x a IH]; simpl; [reflexivity | now rewrite IH]. Qed.

Lemma strip_append a b : strip (a ++ b) = strip a ++ strip b.
Proof. unfold strip, toLowerCase. now rewrite filter_append, map_append. Qed.

(** Stripping a list of pieces joined by a separator that is stripped
    away leaves the stripped pieces, one after the other. *)
Lemma strip_join sep (pieces : list string) :
  strip sep = "" ->
  strip (join sep pieces) = String.concat "" (List.map strip pieces).
Proof.
  intros Hsep. induction pieces as [|p rest IH]; [reflexivity|].
  destruct rest as [|q rest'].
  - simpl. reflexivity.
  - change (join sep (p :: q :: rest')) with (p ++ sep ++ join sep (q :: rest')).
    rewrite !strip_append, Hsep, IH. reflexivity.
Qed.

Lemma concat_cons (x : string) (l : list string) :
  String.concat "" (x :: l) = x ++ String.concat "" l.
Proof. destruct l; simpl; [now rewrite append_empty_r | reflexivity]. Qed.

Lemma concat_hex_pairs octets :
  pairs (String.concat "" (List.map hex_pair octets)) = List.map hex_pair octets /\
  length (String.concat "" (List.map hex_pair octets)) = 2 * List.length octets.
Proof.
  induction octets as [|z rest [IH1 IH2]]; [now split|].
  cbn [List.map]. rewrite concat_cons.
  change (hex_pair z ++ String.concat "" (List.map hex_pair rest))
    with (String (digit_char (z / 16))
            (String (digit_char (z mod 16))
                    (String.concat "" (List.map hex_pair rest)))).
  cbn [pairs length]. rewrite IH1, IH2. split; [reflexivity | simpl; lia].
Qed.

Lemma macFromHexStr_octets sep (render : Z -> string) octets :
  strip sep = "" ->
  (forall z, is_octet z -> strip (render z) = hex_pair z) ->
  List.length octets = 6 -> Forall is_octet octets ->
  macFromHexStr (join sep (List.map render octets)) =
  Some (join ":" (List.map hex_pair octets)).
Proof.
  intros Hsep Hrender Hlen Hall.
  assert (S : strip (join sep (List.map render octets)) =
              String.concat "" (List.map hex_pair octets)).
  { rewrite strip_join by exact Hsep. f_equal. rewrite map_map.
    apply map_ext_in. intros z Hz. apply Hrender.
    now apply (proj1 (Forall_forall _ _) Hall). }
  destruct (concat_hex_pairs octets) as [P L].
  rewrite macFromHexStr_unfold, S, L, Hlen. simpl.
  unfold colon_pairs. now rewrite P.
Qed.

(** X3.  The two decoders agree on the two encodings of a MAC: the
    six octets written as decimal numerals after dots (an OID suffix)
    and written as hex pairs, in either letter case, separated by
    blanks (a Hex-STRING) or colons, all decode to the same text, the
    lowercase hex pairs joined by colons.  This is what lets the
    ARP table be joined with the bridge and WLAN tables. *)
Theorem decoders_agree (octets : list Z) :
  List.length octets = 6 -> Forall is_octet octets ->
  let canonical := Some (join ":" (List.map hex_pair octets)) in
  macFromDecOid (join "." (List.map decimal octets)) = canonical /\
  macFromHexStr (join " " (List.map upper_hex_pair octets)) = canonical /\
  macFromHexStr (join ":" (List.map hex_pair octets)) = canonical.
Proof.
  intros Hlen Hall. cbv zeta. repeat split.
  - now apply macFromDecOid_octets.
  - apply macFromHexStr_octets; trivial. intros z Hz. now apply octet_strip.
  - apply macFromHexStr_octets; trivial. intros z Hz. now apply octet_strip.
Qed.

Lemma decoders_agree_witness :
  macFromDecOid "0.26.43.60.77.255" = Some "00:1a:2b:3c:4d:ff" /\
  macFromHexStr "00 1A 2B 3C 4D FF" = Some "00:1a:2b:3c:4d:ff" /\
  macFromHexStr "00:1a:2b:3c:4d:ff" = Some "00:1a:2b:3c:4d:ff".
Proof.
  apply (decoders_agree [0; 26; 43; 60; 77; 255]%Z).
  - reflexivity.
  - unfold is_octet. repeat constructor; lia.
Defined.

Lemma strip_fixed c :
  colon_or_space c = false ->
  colon_or_space (lower c) = false /\ lower (lower c) = lower c.
Proof.
  destruct c as [b0 b1 b2 b3 b4 b5 b6 b7].
  destruct b0, b1, b2, b3, b4, b5, b6, b7; vm_compute; intuition congruence.
Qed.

(** What stripping leaves is left as it is by stripping again. *)
Lemma strip_kept str :
  JsString.forallb (fun c => negb (colon_or_space c) && Ascii.eqb (lower c) c)
                   (strip str) = true.
Proof.
  unfold strip, toLowerCase.
  induction str as [|c s IH]; simpl; [reflexivity|].
  destruct (colon_or_space c) eqn:E; simpl; [exact IH|].
  destruct (strip_fixed c E) as [E1 E2].
  rewrite E1, E2, Ascii.eqb_refl. simpl. exact IH.
Qed.

Lemma strip_colon_pairs h :
  JsString.forallb (fun c => negb (colon_or_space c) && Ascii.eqb (lower c) c) h = true ->
  length h = 12 ->
  strip (colon_pairs h) = h.
Proof.
  intros Hall Hlen.
  do 12 (destruct h as [|? h]; [discriminate|]).
  destruct h; [|discriminate]. clear Hlen.
  simpl in Hall.
  repeat match goal with
         | H : _ && _ = true |- _ => apply andb_prop in H as [? H]
         | H : negb _ = true |- _ => apply negb_true_iff in H
         | H : Ascii.eqb _ _ = true |- _ => apply Ascii.eqb_eq in H
         end.
  unfold colon_pairs, strip, toLowerCase. cbn [pairs join append JsString.filter].
  repeat match goal with
         | H : colon_or_space ?c = false |- _ => rewrite H; clear H
         end.
  cbn [negb JsString.map].
  change (colon_or_space ":") with true. cbn [negb JsString.map].
  repeat match goal with
         | H : lower ?c = ?c |- _ => rewrite H; clear H
         end.
  reflexivity.
Qed.

(** X4.  [macFromHexStr] leaves its own results as they are: a text it
    returns decodes to itself.  In particular the result holds no
    upper-case letter and no character that stripping would remove
    other than its five colons. *)
Theorem macFromHexStr_idempotent (str mac : string) :
  macFromHexStr str = Some mac -> macFromHexStr mac = Some mac.
Proof.
  rewrite macFromHexStr_unfold.
  destruct (length (strip str) =? 12)%nat eqn:E; simpl; [|discriminate].
  intros [= <-]. apply Nat.eqb_eq in E.
  rewrite macFromHexStr_unfold.
  rewrite (strip_colon_pairs (strip str) (strip_kept str) E).
  now rewrite E.
Qed.

Lemma macFromHexStr_idempotent_witness :
  macFromHexStr "aa:bb:cc:dd:ee:01" = Some "aa:bb:cc:dd:ee:01".
Proof.
  apply (macFromHexStr_idempotent "AA BB CC DD EE 01"). reflexivity.
Defined.

End DecoderMore.

(** ** The lookup tables *)

Module TableFacts.
Import JsString JsNumber Regex Obj Snmp SpecTerms StringFacts DecoderFacts
       RegexFacts HexFacts ObjFacts SortFacts ClientFacts BridgeFacts
       MatcherFacts TestFacts.

Section LastWins.
Context {V : Type}.
Variable binding : string -> option (string * V).
Variable step : obj V -> string -> obj V.

Hypothesis step_binds : forall acc line,
  step acc line = match binding line with
                  | Some (k, v) => set acc k v
                  | None => acc
                  end.

Lemma fold_last_bound lines : forall acc key,
  get (fold_left step lines acc) key =
  match last_bound binding key lines with
  | Some v => Some v
  | None => get acc key
  end.
Proof.
  induction lines as [|line lines IH]; intros acc key; simpl; [reflexivity|].
  rewrite IH. destruct (last_bound binding key lines); [reflexivity|].
  rewrite step_binds. destruct (binding line) as [[k v]|]; [|reflexivity].
  destruct (String.eqb k key) eqn:E.
  - apply String.eqb_eq in E. subst. apply get_set_same.
  - apply String.eqb_neq in E. now apply get_set_other.
Qed.

Lemma fold_nonempty lines : forall acc,
  acc <> [] -> fold_left step lines acc <> [].
Proof.
  induction lines as [|line lines IH]; intros acc N; simpl; [exact N|].
  apply IH. rewrite step_binds. destruct (binding line) as [[k v]|]; [|exact N].
  destruct acc as [|[k0 v0] acc]; [congruence|]. simpl.
  destruct (String.eqb k k0); discriminate.
Qed.

Lemma fold_empty_iff lines :
  fold_left step lines [] = [] <-> forall line, In line lines -> binding line = None.
Proof.
  induction lines as [|line lines IH]; simpl.
  - split; [now intros _ l [] | reflexivity].
  - rewrite step_binds. destruct (binding line) as [[k v]|] eqn:B.
    + split.
      * intros H. exfalso. revert H. apply fold_nonempty. simpl. discriminate.
      * intros H. specialize (H line (or_introl eq_refl)). congruence.
    + rewrite IH. split.
      * intros H l [<-|Hl]; auto.
      * intros H l Hl. apply H. now right.
Qed.

Lemma last_bound_some key lines v :
  last_bound binding key lines = Some v ->
  exists line, In line lines /\ binding line = Some (key, v).
Proof.
  induction lines as [|line lines IH]; simpl; [discriminate|].
  destruct (last_bound binding key lines) as [v'|].
  - intros [= ->]. destruct (IH eq_refl) as (l & Hl & B). eauto.
  - destruct (binding line) as [[k v']|] eqn:B; [|discriminate].
    destruct (String.eqb k key) eqn:E; [|discriminate].
    apply String.eqb_eq in E. subst k. intros [= ->]. eauto.
Qed.

End LastWins.

Lemma macFromHexStr_truthy str :
  mac_truthy (macFromHexStr str) = macFromHexStr str.
Proof.
  rewrite macFromHexStr_unfold.
  destruct (length (strip str) =? 12)%nat eqn:E; simpl; [|reflexivity].
  apply Nat.eqb_eq in E.
  destruct (strip str) as [|a [|b t]]; simpl in E; try discriminate.
  unfold colon_pairs. cbn [pairs]. now destruct (pairs t).
Qed.

Lemma arp_line_binds acc line :
  arp_line acc line = match arp_binding line with
                      | Some (k, v) => set acc k v
                      | None => acc
                      end.
Proof.
  unfold arp_line, arp_binding. destruct (exec arp_re line) as [m|]; [|reflexivity].
  destruct (List.length (split "." (group 1 m)) =? 4)%nat; [|reflexivity].
  rewrite macFromHexStr_truthy. now destruct (macFromHexStr (trim (group 2 m))).
Qed.

Lemma ssid_line_binds acc line :
  ssid_line acc line = match ssid_binding line with
                       | Some (k, v) => set acc k v
                       | None => acc
                       end.
Proof.
  unfold ssid_line, ssid_binding. destruct (exec ssid_re line) as [m|]; [|reflexivity].
  rewrite macFromDecOid_truthy. now destruct (macFromDecOid (group 1 m)).
Qed.

Lemma fdb_line_binds acc line :
  fdb_line acc line = match fdb_binding line with
                      | Some (k, v) => set acc k v
                      | None => acc
                      end.
Proof.
  unfold fdb_line, fdb_binding. destruct (exec fdb_re line) as [m|]; [|reflexivity].
  rewrite macFromDecOid_truthy. now destruct (macFromDecOid (group 1 m)).
Qed.

Lemma bp_line_binds acc line :
  bp_line acc line = match bp_binding line with
                     | Some (k, v) => set acc k v
                     | None => acc
                     end.
Proof. unfold bp_line, bp_binding. now destruct (exec bp_re line). Qed.

Lemma ifname_line_binds acc line :
  ifname_line acc line = match ifname_binding line with
                         | Some (k, v) => set acc k v
                         | None => acc
                         end.
Proof. unfold ifname_line, ifname_binding. now destruct (exec ifname_re line). Qed.

(** X5.  In the ARP, SSID, port-index and interface-name tables a key
    that several lines of the walk bind holds the value of the last of
    them in text order, and a key that no line binds is absent.  The
    classic forwarding table is filled the same way, and as soon as one
    line of the classic walk binds a MAC the text of the Q-Bridge walk
    has no influence on the table. *)
Theorem last_line_wins (key : string) :
  (forall arpOut, get (build_macToIp arpOut) key =
                  last_bound arp_binding key (split newline arpOut)) /\
  (forall ssidOut, get (build_macToSsid ssidOut) key =
                   last_bound ssid_binding key (split newline ssidOut)) /\
  (forall bpOut, get (build_bpToIf bpOut) key =
                 last_bound bp_binding key (split newline bpOut)) /\
  (forall ifNameOut, get (build_ifNames ifNameOut) key =
                     last_bound ifname_binding key (split newline ifNameOut)) /\
  (forall fdbOut qfdbOut,
      (exists line, In line (split newline fdbOut) /\ fdb_binding line <> None) ->
      get (build_macToBp fdbOut qfdbOut) key =
      last_bound fdb_binding key (split newline fdbOut)).
Proof.
  repeat split; intros.
  - unfold build_macToIp, for_each_line.
    rewrite (fold_last_bound arp_binding arp_line arp_line_binds).
    now destruct (last_bound _ _ _).
  - unfold build_macToSsid, for_each_line.
    rewrite (fold_last_bound ssid_binding ssid_line ssid_line_binds).
    now destruct (last_bound _ _ _).
  - unfold build_bpToIf, for_each_line.
    rewrite (fold_last_bound bp_binding bp_line bp_line_binds).
    now destruct (last_bound _ _ _).
  - unfold build_ifNames, for_each_line.
    rewrite (fold_last_bound ifname_binding ifname_line ifname_line_binds).
    now destruct (last_bound _ _ _).
  - unfold build_macToBp, for_each_line.
    destruct (fold_left fdb_line (split newline fdbOut) []) as [|kv rest] eqn:F.
    + exfalso. destruct H as (line & Hl & B). apply B.
      now apply (proj1 (fold_empty_iff fdb_binding fdb_line fdb_line_binds _) F).
    + change (get (kv :: rest) key =
              last_bound fdb_binding key (split newline fdbOut)).
      rewrite <- F.
      rewrite (fold_last_bound fdb_binding fdb_line fdb_line_binds).
      now destruct (last_bound _ _ _).
Qed.

Lemma forallb_rev_append p (a : string) : forall b,
  JsString.forallb p (rev_append a b) = JsString.forallb p a && JsString.forallb p b.
Proof.
  induction a as [|x a IH]; intros b; simpl; [reflexivity|].
  rewrite IH. simpl. now rewrite andb_assoc, (andb_comm (p x)).
Qed.

Lemma forallb_rev p s : JsString.forallb p (rev s) = JsString.forallb p s.
Proof. unfold rev. rewrite forallb_rev_append. simpl. apply andb_true_r. Qed.

Lemma forallb_trimStart p s :
  JsString.forallb p s = true -> JsString.forallb p (trimStart s) = true.
Proof.
  induction s as [|c s IH]; simpl; [reflexivity|].
  intros H. destruct (is_space c); [|exact H].
  apply andb_prop in H as [_ H]. now apply IH.
Qed.

Lemma forallb_trim p s :
  JsString.forallb p s = true -> JsString.forallb p (trim s) = true.
Proof.
  intros H. unfold trim. rewrite forallb_rev. apply forallb_trimStart.
  rewrite forallb_rev. now apply forallb_trimStart.
Qed.

Lemma hex_char_stripped c :
  hex_or_blank c = true -> colon_or_space c = false -> is_lower_hex (lower c) = true.
Proof.
  destruct c as [b0 b1 b2 b3 b4 b5 b6 b7].
  destruct b0, b1, b2, b3, b4, b5, b6, b7; vm_compute; congruence.
Qed.

Lemma strip_hex s :
  JsString.forallb hex_or_blank s = true ->
  JsString.forallb is_lower_hex (strip s) = true.
Proof.
  unfold strip, toLowerCase.
  induction s as [|c s IH]; simpl; [reflexivity|].
  intros H. apply andb_prop in H as [Hc Hs].
  destruct (colon_or_space c) eqn:E; simpl; [now apply IH|].
  now rewrite (hex_char_stripped c Hc E), IH.
Qed.

(** What the pattern of the ARP walk captures. *)
Lemma arp_match_shape line m :
  exec arp_re line = Some m ->
  group 1 m <> "" /\
  JsString.forallb digit_or_dot (group 1 m) = true /\
  JsString.forallb hex_or_blank (group 2 m) = true.
Proof.
  intros E. apply exec_from_sound in E as (before & _ & _ & M).
  revert M. generalize (whole m ++ rest m) as s0. intros s0 M.
  unfold group. destruct m as [i w cs r]. simpl in *.
  unfold arp_re, cat, spaces, digits in M. cbn [fold_right] in M.
  repeat match goal with
         | H : matches (lit _) _ _ _ _ |- _ =>
             apply matches_lit_inv in H as [-> ->]
         | H : matches (Seq _ _) _ _ _ _ |- _ => inversion H; subst; clear H
         | H : matches (Chr _) _ _ _ _ |- _ => inversion H; subst; clear H
         | H : matches Eps _ _ _ _ |- _ => inversion H; subst; clear H
         | H : matches (Eol _) _ _ _ _ |- _ => inversion H; subst; clear H
         | H : matches (Group _ _) _ _ _ _ |- _ => inversion H; subst; clear H
         | H : matches (Star _ (Cls _)) _ _ _ _ |- _ =>
             apply matches_star_cls_inv in H as (? & -> & ? & ->)
         | H : matches (Plus _ (Cls _)) _ _ _ _ |- _ =>
             apply matches_plus_cls_inv in H as (? & -> & ? & ? & ->)
         | H : matches (Opt _) _ _ _ _ |- _ => inversion H; subst; clear H
         end;
    cbn [capture Nat.eqb]; rewrite !consumed_app; auto.
Qed.

Lemma last_line_wins_witness :
  get (build_macToIp Samples.moved_host_arp) "aa:bb:cc:dd:ee:01" = Some "10.0.0.9" /\
  get (build_macToBp Samples.two_ports_fdb Samples.zero_port_qfdb)
      "aa:bb:cc:dd:ee:01" = Some (Int 10).
Proof.
  split.
  - exact (proj1 (last_line_wins "aa:bb:cc:dd:ee:01") Samples.moved_host_arp).
  - apply (proj2 (proj2 (proj2 (proj2 (last_line_wins "aa:bb:cc:dd:ee:01"))))
             Samples.two_ports_fdb Samples.zero_port_qfdb).
    exists ".1.3.6.1.2.1.17.4.3.1.2.170.187.204.221.238.1 = INTEGER: 10".
    split; [vm_compute; tauto | vm_compute; discriminate].
Defined.

Lemma macToIp_last_bound arpOut key :
  get (build_macToIp arpOut) key = last_bound arp_binding key (split newline arpOut).
Proof.
  unfold build_macToIp, for_each_line.
  rewrite (fold_last_bound arp_binding arp_line arp_line_binds).
  now destruct (last_bound _ _ _).
Qed.

Lemma arp_binding_shape line mac ip :
  arp_binding line = Some (mac, ip) -> canonical_mac mac /\ dotted_quad_shape ip.
Proof.
  unfold arp_binding. destruct (exec arp_re line) as [m|] eqn:E; [|discriminate].
  destruct (arp_match_shape line m E) as (N & D & H).
  destruct (List.length (split "." (group 1 m)) =? 4)%nat eqn:L; [|discriminate].
  rewrite macFromHexStr_unfold.
  destruct (length (strip (trim (group 2 m))) =? 12)%nat eqn:L12; simpl; [|discriminate].
  intros [= <- <-]. apply Nat.eqb_eq in L, L12. split.
  - exists (strip (trim (group 2 m))). repeat split; trivial.
    apply strip_hex. now apply forallb_trim.
  - now repeat split.
Qed.

(** X6.  Every binding of the ARP table has a canonical key, six pairs
    of lowercase hex digits joined by colons, and a value made of
    digits and dots in four pieces, not empty.  The pieces themselves
    are not checked: one of them may be empty or exceed 255. *)
Theorem arp_table_shape (arpOut mac ip : string) :
  get (build_macToIp arpOut) mac = Some ip ->
  canonical_mac mac /\ dotted_quad_shape ip.
Proof.
  rewrite macToIp_last_bound. intros H.
  apply last_bound_some in H as (line & _ & B).
  now apply arp_binding_shape in B.
Qed.

Lemma arp_table_shape_witness :
  canonical_mac "aa:bb:cc:dd:ee:01" /\ dotted_quad_shape "10.0.0.9".
Proof.
  apply (arp_table_shape Samples.moved_host_arp). vm_compute. reflexivity.
Defined.

Lemma macToIp_resolved arpOut key :
  resolved (build_macToIp arpOut) key =
  last_bound arp_binding key (split newline arpOut).
Proof.
  unfold resolved. rewrite <- macToIp_last_bound.
  destruct (get (build_macToIp arpOut) key) as [ip|] eqn:G; [|reflexivity].
  rewrite macToIp_last_bound in G.
  apply last_bound_some in G as (line & _ & B).
  apply arp_binding_shape in B as [_ [N _]].
  apply String.eqb_neq in N. now rewrite N.
Qed.

(** X7.  In the result of either strategy, the ip of an entry is the
    address of the last line of the ARP walk, in text order, whose
    hardware address decodes to the MAC of the entry, and null when
    there is no such line. *)
Theorem entry_ip_from_arp (cmp : string -> string -> comparison)
    (fdbOut qfdbOut bpOut ifNameOut clientOut ssidOut arpOut : string) (e : entry) :
  In e (bridge_entries cmp fdbOut qfdbOut bpOut ifNameOut arpOut) \/
  In e (wlan_entries cmp clientOut ssidOut arpOut) ->
  ip e = last_bound arp_binding (mac e) (split newline arpOut).
Proof.
  intros [H|H].
  - apply bridge_entries_in in H as ([m bp] & _ & ->). simpl.
    rewrite or_null_resolved. apply macToIp_resolved.
  - unfold wlan_entries in H. apply sort_in, in_map_iff in H as (c & <- & _).
    simpl. rewrite or_null_resolved. apply macToIp_resolved.
Qed.

Lemma qfdb_line_nodup macToBp line :
  NoDup (keys macToBp) -> NoDup (keys (qfdb_line macToBp line)).
Proof.
  intros ND. rewrite qfdb_line_binding.
  destruct (qfdb_binding line) as [[m p]|]; [|exact ND].
  destruct (falsy_port (get macToBp m)); [now apply keys_set_nodup | exact ND].
Qed.

Lemma fdb_line_nodup macToBp line :
  NoDup (keys macToBp) -> NoDup (keys (fdb_line macToBp line)).
Proof.
  intros ND. rewrite fdb_line_binds.
  destruct (fdb_binding line) as [[m p]|]; [now apply keys_set_nodup | exact ND].
Qed.

Lemma fold_nodup (body : obj number -> string -> obj number) lines :
  (forall acc line, NoDup (keys acc) -> NoDup (keys (body acc line))) ->
  forall acc, NoDup (keys acc) -> NoDup (keys (fold_left body lines acc)).
Proof.
  intros Step. induction lines as [|line lines IH]; intros acc ND; simpl; auto.
Qed.

Lemma build_macToBp_nodup fdbOut qfdbOut : NoDup (keys (build_macToBp fdbOut qfdbOut)).
Proof.
  unfold build_macToBp, for_each_line.
  assert (C : NoDup (keys (fold_left fdb_line (split newline fdbOut) [])))
    by (apply fold_nodup; [apply fdb_line_nodup | constructor]).
  destruct (List.length (keys (fold_left fdb_line (split newline fdbOut) [])) =? 0)%nat;
    [|exact C].
  apply fold_nodup; [apply qfdb_line_nodup | exact C].
Qed.

Lemma bridge_entry_meets_spec bpToIf ifNames macToIp kv :
  bridge_entry bpToIf ifNames macToIp kv = bridge_entry_spec bpToIf ifNames macToIp kv.
Proof.
  pose proof (bridge_entry_portName bpToIf ifNames macToIp kv) as P.
  destruct kv as [m bp]. unfold bridge_entry_spec. simpl in *.
  unfold bridge_entry in *. simpl in *. rewrite P, or_null_resolved. reflexivity.
Qed.

(** X8.  The bridge resolution makes exactly one entry of each MAC of
    the forwarding table: up to their order, the entries are the MACs
    with their recorded bridge port, the port name the join finds and
    the ARP-resolved address or null; no MAC occurs in two entries. *)
Theorem bridge_entries_one_per_mac (cmp : string -> string -> comparison)
    (fdbOut qfdbOut bpOut ifNameOut arpOut : string) :
  Permutation
    (bridge_entries cmp fdbOut qfdbOut bpOut ifNameOut arpOut)
    (List.map (bridge_entry_spec (build_bpToIf bpOut) (build_ifNames ifNameOut)
                                 (build_macToIp arpOut))
              (build_macToBp fdbOut qfdbOut)) /\
  NoDup (List.map mac (bridge_entries cmp fdbOut qfdbOut bpOut ifNameOut arpOut)).
Proof.
  assert (P : Permutation
                (bridge_entries cmp fdbOut qfdbOut bpOut ifNameOut arpOut)
                (List.map (bridge_entry_spec (build_bpToIf bpOut)
                             (build_ifNames ifNameOut) (build_macToIp arpOut))
                          (build_macToBp fdbOut qfdbOut))).
  { unfold bridge_entries, Obj.entries. rewrite (sort_perm cmp).
    erewrite map_ext; [apply Permutation_refl|].
    intros kv. apply bridge_entry_meets_spec. }
  split; [exact P|].
  apply (Permutation_NoDup (Permutation_map mac (Permutation_sym P))).
  rewrite map_map. simpl. apply build_macToBp_nodup.
Qed.

Lemma entry_ip_from_arp_witness :
  ip Samples.moved_host_entry =
  last_bound arp_binding "aa:bb:cc:dd:ee:01" (split newline Samples.moved_host_arp).
Proof.
  apply (entry_ip_from_arp Collation.numericCompare Samples.two_ports_fdb ""
           Samples.two_ports_bp Samples.two_ports_ifnames "" ""
           Samples.moved_host_arp Samples.moved_host_entry).
  left. vm_compute. tauto.
Defined.

Lemma get_well_keyed clients k c :
  well_keyed clients -> get clients k = Some c -> c_mac c = k.
Proof. intros [_ H] G. apply H. now apply get_in. Qed.

(** The effect of one line on the channel and band recorded for a MAC. *)
Lemma client_line_columns clients line mac :
  well_keyed clients ->
  let before := get clients mac in
  let after := get (client_line clients line) mac in
  let pick (field : client -> option number) (o : option client) :=
    match o with Some c => field c | None => None end in
  let update col field :=
    match column_binding col line with
    | Some (k, v) => if String.eqb k mac then Some v else pick field before
    | None => pick field before
    end in
  pick channel after = update 2%Z channel /\ pick band after = update 3%Z band.
Proof.
  intros WK. cbv zeta.
  unfold column_binding, client_line_mac, client_line_value, client_line.
  destruct (exec client_re line) as [m|]; [|now split].
  rewrite macFromDecOid_truthy.
  destruct (macFromDecOid (group 2 m)) as [k|]; [|now split].
  set (col := parseInt None (group 1 m)).
  set (fresh := {| c_mac := k; channel := None; band := None |}).
  set (clients1 := match get clients k with
                   | Some _ => clients
                   | None => set clients k fresh
                   end).
  assert (G1 : forall field : client -> option number, field fresh = None ->
                 match get clients1 mac with Some c => field c | None => None end =
                 match get clients mac with Some c => field c | None => None end).
  { intros field Hf. subst clients1. destruct (get clients k) eqn:G; [reflexivity|].
    destruct (string_dec k mac) as [->|N].
    - now rewrite get_set_same, G.
    - now rewrite get_set_other. }
  assert (Gk : exists c, get clients1 k = Some c /\
                         match get clients k with Some c0 => c = c0 | None => c = fresh end).
  { subst clients1. destruct (get clients k) as [c0|] eqn:G.
    - eauto.
    - exists fresh. now rewrite get_set_same. }
  destruct Gk as (c & Gc & Hc). rewrite Gc.
  destruct (exec number_re (trim (group 3 m))) as [n|].
  - destruct (String.eqb k mac) eqn:E.
    + apply String.eqb_eq in E. subst mac. rewrite get_set_same.
      assert (Cc : channel c = match get clients k with
                               | Some c0 => channel c0 | None => None end)
        by (destruct (get clients k); now subst c).
      assert (Bc : band c = match get clients k with
                            | Some c0 => band c0 | None => None end)
        by (destruct (get clients k); now subst c).
      destruct col as [|z]; simpl; [now rewrite Cc, Bc|].
      destruct (z =? 2)%Z eqn:E2, (z =? 3)%Z eqn:E3; simpl;
        rewrite ?String.eqb_refl, ?Cc, ?Bc;
        try (apply Z.eqb_eq in E2, E3; lia); split; trivial.
    + pose proof E as E'. apply String.eqb_neq in E.
      rewrite get_set_other by exact E.
      split; [rewrite (G1 channel eq_refl) | rewrite (G1 band eq_refl)];
        destruct (strict_eq col _); simpl; now rewrite ?E'.
  - split; [rewrite (G1 channel eq_refl) | rewrite (G1 band eq_refl)];
      now destruct (strict_eq col _).
Qed.

Lemma client_lines_columns lines : forall clients mac,
  well_keyed clients ->
  let pick (field : client -> option number) (o : option client) :=
    match o with Some c => field c | None => None end in
  let final col field :=
    match last_bound (column_binding col) mac lines with
    | Some v => Some v
    | None => pick field (get clients mac)
    end in
  pick channel (get (fold_left client_line lines clients) mac) = final 2%Z channel /\
  pick band (get (fold_left client_line lines clients) mac) = final 3%Z band.
Proof.
  induction lines as [|line lines IH]; intros clients mac WK; cbv zeta; simpl.
  - now split.
  - destruct (client_line_effect clients line WK) as [WK1 _].
    destruct (IH (client_line clients line) mac WK1) as [C B]. cbv zeta in C, B.
    destruct (client_line_columns clients line mac WK) as [C1 B1]. cbv zeta in C1, B1.
    rewrite C, B, C1, B1.
    split.
    + destruct (last_bound (column_binding 2) mac lines); [reflexivity|].
      destruct (column_binding 2 line) as [[k v]|]; [|reflexivity].
      now destruct (String.eqb k mac).
    + destruct (last_bound (column_binding 3) mac lines); [reflexivity|].
      destruct (column_binding 3 line) as [[k v]|]; [|reflexivity].
      now destruct (String.eqb k mac).
Qed.

(** X9.  The record the WLAN client table keeps for a MAC carries that
    MAC; its channel is the number in the last line of column 2, in
    text order, that decodes to the MAC and holds digits, and its band
    the number in the last such line of column 3; each is null when
    there is no such line.  Lines of other columns register the client
    and leave channel and band as they are. *)
Theorem client_record_columns (clientOut mac : string) (c : client) :
  get (build_clients clientOut) mac = Some c ->
  c_mac c = mac /\
  channel c = last_bound (column_binding 2) mac (split newline clientOut) /\
  band c = last_bound (column_binding 3) mac (split newline clientOut).
Proof.
  intros G. split.
  - apply (get_well_keyed _ _ _ (proj1 (build_clients_keys clientOut)) G).
  - unfold build_clients, for_each_line in G.
    destruct (client_lines_columns (split newline clientOut) [] mac) as [C B].
    { split; [constructor | intros k c0 []]. }
    cbv zeta in C, B. rewrite G in C, B. simpl in C, B.
    split.
    + rewrite C.
      now destruct (last_bound (column_binding 2) mac (split newline clientOut)).
    + rewrite B.
      now destruct (last_bound (column_binding 3) mac (split newline clientOut)).
Qed.

Lemma client_record_columns_witness :
  channel Samples.roaming_client =
    last_bound (column_binding 2) "aa:bb:cc:dd:ee:01"
               (split newline Samples.roaming_clients) /\
  band Samples.roaming_client = None.
Proof.
  destruct (client_record_columns Samples.roaming_clients "aa:bb:cc:dd:ee:01"
              Samples.roaming_client) as (_ & C & B).
  - vm_compute. reflexivity.
  - split; [exact C | rewrite B; vm_compute; reflexivity].
Defined.

End TableFacts.

(** ** The HTTP endpoints *)

Module HttpFacts.
Import JsString JsNumber Regex Walk Obj Snmp Http SpecTerms StringFacts WalkFacts
       RegexFacts MatcherFacts TestFacts ResolverFacts OutcomeFacts.

(** A pattern [^[class]+$] accepts the texts that are not empty and
    hold characters of the class only. *)
Lemma test_whitelist (p : ascii -> bool) (s : string) :
  test_at_start (cat [Plus true (Cls p); Eol false]) s =
  JsString.truthy s && JsString.forallb p s.
Proof.
  unfold test_at_start, cat. cbn [fold_right].
  destruct (rmatch _ s [] _) as [a|] eqn:E.
  - apply rmatch_sound in E as (s' & cs' & M & _).
    inversion M as [| | |? ? ? ? ? ? ? ? M1 M2| | | | | | |]; subst.
    apply matches_plus_cls_inv in M1 as (u & -> & Hu & Hp & ->).
    inversion M2 as [| | |? ? ? ? ? ? ? ? M3 M4| | | | | | |]; subst.
    inversion M3; subst. inversion M4; subst.
    match goal with H : at_end false _ = true |- _ => rename H into He end.
    destruct s'; [|discriminate]. rewrite append_empty_r, Hp.
    destruct u; [congruence | reflexivity].
  - destruct (JsString.truthy s && JsString.forallb p s) eqn:B; [|reflexivity].
    exfalso. apply andb_prop in B as [T F].
    assert (M : matches (Seq (Plus true (Cls p)) (Seq (Eol false) Eps))
                        (s ++ "") [] "" []).
    { eapply M_Seq; [apply matches_plus_cls_intro; [now destruct s | exact F]|].
      eapply M_Seq; [now apply M_Eol | apply M_Eps]. }
    rewrite append_empty_r in M.
    now apply (rmatch_complete _ _ _ _ _ (fun s' cs => Some (cs, s')) M).
Qed.

Lemma check_spec (allowed : ascii -> bool) (v : value) :
  check (cat [Plus true (Cls allowed); Eol false]) v =
  if unreadable v then Raises
  else if acceptable allowed v then Passes (text_or_empty v) else Fails.
Proof.
  unfold check, unreadable, acceptable, text_or_empty.
  destruct (value_truthy v); [|reflexivity].
  destruct (value_text v) as [text|]; [|reflexivity].
  rewrite test_whitelist. simpl.
  now destruct (JsString.truthy text && JsString.forallb allowed text).
Qed.

Lemma acceptable_readable (allowed : ascii -> bool) (v : value) :
  acceptable allowed v = true -> unreadable v = false.
Proof.
  unfold acceptable, unreadable. destruct (value_truthy v); [|reflexivity].
  now destruct (value_text v).
Qed.

Lemma acceptable_text (allowed : ascii -> bool) (v : value) :
  acceptable allowed v = true ->
  text_or_empty v <> EmptyString /\
  JsString.forallb allowed (text_or_empty v) = true.
Proof.
  unfold acceptable, text_or_empty. intros H.
  apply andb_prop in H as [_ H]. destruct (value_text v) as [text|]; [|discriminate].
  apply andb_prop in H as [T F]. split; [|exact F]. now destruct text.
Qed.

Lemma is_text_eq (v : value) (text : string) :
  is_text v text = true -> v = Str text.
Proof.
  destruct v as [|s|t s|]; simpl; try discriminate.
  now intros ->%String.eqb_eq.
Qed.

Lemma version_text (v : value) :
  is_text v "1" || is_text v "2c" = true ->
  text_or_empty v = "1" \/ text_or_empty v = "2c".
Proof.
  intros [H|H]%orb_prop; apply is_text_eq in H; subst; auto.
Qed.

Lemma route_snmp method pathname :
  route_of method pathname = SnmpQuery -> method = "POST" /\ pathname = "/snmp".
Proof.
  unfold route_of. destruct (String.eqb method "OPTIONS"); [discriminate|].
  destruct (String.eqb pathname "/api" && String.eqb method "POST"); [discriminate|].
  destruct (String.eqb pathname "/snmp" && String.eqb method "POST") eqn:E;
    [|discriminate].
  apply andb_prop in E as [P Q]. apply String.eqb_eq in P, Q. now split.
Qed.

Section Queries.
Variable w : world.
Variable cmp : string -> string -> comparison.

Lemma table_only_adds host community version :
  only_adds (fun call =>
               In call (walks_of host community version (bridge_oids ++ wlan_oids)))
            (snmpMacTable w cmp host community version).
Proof.
  assert (W : forall oid,
             In oid (bridge_oids ++ wlan_oids)%list ->
             only_adds (fun call =>
                          In call (walks_of host community version
                                            (bridge_oids ++ wlan_oids)))
                       (runSnmpWalk w host community version oid)).
  { intros oid Ho. eapply only_adds_weaken; [|apply walk_only_adds].
    intros call ->. unfold walks_of. now apply in_map. }
  apply bind_only_adds.
  - repeat apply both_only_adds; apply W; simpl; auto 10.
  - intros [a [b [c [d f]]]]. cbv zeta.
    destruct (List.length (bridge_entries cmp a b c d f) =? 0)%nat.
    + unfold snmpLancomWlanClients. apply bind_only_adds.
      * repeat apply both_only_adds; apply W; simpl; auto 10.
      * intros [x [y z]]. apply ret_only_adds.
    + apply ret_only_adds.
Qed.

Lemma test_only_adds host community version :
  only_adds (fun call => call = walk_command host community version "1.3.6.1.2.1.1.1.0")
            (snmpTest w host community version).
Proof.
  apply bind_only_adds; [apply walk_only_adds|]. intros a. apply ret_only_adds.
Qed.

Lemma test_rejects_as_thrown host community version :
  rejects_as_thrown w (snmpTest w host community version).
Proof.
  apply bind_rejects_as_thrown; [apply walk_rejects_as_thrown|].
  intros a. apply ret_rejects_as_thrown.
Qed.

Lemma answered_bind {A} (m : M A) (wrap : A -> content) log :
  try_catch (bind m (fun result => ret {| status := 200; body := wrap result |}))
            (fun message => ret {| status := 502; body := ErrorMessage message |}) log =
  (answered wrap (fst (m log)), snd (m log)).
Proof.
  unfold try_catch, bind, ret. now destruct (m log) as [[|x|e] l].
Qed.

(** Past the three checks, the endpoint waits for the table or for the
    test, or refuses the type. *)
Lemma snmp_endpoint_passed props log :
  passes_checks props = true ->
  let host := text_or_empty (props "host") in
  let community := text_or_empty (with_default (props "community") "public") in
  let version := text_or_empty (with_default (props "version") "2c") in
  let type := with_default (props "type") "mac-table" in
  snmp_endpoint w cmp (JsonValue props) log =
  if is_text type "mac-table" then
    (answered Table (fst (snmpMacTable w cmp host community version log)),
     snd (snmpMacTable w cmp host community version log))
  else if is_text type "test" then
    (answered Test (fst (snmpTest w host community version log)),
     snd (snmpTest w host community version log))
  else (Fulfilled (bad_request "Unbekannter Typ"), log).
Proof.
  unfold passes_checks. intros H.
  apply andb_prop in H as [H V]. apply andb_prop in H as [Hh Hc].
  cbv zeta. unfold snmp_endpoint, host_re, community_re.
  rewrite !check_spec, Hh, Hc.
  rewrite (acceptable_readable _ _ Hh), (acceptable_readable _ _ Hc).
  destruct (with_default (props "version") "2c") as [|v|t v|]; try discriminate.
  unfold is_text in V. rewrite V. cbn [negb text_or_empty value_text].
  destruct (is_text (with_default (props "type") "mac-table") "mac-table");
    [apply answered_bind|].
  destruct (is_text (with_default (props "type") "mac-table") "test");
    [apply answered_bind | reflexivity].
Qed.

(** A check that throws rejects the promise of the listener, before
    anything is started. *)
Lemma snmp_endpoint_raised props log :
  check_raises props = true ->
  snmp_endpoint w cmp (JsonValue props) log = (Rejected "TypeError", log).
Proof.
  unfold check_raises, snmp_endpoint, host_re, community_re. intros H.
  rewrite !check_spec.
  destruct (unreadable (props "host")); [reflexivity|].
  destruct (acceptable host_char (props "host")); [|discriminate].
  simpl in H. now rewrite H.
Qed.

(** Short of the three checks, the endpoint answers 400 and starts
    nothing. *)
Lemma snmp_endpoint_refused props log :
  check_raises props = false -> passes_checks props = false ->
  exists message,
    snmp_endpoint w cmp (JsonValue props) log = (Fulfilled (bad_request message), log).
Proof.
  unfold check_raises, passes_checks, snmp_endpoint, host_re, community_re.
  intros R H. rewrite !check_spec.
  destruct (unreadable (props "host")); [discriminate|].
  destruct (acceptable host_char (props "host"));
    [|eexists; reflexivity].
  simpl in R. rewrite R.
  destruct (acceptable community_char _); [|eexists; reflexivity].
  simpl in H.
  destruct (with_default (props "version") "2c") as [|v|t v|];
    try (eexists; reflexivity).
  unfold is_text in H. rewrite H. eexists. reflexivity.
Qed.

Lemma passed_not_raised props :
  passes_checks props = true -> check_raises props = false.
Proof.
  unfold passes_checks, check_raises. intros H.
  apply andb_prop in H as [H V]. apply andb_prop in H as [Hh Hc].
  now rewrite (acceptable_readable _ _ Hh), (acceptable_readable _ _ Hc), Hh.
Qed.

(** X10.  The [/snmp] endpoint checks host, community and version in
    this order, before any process is started, and answers 400 with
    the message of the first check that fails.  A host or community
    passes when it is truthy and its text is not empty and holds only
    characters of the whitelist; for a truthy value without text
    (such as an object with a property [toString]) the check throws
    before the [try] block: the promise of the listener rejects and
    nothing is answered.  A version passes when it is the string 1 or
    2c; the defaults stand in for absent properties only.  A type
    other than mac-table and test is refused last. *)
Theorem snmp_request_checks (props : string -> value) (log : list spawn_call) :
  let host := props "host" in
  let community := with_default (props "community") "public" in
  let version := with_default (props "version") "2c" in
  let type := with_default (props "type") "mac-table" in
  let refused message :=
    snmp_endpoint w cmp (JsonValue props) log = (Fulfilled (bad_request message), log) in
  let raised :=
    exists reason, snmp_endpoint w cmp (JsonValue props) log = (Rejected reason, log) in
  (unreadable host = true -> raised) /\
  (unreadable host = false -> acceptable host_char host = false ->
   refused ("Ung" ++ String ue "ltige Host-Adresse")) /\
  (acceptable host_char host = true -> unreadable community = true -> raised) /\
  (acceptable host_char host = true -> unreadable community = false ->
   acceptable community_char community = false ->
   refused ("Ung" ++ String ue "ltiger Community-String")) /\
  (acceptable host_char host = true ->
   acceptable community_char community = true ->
   is_text version "1" || is_text version "2c" = false ->
   refused "Version muss 1 oder 2c sein") /\
  (acceptable host_char host = true ->
   acceptable community_char community = true ->
   is_text version "1" || is_text version "2c" = true ->
   is_text type "mac-table" || is_text type "test" = false ->
   refused "Unbekannter Typ").
Proof.
  cbv zeta. split; [|split; [|split; [|split; [|split]]]].
  - intros Hh. exists "TypeError". apply snmp_endpoint_raised.
    unfold check_raises. now rewrite Hh.
  - intros Hr Hh. unfold snmp_endpoint, host_re. now rewrite check_spec, Hr, Hh.
  - intros Hh Hc. exists "TypeError". apply snmp_endpoint_raised.
    unfold check_raises. rewrite Hh, Hc. apply orb_true_r.
  - intros Hh Hr Hc. unfold snmp_endpoint, host_re, community_re.
    now rewrite !check_spec, (acceptable_readable _ _ Hh), Hh, Hr, Hc.
  - intros Hh Hc Hv. unfold snmp_endpoint, host_re, community_re.
    rewrite !check_spec, (acceptable_readable _ _ Hh), Hh,
      (acceptable_readable _ _ Hc), Hc.
    destruct (with_default (props "version") "2c") as [|v|t v|]; try reflexivity.
    unfold is_text in Hv. now rewrite Hv.
  - intros Hh Hc Hv Ht. apply orb_false_elim in Ht as [T1 T2].
    rewrite snmp_endpoint_passed by (unfold passes_checks; now rewrite Hh, Hc, Hv).
    cbv zeta. now rewrite T1, T2.
Qed.

Lemma snmp_endpoint_log input log call :
  In call (snd (snmp_endpoint w cmp input log)) ->
  In call log \/ checked_command call.
Proof.
  destruct input as [| |props]; try (now left).
  destruct (passes_checks props) eqn:P.
  - rewrite (snmp_endpoint_passed props log P). cbv zeta.
    unfold passes_checks in P.
    apply andb_prop in P as [P V]. apply andb_prop in P as [Hh Hc].
    apply acceptable_text in Hh as [Nh Fh]. apply acceptable_text in Hc as [Nc Fc].
    apply version_text in V.
    assert (W : forall oid,
               In oid walked_oids ->
               checked_command
                 (walk_command (text_or_empty (props "host"))
                    (text_or_empty (with_default (props "community") "public"))
                    (text_or_empty (with_default (props "version") "2c")) oid)).
    { intros oid Ho. eexists _, _, _, oid. repeat split; eauto. }
    destruct (is_text _ "mac-table"); [|destruct (is_text _ "test")]; simpl.
    + intros H. apply table_only_adds in H as [H|H]; auto. right.
      apply in_map_iff in H as (oid & <- & Ho). apply W.
      unfold walked_oids. rewrite app_assoc. apply in_or_app. now left.
    + intros H. apply test_only_adds in H as [H| ->]; auto. right.
      apply W. unfold walked_oids. apply in_or_app. right.
      apply in_or_app. right. now left.
    + now left.
  - destruct (check_raises props) eqn:R.
    + rewrite (snmp_endpoint_raised props log R). now left.
    + destruct (snmp_endpoint_refused props log R P) as [message ->]. now left.
Qed.


(** X11.  Whatever the request and whatever the device does, every
    process the server starts for a request belongs to a [POST] of
    [/snmp], and its command line is built from checked parts: a host
    and a community that are not empty and hold whitelisted characters
    only, the version 1 or 2c, and one of the nine OID roots of the
    bridge tables, the WLAN client tables and sysDescr. *)
Theorem spawned_commands_checked
        (toUpperCase : string -> string)
        (proxyRequest : proxy_call -> promise (nat * string))
        (static_file : string -> reply)
        (method pathname : string) (input : parsed)
        (log : list spawn_call) (call : spawn_call) :
  In call (snd (server w cmp toUpperCase proxyRequest static_file
                       method pathname input log)) ->
  In call log \/ (method = "POST" /\ pathname = "/snmp" /\ checked_command call).
Proof.
  unfold server. destruct (route_of method pathname) eqn:R; simpl; auto.
  intros H. apply snmp_endpoint_log in H as [H|H]; auto.
  right. apply route_snmp in R as [-> ->]. auto.
Qed.

Lemma table_run host community version log :
  responsive w ->
  exists t, snmpMacTable w cmp host community version log =
            (Fulfilled t, snd (snmpMacTable w cmp host community version log)).
Proof.
  intros alive. rewrite (bridge_run w cmp alive host community version log).
  cbv zeta. destruct (_ =? 0)%nat.
  - rewrite (wlan_run w cmp alive host community version). eauto.
  - eauto.
Qed.


End Queries.

Lemma services_prefix name url :
  get SERVICES name = Some url ->
  url = "https://cloud.lancom.de/cloud-service-" ++ name.
Proof.
  unfold SERVICES. cbn [get].
  repeat (destruct (String.eqb name _) eqn:E;
          [apply String.eqb_eq in E; subst name; now intros [= <-]|clear E]).
  discriminate.
Qed.

Lemma service_truthy name :
  value_truthy (service_lookup name) = service_found name.
Proof.
  unfold service_lookup, service_found, found_names, inherited_names, SERVICES.
  cbn [get List.existsb].
  repeat match goal with
         | |- context [String.eqb name ?k] =>
             destruct (String.eqb name k) eqn:?; cbn [orb]; [reflexivity|]
         end.
  reflexivity.
Qed.

Lemma lookup_text name :
  value_truthy (service_lookup name) = true ->
  exists base, value_text (service_lookup name) = Some base.
Proof.
  unfold service_lookup. destruct (get SERVICES name); [simpl; eauto|].
  destruct (List.existsb (String.eqb name) inherited_names);
    [simpl; eauto | discriminate].
Qed.

Section Proxy.
Variable toUpperCase : string -> string.
Variable proxyRequest : proxy_call -> promise (nat * string).

(** The three ways of the [/api] listener: it refuses, it throws, or
    it makes its one call. *)
Lemma api_endpoint_cases props :
  (api_refused props = true /\ api_raises props = false /\
   api_endpoint toUpperCase proxyRequest (JsonValue props) =
   (Fulfilled (bad_request "Missing api_key, service or path"), [])) \/
  (api_refused props = false /\ api_raises props = true /\
   api_endpoint toUpperCase proxyRequest (JsonValue props) =
   (Rejected "TypeError", [])) \/
  (api_refused props = false /\ api_raises props = false /\
   (exists call,
       snd (api_endpoint toUpperCase proxyRequest (JsonValue props)) = [call]) /\
   forall e, fst (api_endpoint toUpperCase proxyRequest (JsonValue props))
             <> Rejected e).
Proof.
  unfold api_endpoint, api_refused, api_raises, all_given, unreadable.
  cbv zeta.
  destruct (value_truthy (props "api_key")); [|now left].
  destruct (value_truthy (props "service")); [|now left].
  destruct (value_truthy (props "path")); [|now left].
  cbn [negb orb andb].
  destruct (value_text (props "service")) as [name|]; [|right; left; auto].
  rewrite service_truthy. destruct (service_found name) eqn:F; [|now left].
  destruct (lookup_text name) as [base ->]; [now rewrite service_truthy|].
  cbn [negb orb andb].
  destruct (value_text (props "path")) as [path|]; [|right; left; auto].
  destruct (with_default (props "method") "GET") as [|m|t x|];
    try (right; left; auto; fail).
  right. right. repeat split.
  - eexists. reflexivity.
  - intros e. cbn [fst].
    destruct (proxyRequest _) as [|[code text]|message]; try discriminate.
    destruct (_ && _); discriminate.
Qed.

(** X14.  The [/api] endpoint answers 400 without calling the upstream
    exactly when the key, the service or the path is falsy, or the
    text of the service is none of the names that [SERVICES[service]]
    finds.  These are the ten services and also the twelve names every
    object inherits, such as [constructor]: a request for one of those
    is not refused here.  Neither is a request whose truthy service
    has no text: there the lookup throws. *)
Theorem api_request_checks (props : string -> value) :
  api_endpoint toUpperCase proxyRequest (JsonValue props) =
  (Fulfilled (bad_request "Missing api_key, service or path"), [])
  <-> api_refused props = true.
Proof.
  destruct (api_endpoint_cases props)
    as [(R & _ & E)|[(R & _ & E)|(R & _ & [call E] & _)]].
  - now rewrite E, R.
  - rewrite E, R. split; discriminate.
  - rewrite R. split; [|discriminate].
    intros H. rewrite H in E. discriminate.
Qed.

(** X15.  A request for one of the ten services, with a truthy key, a
    truthy path that has a text, and a method that is a string (or
    absent, which stands for GET), makes exactly one upstream call: to
    the base URL of the service followed by the text of the path, with
    the upper-cased method, the key, and the body or [null].  The
    status and the body of the upstream answer are passed on as they
    are, error statuses included; a status that [writeHead] does not
    take (below 100 or above 999) and a failed exchange are answered
    502 with the message of the error; while the exchange is pending
    there is no answer. *)
Theorem api_relay (props : string -> value) (name path method : string) :
  value_truthy (props "api_key") = true ->
  value_truthy (props "service") = true ->
  value_text (props "service") = Some name ->
  In name (keys SERVICES) ->
  value_truthy (props "path") = true ->
  value_text (props "path") = Some path ->
  with_default (props "method") "GET" = Str method ->
  let call :=
    {| target := ("https://cloud.lancom.de/cloud-service-" ++ name) ++ path;
       http_method := toUpperCase method;
       api_key := props "api_key";
       payload := or_json_null (props "body") |} in
  let answer := api_endpoint toUpperCase proxyRequest (JsonValue props) in
  snd answer = [call] /\
  (forall code text,
      proxyRequest call = Fulfilled (code, text) -> 100 <= code <= 999 ->
      fst answer = Fulfilled {| status := code; body := Raw text |}) /\
  (forall code text,
      proxyRequest call = Fulfilled (code, text) -> code < 100 \/ 999 < code ->
      fst answer =
      Fulfilled {| status := 502;
                   body := ErrorMessage
                             ("Upstream error: Invalid status code: "
                              ++ toString 10 (Int (Z.of_nat code))) |}) /\
  (forall message,
      proxyRequest call = Rejected message ->
      fst answer =
      Fulfilled {| status := 502;
                   body := ErrorMessage ("Upstream error: " ++ message) |}) /\
  (proxyRequest call = Pending -> fst answer = Pending).
Proof.
  intros Hk Hs Hn Hin Hp Ht Hm. cbv zeta.
  assert (L : service_lookup name =
              Str ("https://cloud.lancom.de/cloud-service-" ++ name)).
  { unfold service_lookup. destruct (get SERVICES name) as [url|] eqn:E.
    - now rewrite (services_prefix name url E).
    - exfalso. revert E. unfold SERVICES in *. simpl in Hin.
      repeat (destruct Hin as [<-|Hin]; [discriminate|]). contradiction. }
  unfold api_endpoint. cbv zeta.
  rewrite Hk, Hs, Hp, Hn, Ht, Hm, L. cbn [negb orb value_truthy value_text].
  assert (T : JsString.truthy ("https://cloud.lancom.de/cloud-service-" ++ name)
              = true) by reflexivity.
  rewrite T. cbn [negb].
  repeat split.
  - intros code text -> [Lo Hi].
    apply Nat.leb_le in Lo, Hi. now rewrite Lo, Hi.
  - intros code text -> Out.
    destruct (100 <=? code)%nat eqn:Lo; [|reflexivity].
    destruct (code <=? 999)%nat eqn:Hi; [|reflexivity].
    apply Nat.leb_le in Lo, Hi. lia.
  - intros message ->. reflexivity.
  - intros ->. reflexivity.
Qed.

(** X16.  The [/api] listener calls the upstream at most once.  Its
    promise rejects, so that no reply is written, exactly when the
    body parses to [null], or when key, service and path are truthy
    and the service has no text, or it is found and the path has no
    text (both throw before the [try] block) or the method is no
    string ([method.toUpperCase()] throws in the [try] block and again
    in the [catch] block).  In all these cases the upstream is not
    called. *)
Theorem api_endpoint_outcomes (input : parsed) :
  let answer := api_endpoint toUpperCase proxyRequest input in
  List.length (snd answer) <= 1 /\
  ((exists reason, fst answer = Rejected reason) <->
   input = JsonNull \/
   exists props, input = JsonValue props /\ api_raises props = true) /\
  (forall reason, fst answer = Rejected reason -> snd answer = []).
Proof.
  cbv zeta. destruct input as [| |props].
  - simpl. repeat split; try lia; try discriminate.
    + intros [e H]. discriminate.
    + intros [H|(props & H & _)]; discriminate.
  - simpl. repeat split; try lia; eauto.
  - destruct (api_endpoint_cases props)
      as [(_ & R & E)|[(_ & R & E)|(_ & R & [call E] & N)]].
    + rewrite E. simpl. repeat split; try lia; try discriminate.
      * intros [e H]. discriminate.
      * intros [H|(props' & [= <-] & R')]; [discriminate|congruence].
    + rewrite E. simpl. repeat split; try lia; eauto.
    + rewrite E. simpl. repeat split; try lia.
      * intros [e H]. now elim (N e).
      * intros [H|(props' & [= <-] & R')]; [discriminate|congruence].
      * intros e H. now elim (N e).
Qed.

End Proxy.

Lemma snmp_request_checks_witness :
  snmp_endpoint Samples.switch Collation.numericCompare
                (Samples.only_host "192.0.2.1;reboot") [] =
  (Fulfilled (bad_request ("Ung" ++ String ue "ltige Host-Adresse")), []).
Proof.
  exact (proj1 (proj2 (snmp_request_checks Samples.switch Collation.numericCompare
                         (fun name => if String.eqb name "host"
                                      then Str "192.0.2.1;reboot" else Undefined) []))
           eq_refl eq_refl).
Defined.

Lemma spawned_commands_checked_witness :
  In (walk_command "192.0.2.1" "public" "2c" "1.3.6.1.2.1.17.1.4.1.2") [] \/
  ("POST" = "POST" /\ "/snmp" = "/snmp" /\
   checked_command (walk_command "192.0.2.1" "public" "2c" "1.3.6.1.2.1.17.1.4.1.2")).
Proof.
  apply (spawned_commands_checked Samples.switch Collation.numericCompare
           Samples.ascii_upper Samples.upstream_404 Samples.no_files
           "POST" "/snmp" (Samples.only_host "192.0.2.1") []).
  vm_compute. right. right. left. reflexivity.
Defined.



Lemma api_relay_witness :
  api_endpoint Samples.ascii_upper Samples.upstream_404
    (Samples.api_request (Str "secret") (Str "devices") (Str "/accounts") (Str "get")) =
  (Fulfilled {| status := 404; body := Raw "not found" |},
   [{| target := "https://cloud.lancom.de/cloud-service-devices/accounts";
       http_method := "GET"; api_key := Str "secret";
       payload := Other false "null" |}]).
Proof.
  destruct (api_relay Samples.ascii_upper Samples.upstream_404
              (fun name => if String.eqb name "api_key" then Str "secret"
                           else if String.eqb name "service" then Str "devices"
                           else if String.eqb name "path" then Str "/accounts"
                           else if String.eqb name "method" then Str "get"
                           else Undefined)
              "devices" "/accounts" "get" eq_refl eq_refl eq_refl (or_introl eq_refl)
              eq_refl eq_refl eq_refl) as (C & R & _).
  apply injective_projections; [|exact C].
  apply (R 404 "not found" eq_refl). lia.
Defined.

Lemma api_endpoint_outcomes_witness :
  snd (api_endpoint Samples.ascii_upper Samples.upstream_404
         (Samples.api_request (Str "secret") (Str "devices") Textless
                              (Str "GET"))) = [].
Proof.
  exact (proj2 (proj2 (api_endpoint_outcomes Samples.ascii_upper Samples.upstream_404
                         (Samples.api_request (Str "secret") (Str "devices")
                                              Textless (Str "GET"))))
           "TypeError" eq_refl).
Defined.

End HttpFacts.
